(** * The replication delete queue (src/replication/delete_queue.cc)

    A shallow embedding of [add_key_to_delete_queue],
    [dump_keys_from_delete_queue] and [initialize_empty_delete_queue],
    together with the invariants that tie the Offset Index
    (the [t_and_o] large buffer) to the Key Log (the keys large buffer).

    The two large buffers are modelled down to their bytes: the index holds
    packed 12-byte [t_and_o] records, the log holds length-prefixed keys.
    Block locks, the transactor and thread switching are outside the model:
    one call runs alone on the queue it is given. *)

From Stdlib Require Import ZArith List Lia Bool Sorted.
From Stdlib Require Import Strings.Byte.
From stdpp Require Import base list.
From coqutil Require Import Byte Word.LittleEndianList.
Import ListNotations.
Local Open Scope Z_scope.

(** ** Machine integers *)

Definition wrap_unsigned (w z : Z) : Z := z mod 2 ^ w.
Definition wrap_signed (w z : Z) : Z := (z + 2 ^ (w - 1)) mod 2 ^ w - 2 ^ (w - 1).

(** [int], [int64_t] / [off64_t] and [size_t] of the LP64 target. *)
Definition to_int : Z -> Z := wrap_signed 32.
Definition to_int64 : Z -> Z := wrap_signed 64.
Definition to_size_t : Z -> Z := wrap_unsigned 64.

(** ** Data *)

(** [struct repli_timestamp { uint32_t time; }] *)
Record repli_timestamp := mk_timestamp { time : Z }.

(** [struct store_key_t { uint8_t size; char contents[0]; }] *)
Module store_key_t.
Record t := mk { size : Z; contents : list byte }.

(** The object as it lies in memory: the length byte, then the contents. *)
Definition memory (k : t) : list byte := byte.of_Z (size k) :: contents k.

(** A key whose [size] field is a [uint8_t] and counts its contents. *)
Definition well_formed (k : t) : Prop :=
  0 <= size k <= 255 /\ Z.of_nat (length (contents k)) = size k.
End store_key_t.

(** [struct large_buf_ref { int64_t size; int64_t offset; block_id_t block_ids[0]; }]
    The flexible array is the list of the block ids that fit in the bytes
    reserved for the reference. *)
Module large_buf_ref.
Record t := mk { size : Z; offset : Z; block_ids : list Z }.
End large_buf_ref.

Definition block_magic_t := list byte.

(** The root block, seen through the accessors of namespace [delete_queue]:
    magic, primal offset, and the two embedded large buffer references. *)
Record delete_queue_block_t := mk_block {
  magic : block_magic_t;
  primal_offset : Z;
  timestamps_and_offsets_largebuf : large_buf_ref.t;
  keys_largebuf : large_buf_ref.t
}.

(** [const block_magic_t delete_queue_block_t::expected_magic = { { 'D', 'e', 'l', 'Q' } };] *)
Definition expected_magic : block_magic_t := ["D"; "e"; "l"; "Q"]%byte.

(** [struct t_and_o { repli_timestamp timestamp; off64_t offset; } __attribute__((__packed__));] *)
Module t_and_o.
Record t := mk { timestamp : repli_timestamp; offset : Z }.

Definition sizeof : Z := 12.

(** The packed record in memory, little endian: 4 bytes of [timestamp.time],
    8 bytes of [offset]. *)
Definition memory (x : t) : list byte :=
  le_split 4 (time (timestamp x)) ++ le_split 8 (offset x).

(** Reading the record back from 12 bytes. *)
Definition of_memory (bs : list byte) : t :=
  mk (mk_timestamp (le_combine (take 4 bs)))
     (to_int64 (le_combine (take 8 (drop 4 bs)))).
End t_and_o.

(** The queue as one call sees it: the root block and the contents of the
    two large buffers its references lead to. *)
Record queue := mk_queue {
  queue_root : delete_queue_block_t;
  t_o_data : list byte;
  keys_data : list byte
}.

(** ** Effects *)

(** The [rassert]s of the source, by what they check. *)
Inductive assertion :=
| t_o_size_multiple      (* rassert(t_o_ref->size % sizeof(t_and_o) == 0) *)
| begin_found_at_end     (* rassert(begin_found) *)
| begin_le_end           (* rassert(begin_offset <= end_offset) *)
| key_within_slice       (* rassert(k->size + 1 <= e - p) *)
| ids_bytes_positive.    (* rassert(ids_bytes > 0) *)

Inductive failure :=
| rassert_failed (a : assertion)
| large_buf_range        (* a large buffer accessed outside its size *)
| fuel_exhausted.        (* a loop of the model ran longer than its bound *)

(** What a call does to the outside: the log line of [logWRN] and the two
    callbacks of [deletion_key_stream_receiver_t]. *)
Inductive event :=
| logWRN (t1 t2 : Z)
| deletion_key (k : store_key_t.t)
| done_deletion_keys.

Inductive outcome (St A : Type) :=
| Returned (a : A) (s : St) (tr : list event)
| Crashed (f : failure) (tr : list event).
Arguments Returned {St A} a s tr.
Arguments Crashed {St A} f tr.

(** State, trace and crash in one monad. *)
Definition M (St A : Type) : Type := St -> outcome St A.

Definition ret {St A} (a : A) : M St A := fun s => Returned a s [].

Definition bind {St A B} (m : M St A) (k : A -> M St B) : M St B :=
  fun s =>
    match m s with
    | Returned a s1 tr1 =>
        match k a s1 with
        | Returned b s2 tr2 => Returned b s2 (tr1 ++ tr2)
        | Crashed f tr2 => Crashed f (tr1 ++ tr2)
        end
    | Crashed f tr1 => Crashed f tr1
    end.

Definition gets {St A} (f : St -> A) : M St A := fun s => Returned (f s) s [].
Definition modify {St} (f : St -> St) : M St unit := fun s => Returned tt (f s) [].
Definition emit {St} (e : event) : M St unit := fun s => Returned tt s [e].
Definition crash {St A} (f : failure) : M St A := fun _ => Crashed f [].

(** Running a computation on a part of the state (a reference inside the
    root block, reached through a pointer in the source). *)
Definition zoom {St T A} (get : St -> T) (set : T -> St -> St) (m : M T A) : M St A :=
  fun s =>
    match m (get s) with
    | Returned a t tr => Returned a (set t s) tr
    | Crashed f tr => Crashed f tr
    end.

Declare Scope m_scope.
Delimit Scope m_scope with M.
Notation "x <- m ;; k" := (bind m (fun x => k))
  (at level 100, m at next level, right associativity) : m_scope.
Notation "m ;; k" := (bind m (fun _ => k))
  (at level 100, right associativity) : m_scope.
Local Open Scope m_scope.

(** The events of an outcome, whether the call returned or not. *)
Definition trace {St A} (o : outcome St A) : list event :=
  match o with Returned _ _ tr => tr | Crashed _ tr => tr end.

(** The keys handed to the receiver, in the order of the calls. *)
Fixpoint delivered (tr : list event) : list store_key_t.t :=
  match tr with
  | [] => []
  | deletion_key k :: tr' => k :: delivered tr'
  | _ :: tr' => delivered tr'
  end.

(** How often the receiver was told that the stream has ended. *)
Fixpoint completions (tr : list event) : nat :=
  match tr with
  | [] => 0
  | done_deletion_keys :: tr' => S (completions tr')
  | _ :: tr' => completions tr'
  end.

(** ** The program *)

Section Program.

(** Whether [rassert] is compiled in: [true] for a debug build, [false]
    under [NDEBUG], where the checked condition is not even evaluated. *)
Variable debug : bool.

(** [large_buf_ref] and [block_id_t] are declared in headers outside
    delete_queue.cc: their sizes, the offset of the [block_ids] member and
    the null block id are parameters. *)
Variable sizeof_large_buf_ref : Z.
Variable offsetof_block_ids : Z.
Variable sizeof_block_id_t : Z.
Variable NULL_BLOCK_ID : Z.

(** Modelled from the spec: [rassert] (errors.hpp) is missing from the source.
    Section 7 of the spec makes a failed internal check fatal: it stops the
    operation. Under [NDEBUG] the macro expands to nothing. *)
Definition rassert {St} (a : assertion) (cond : bool) : M St unit :=
  if debug && negb cond then crash (rassert_failed a) else ret tt.

(** *** Large buffers *)

Inductive which_largebuf := t_o_largebuf | keys_largebuf_.

Definition ref_of (w : which_largebuf) (q : queue) : large_buf_ref.t :=
  match w with
  | t_o_largebuf => timestamps_and_offsets_largebuf (queue_root q)
  | keys_largebuf_ => keys_largebuf (queue_root q)
  end.

Definition data_of (w : which_largebuf) (q : queue) : list byte :=
  match w with t_o_largebuf => t_o_data q | keys_largebuf_ => keys_data q end.

Definition set_ref (w : which_largebuf) (r : large_buf_ref.t) (q : queue) : queue :=
  let b := queue_root q in
  match w with
  | t_o_largebuf =>
      mk_queue (mk_block (magic b) (primal_offset b) r (keys_largebuf b))
               (t_o_data q) (keys_data q)
  | keys_largebuf_ =>
      mk_queue (mk_block (magic b) (primal_offset b) (timestamps_and_offsets_largebuf b) r)
               (t_o_data q) (keys_data q)
  end.

Definition set_data (w : which_largebuf) (d : list byte) (q : queue) : queue :=
  match w with
  | t_o_largebuf => mk_queue (queue_root q) d (keys_data q)
  | keys_largebuf_ => mk_queue (queue_root q) (t_o_data q) d
  end.

Definition set_size (n : Z) (r : large_buf_ref.t) : large_buf_ref.t :=
  large_buf_ref.mk n (large_buf_ref.offset r) (large_buf_ref.block_ids r).

Definition ref_size (w : which_largebuf) : M queue Z :=
  gets (fun q => large_buf_ref.size (ref_of w q)).

Definition in_range (pos n size : Z) : bool :=
  (0 <=? pos) && (0 <=? n) && (pos + n <=? size).

(** Modelled from the spec: [large_buf_t::allocate] is missing from the
    source. Section 6 gives a segmented buffer allocate(size), append(delta),
    readAt(offset,len) and writeAt(offset,bytes), and a reference whose size 0
    means unallocated. Only the size field of the reference and the bytes are
    tracked; which blocks hold them is left to the buffer. Fresh bytes read as
    zero until they are filled. *)
Definition allocate (w : which_largebuf) (n : Z) : M queue unit :=
  modify (fun q => set_data w (repeat Byte.x00 (Z.to_nat n))
                     (set_ref w (set_size n (ref_of w q)) q)).

(** Modelled from the spec: [large_buf_t::append] is missing from the source.
    Section 6: append(delta bytes) grows the buffer at its end; the size in
    the reference grows with it. *)
Definition append (w : which_largebuf) (n : Z) : M queue unit :=
  modify (fun q => set_data w (data_of w q ++ repeat Byte.x00 (Z.to_nat n))
                     (set_ref w (set_size (to_int64 (large_buf_ref.size (ref_of w q) + n))
                                          (ref_of w q)) q)).

(** Modelled from the spec: [large_buf_t::fill_at] is missing from the source.
    Section 6: writeAt(offset, bytes) overwrites [n] bytes at [pos] with the
    first [n] bytes of the object at [src]. A write outside [0, size) stops
    the call. *)
Definition fill_at (w : which_largebuf) (pos : Z) (src : list byte) (n : Z) : M queue unit :=
  size <- ref_size w;;
  if in_range pos n size then
    modify (fun q => set_data w (take (Z.to_nat pos) (data_of w q)
                                 ++ take (Z.to_nat n) src
                                 ++ drop (Z.to_nat (pos + n)) (data_of w q)) q)
  else crash large_buf_range.

(** Modelled from the spec: [large_buf_t::read_at] is missing from the source.
    Section 6: readAt(offset, len) gives the [n] bytes at [pos]. A read
    outside [0, size) stops the call. *)
Definition read_at (w : which_largebuf) (pos n : Z) : M queue (list byte) :=
  size <- ref_size w;;
  if in_range pos n size then
    gets (fun q => take (Z.to_nat n) (drop (Z.to_nat pos) (data_of w q)))
  else crash large_buf_range.

(** *** namespace delete_queue *)

Definition sizeof_block_magic_t : Z := 4.
Definition sizeof_off64_t : Z := 8.

Definition PRIMAL_OFFSET_OFFSET : Z := to_int sizeof_block_magic_t.
Definition TIMESTAMPS_AND_OFFSETS_OFFSET : Z :=
  to_int (PRIMAL_OFFSET_OFFSET + sizeof_off64_t).
Definition TIMESTAMPS_AND_OFFSETS_SIZE : Z :=
  to_int (sizeof_large_buf_ref + 3 * sizeof_block_id_t).

Definition keys_largebuf_ref_size (block_size : Z) : Z :=
  to_int (block_size - (TIMESTAMPS_AND_OFFSETS_OFFSET + TIMESTAMPS_AND_OFFSETS_SIZE)).

(** *** add_key_to_delete_queue *)

Definition add_key_to_delete_queue
    (timestamp : repli_timestamp) (key : store_key_t.t) : M queue unit :=
  primal <- gets (fun q => primal_offset (queue_root q));;
  t_o_size <- ref_size t_o_largebuf;;
  rassert t_o_size_multiple (to_size_t t_o_size mod t_and_o.sizeof =? 0);;
  (* 1. Possibly update the (timestamp, offset) queue. *)
  (if t_o_size =? 0 then
     keys_size <- ref_size keys_largebuf_;;
     let tao := t_and_o.mk timestamp (to_int64 (primal + keys_size)) in
     allocate t_o_largebuf t_and_o.sizeof;;
     fill_at t_o_largebuf 0 (t_and_o.memory tao) t_and_o.sizeof
   else
     bytes <- read_at t_o_largebuf (to_int64 (t_o_size - t_and_o.sizeof)) t_and_o.sizeof;;
     let last_tao := t_and_o.of_memory bytes in
     timestamp <-
       (if time (t_and_o.timestamp last_tao) >? time timestamp then
          emit (logWRN (time (t_and_o.timestamp last_tao)) (time timestamp));;
          ret (t_and_o.timestamp last_tao)
        else ret timestamp);;
     if negb (time (t_and_o.timestamp last_tao) =? time timestamp) then
       keys_size <- ref_size keys_largebuf_;;
       let tao := t_and_o.mk timestamp (to_int64 (primal + keys_size)) in
       append t_o_largebuf t_and_o.sizeof;;
       t_o_size' <- ref_size t_o_largebuf;;
       fill_at t_o_largebuf (to_int64 (t_o_size' - t_and_o.sizeof))
               (t_and_o.memory tao) t_and_o.sizeof
     else ret tt);;
  (* 2. Update the keys list. *)
  keys_size <- ref_size keys_largebuf_;;
  if keys_size =? 0 then
    allocate keys_largebuf_ (1 + store_key_t.size key);;
    fill_at keys_largebuf_ 0 (store_key_t.memory key) (1 + store_key_t.size key)
  else
    append keys_largebuf_ (1 + store_key_t.size key);;
    keys_size' <- ref_size keys_largebuf_;;
    fill_at keys_largebuf_ (to_int64 (keys_size' - (1 + store_key_t.size key)))
            (store_key_t.memory key) (1 + store_key_t.size key).

(** *** dump_keys_from_delete_queue *)

(** The locals of the index scan. *)
Record scan_locals := mk_locals {
  begin_offset : Z;
  end_offset : Z;
  begin_found : bool;
  end_found : bool
}.

(** [while (i < ie) { ... i += sizeof(tao); }] with its [break]. Every turn
    moves [i] forward, so [ie] turns of fuel are enough. *)
Fixpoint scan (fuel : nat) (primal begin_time end_time i ie : Z) (v : scan_locals)
    : M queue scan_locals :=
  if i <? ie then
    match fuel with
    | O => crash fuel_exhausted
    | S fuel' =>
        bytes <- read_at t_o_largebuf i t_and_o.sizeof;;
        let tao := t_and_o.of_memory bytes in
        let v1 :=
          if negb (begin_found v) && (begin_time <=? time (t_and_o.timestamp tao)) then
            mk_locals (to_int64 (t_and_o.offset tao - primal)) (end_offset v)
                      true (end_found v)
          else v in
        if end_time <=? time (t_and_o.timestamp tao) then
          rassert begin_found_at_end (begin_found v1);;
          ret (mk_locals (begin_offset v1) (to_int64 (t_and_o.offset tao - primal))
                         (begin_found v1) true)
        else scan fuel' primal begin_time end_time (to_int64 (i + t_and_o.sizeof)) ie v1
    end
  else ret v.

(** [while (p < e) { ... p += k->size + 1; }] over the copy of the slice.
    The list is what lies between [p] and [e]; an empty list is [p >= e].
    The receiver is handed a pointer to the length byte; the key of the event
    has that byte for its size and, for its contents, the bytes behind it up
    to [k->size] of them, as far as the copy goes. Where the check is compiled
    out and the length byte asks for more than is left, the key is handed out
    all the same, with the contents that are left, [p] steps past [e] and the
    loop is over. *)
Fixpoint walk (fuel : nat) (slice : list byte) : M queue unit :=
  match slice with
  | [] => ret tt
  | b :: rest =>
      match fuel with
      | O => crash fuel_exhausted
      | S fuel' =>
          let ksize := byte.unsigned b in
          rassert key_within_slice (ksize + 1 <=? Z.of_nat (length slice));;
          emit (deletion_key (store_key_t.mk ksize (take (Z.to_nat ksize) rest)));;
          walk fuel' (drop (Z.to_nat ksize) rest)
      end
  end.

(** The block that turns the timestamp range into a byte range of the Key
    Log (source lines 142-174): [None] is the [goto done] taken when no entry
    reaches [begin_timestamp], [Some (begin_offset, end_offset)] is what the
    block leaves in the two locals. *)
Definition range_lookup (primal : Z) (begin_timestamp end_timestamp : repli_timestamp)
    : M queue (option (Z * Z)) :=
  t_o_size <- ref_size t_o_largebuf;;
  v <- scan (Z.to_nat t_o_size) primal (time begin_timestamp) (time end_timestamp)
            0 t_o_size (mk_locals 0 0 false false);;
  if negb (begin_found v) then
    ret None                                  (* goto done *)
  else if negb (end_found v) then
    keys_size <- ref_size keys_largebuf_;;
    ret (Some (begin_offset v, keys_size))    (* end_offset = keys_ref->size *)
  else ret (Some (begin_offset v, end_offset v)).

(** The block that copies the slice and hands out its keys (source lines
    178-201). *)
Definition range_read (begin_offset end_offset : Z) : M queue unit :=
  let n := to_int64 (end_offset - begin_offset) in
  buf <- read_at keys_largebuf_ begin_offset n;;
  walk (length buf) buf.

Definition dump_keys_from_delete_queue
    (begin_timestamp end_timestamp : repli_timestamp) : M queue unit :=
  primal <- gets (fun q => primal_offset (queue_root q));;
  t_o_size <- ref_size t_o_largebuf;;
  keys_size <- ref_size keys_largebuf_;;
  (if negb (t_o_size =? 0) && negb (keys_size =? 0) then
     rassert t_o_size_multiple (to_size_t t_o_size mod t_and_o.sizeof =? 0);;
     range <- range_lookup primal begin_timestamp end_timestamp;;
     match range with
     | None => ret tt
     | Some (begin_offset, end_offset) =>
         rassert begin_le_end (begin_offset <=? end_offset);;
         if begin_offset <? end_offset then range_read begin_offset end_offset
         else ret tt
     end
   else ret tt);;
  (* done: *)
  emit done_deletion_keys.

(** *** initialize_empty_delete_queue *)

Definition set_block_id (i : Z) (id : Z) (r : large_buf_ref.t) : large_buf_ref.t :=
  large_buf_ref.mk (large_buf_ref.size r) (large_buf_ref.offset r)
                   (<[Z.to_nat i := id]> (large_buf_ref.block_ids r)).

(** [for (int i = 0, e = ...; i < e; ++i) ref->block_ids[i] = NULL_BLOCK_ID;] *)
Fixpoint clear_block_ids (fuel : nat) (i e : Z) : M large_buf_ref.t unit :=
  if i <? e then
    match fuel with
    | O => crash fuel_exhausted
    | S fuel' =>
        modify (set_block_id i NULL_BLOCK_ID);;
        clear_block_ids fuel' (to_int (i + 1)) e
    end
  else ret tt.

Definition initialize_large_buf_ref (size_in_bytes : Z) : M large_buf_ref.t unit :=
  let ids_bytes := to_int (size_in_bytes - offsetof_block_ids) in
  rassert ids_bytes_positive (0 <? ids_bytes);;
  modify (fun r => large_buf_ref.mk (large_buf_ref.size r) 0 (large_buf_ref.block_ids r));;
  modify (set_size 0);;
  let e := to_int (to_size_t ids_bytes / sizeof_block_id_t) in
  clear_block_ids (Z.to_nat e) 0 e.

Definition initialize_empty_delete_queue (block_size : Z) : M delete_queue_block_t unit :=
  modify (fun dqb => mk_block expected_magic (primal_offset dqb)
                       (timestamps_and_offsets_largebuf dqb) (keys_largebuf dqb));;
  modify (fun dqb => mk_block (magic dqb) 0
                       (timestamps_and_offsets_largebuf dqb) (keys_largebuf dqb));;
  zoom timestamps_and_offsets_largebuf
       (fun r dqb => mk_block (magic dqb) (primal_offset dqb) r (keys_largebuf dqb))
       (initialize_large_buf_ref TIMESTAMPS_AND_OFFSETS_SIZE);;
  zoom keys_largebuf
       (fun r dqb => mk_block (magic dqb) (primal_offset dqb)
                       (timestamps_and_offsets_largebuf dqb) r)
       (initialize_large_buf_ref (keys_largebuf_ref_size block_size)).

(** *** Sequences of calls *)

(** One [add_key_to_delete_queue] after the other. *)
Fixpoint enqueue_all (ops : list (repli_timestamp * store_key_t.t)) : M queue unit :=
  match ops with
  | [] => ret tt
  | (t, k) :: ops' => add_key_to_delete_queue t k;; enqueue_all ops'
  end.

End Program.

(** ** Reading a queue back *)

(** The Offset Index as records: the index bytes cut into 12-byte pieces. *)
Definition index_entries (q : queue) : list t_and_o.t :=
  map (fun j => t_and_o.of_memory (take 12 (drop (12 * j) (t_o_data q))))
      (seq 0 (length (t_o_data q) / 12)).

(** The Key Log as keys: a length byte, that many bytes, and again. *)
Fixpoint parse_keys (fuel : nat) (data : list byte) : list store_key_t.t :=
  match fuel, data with
  | S fuel', b :: rest =>
      store_key_t.mk (byte.unsigned b) (take (Z.to_nat (byte.unsigned b)) rest)
      :: parse_keys fuel' (drop (Z.to_nat (byte.unsigned b)) rest)
  | _, _ => []
  end.

Definition log_entries (q : queue) : list store_key_t.t :=
  parse_keys (length (keys_data q)) (keys_data q).

(** The positions in the Key Log at which an entry begins, and its end. *)
Fixpoint entry_boundaries (fuel : nat) (pos : Z) (data : list byte) : list Z :=
  pos ::
  match fuel, data with
  | S fuel', b :: rest =>
      entry_boundaries fuel' (pos + 1 + byte.unsigned b)
                       (drop (Z.to_nat (byte.unsigned b)) rest)
  | _, _ => []
  end.

Definition log_boundaries (q : queue) : list Z :=
  entry_boundaries (length (keys_data q)) 0 (keys_data q).

(** A reference in the unallocated state. *)
Definition unallocated (null_id : Z) (r : large_buf_ref.t) : Prop :=
  large_buf_ref.size r = 0 /\ large_buf_ref.offset r = 0 /\
  Forall (fun id => id = null_id) (large_buf_ref.block_ids r).

(** A queue straight after [initialize_empty_delete_queue]: the root block it
    wrote, and no large buffer contents yet. *)
Definition empty_queue (root : delete_queue_block_t) : queue := mk_queue root [] [].

(** ** The calls as the specification sees them *)

Definition entry : Type := repli_timestamp * store_key_t.t.

Definition valid_timestamp (t : repli_timestamp) : Prop := 0 <= time t < 2 ^ 32.

Definition valid_entry (x : entry) : Prop :=
  valid_timestamp (fst x) /\ store_key_t.well_formed (snd x).

(** The bytes the keys of the calls take in the Key Log. *)
Fixpoint log_bytes (ops : list entry) : Z :=
  match ops with
  | [] => 0
  | (_, k) :: ops' => 1 + store_key_t.size k + log_bytes ops'
  end.

(** Both large buffers stay within what an [int64_t] size can count. *)
Definition fits (primal : Z) (ops : list entry) : Prop :=
  0 <= primal /\ primal + log_bytes ops < 2 ^ 63 /\
  12 * Z.of_nat (length ops) < 2 ^ 63.

(** The effective timestamp of a call: the one given, unless the last
    stored one is later. *)
Definition clamp (last : option repli_timestamp) (t : repli_timestamp) : repli_timestamp :=
  match last with
  | Some l => if time l >? time t then l else t
  | None => t
  end.

Fixpoint effective_from (last : option repli_timestamp) (ops : list entry) : list entry :=
  match ops with
  | [] => []
  | (t, k) :: ops' => (clamp last t, k) :: effective_from (Some (clamp last t)) ops'
  end.

Definition effective (ops : list entry) : list entry := effective_from None ops.

(** The calls whose effective timestamp lies in [[begin, end)]. *)
Definition in_window (b e : repli_timestamp) (x : entry) : bool :=
  (time b <=? time (fst x)) && (time (fst x) <? time e).

Definition key_log (ks : list store_key_t.t) : list byte :=
  flat_map store_key_t.memory ks.

(** The Offset Index that goes with a list of (effective timestamp, key)
    pairs: one record where the timestamp changes, holding the absolute
    offset at which the key of that pair begins. *)
Fixpoint index_from (prev : option Z) (off : Z) (eff : list entry) : list t_and_o.t :=
  match eff with
  | [] => []
  | (t, k) :: eff' =>
      (if match prev with Some p => p =? time t | None => false end
       then [] else [t_and_o.mk t off])
      ++ index_from (Some (time t)) (off + (1 + store_key_t.size k)) eff'
  end.

Definition encodable (x : t_and_o.t) : Prop :=
  0 <= time (t_and_o.timestamp x) < 2 ^ 32 /\ - 2 ^ 63 <= t_and_o.offset x < 2 ^ 63.

Definition index_bytes (E : list t_and_o.t) : list byte := flat_map t_and_o.memory E.

Definition first_at_least (x : Z) (E : list t_and_o.t) : option t_and_o.t :=
  List.find (fun tao => x <=? time (t_and_o.timestamp tao)) E.

(** Strictly increasing in timestamp and in offset. *)
Definition entry_lt (x y : t_and_o.t) : Prop :=
  time (t_and_o.timestamp x) < time (t_and_o.timestamp y) /\
  t_and_o.offset x < t_and_o.offset y.

Definition time_le (x y : entry) : Prop := time (fst x) <= time (fst y).

(** What ties a queue to the calls that built it. *)
Record represents (primal : Z) (q : queue) (eff : list entry) : Prop := mk_represents {
  rep_primal : primal_offset (queue_root q) = primal;
  rep_t_o_size : large_buf_ref.size (timestamps_and_offsets_largebuf (queue_root q))
                 = 12 * Z.of_nat (length (index_from None primal eff));
  rep_t_o_data : t_o_data q = index_bytes (index_from None primal eff);
  rep_keys_size : large_buf_ref.size (keys_largebuf (queue_root q)) = log_bytes eff;
  rep_keys_data : keys_data q = key_log (map snd eff);
  rep_valid : Forall valid_entry eff;
  rep_sorted : StronglySorted time_le eff;
  rep_fits : fits primal eff
}.

(** ** Auxiliary notions for the proofs *)

(** An outcome with more events in front. *)
Definition prepend {St A} (tr : list event) (o : outcome St A) : outcome St A :=
  match o with
  | Returned a s tr' => Returned a s (tr ++ tr')
  | Crashed f tr' => Crashed f (tr ++ tr')
  end.

(** The index scan of [dump_keys_from_delete_queue] on decoded records;
    [None] is the failed [rassert(begin_found)]. *)
Fixpoint scan_entries (dbg : bool) (primal begin_time end_time : Z)
    (E : list t_and_o.t) (v : scan_locals) : option scan_locals :=
  match E with
  | [] => Some v
  | tao :: E' =>
      let v1 :=
        if negb (begin_found v) && (begin_time <=? time (t_and_o.timestamp tao)) then
          mk_locals (to_int64 (t_and_o.offset tao - primal)) (end_offset v)
                    true (end_found v)
        else v in
      if end_time <=? time (t_and_o.timestamp tao) then
        if dbg && negb (begin_found v1) then None
        else Some (mk_locals (begin_offset v1) (to_int64 (t_and_o.offset tao - primal))
                             (begin_found v1) true)
      else scan_entries dbg primal begin_time end_time E' v1
  end.

Definition scan_outcome (q : queue) (r : option scan_locals) : outcome queue scan_locals :=
  match r with
  | Some v => Returned v q []
  | None => Crashed (rassert_failed begin_found_at_end) []
  end.

(** The timestamp of the last pair, or [prev] when there is none. *)
Fixpoint last_time (prev : option Z) (eff : list entry) : option Z :=
  match eff with
  | [] => prev
  | (t, _) :: eff' => last_time (Some (time t)) eff'
  end.

(** The pairs before a timestamp, and those from it on. *)
Definition before (x : Z) (en : entry) : bool := time (fst en) <? x.
Definition from (x : Z) (en : entry) : bool := x <=? time (fst en).

(** The timestamp record of the last pair, or [prev] when there is none. *)
Fixpoint last_stamp (prev : option repli_timestamp) (eff : list entry)
    : option repli_timestamp :=
  match eff with
  | [] => prev
  | (t, _) :: eff' => last_stamp (Some t) eff'
  end.

(** The log line a call writes when its timestamp lies before the last one. *)
Definition warning (last : option repli_timestamp) (t : repli_timestamp) : list event :=
  match last with
  | Some l => if time l >? time t then [logWRN (time l) (time t)] else []
  | None => []
  end.

Fixpoint warnings_from (last : option repli_timestamp) (ops : list entry) : list event :=
  match ops with
  | [] => []
  | (t, _) :: ops' => warning last t ++ warnings_from (Some (clamp last t)) ops'
  end.

(** The index record a call adds: none when its effective timestamp is the
    last stored one. *)
Definition new_record (primal : Z) (eff : list entry) (t : repli_timestamp)
    : list t_and_o.t :=
  if match last_time None eff with Some p => p =? time t | None => false end
  then [] else [t_and_o.mk t (primal + log_bytes eff)].

(** The key made of the given bytes. *)
Definition key_of (s : list byte) : store_key_t.t :=
  store_key_t.mk (Z.of_nat (length s)) s.

(** The calls of the two scenarios of the specification. *)
Definition scenario_calls : list entry :=
  [(mk_timestamp 100, key_of ["a"%byte]);
   (mk_timestamp 100, key_of ["b"%byte]);
   (mk_timestamp 105, key_of ["c"%byte])].

Definition out_of_order_calls : list entry :=
  [(mk_timestamp 100, key_of ["a"%byte]); (mk_timestamp 50, key_of ["b"%byte])].

(** An outcome that is not a crash with the given failure. *)
Definition never_fails {St A} (f : failure) (o : outcome St A) : Prop :=
  forall tr, o <> Crashed f tr.

(** A root block as it may look before initialization: arbitrary contents,
    with room for 3 block ids in the index reference and [n] in the log
    reference. *)
Definition uninitialized_block (n : nat) : delete_queue_block_t :=
  mk_block ["j"; "u"; "n"; "k"]%byte 77
           (large_buf_ref.mk 5 6 [1; 2; 3]) (large_buf_ref.mk 7 8 (repeat 9 n)).


(** The root block that initialization writes over [uninitialized_block n]
    when block ids are 4 bytes wide and the null block id is [0xFFFFFFFF]. *)
Definition initialized_block (n : nat) : delete_queue_block_t :=
  mk_block expected_magic 0
           (large_buf_ref.mk 0 0 (repeat 4294967295 3))
           (large_buf_ref.mk 0 0 (repeat 4294967295 n)).

(** ** Notions for calls on a queue in any state *)

(** The outcome of a call that only reads the queue [q]: where it returns,
    the queue is [q] still; returning or not, its events are key deliveries. *)
Definition reads_and_delivers {A} (q : queue) (o : outcome queue A) : Prop :=
  match o with
  | Returned _ q' tr => q' = q /\ exists ks, tr = map deletion_key ks
  | Crashed _ tr => exists ks, tr = map deletion_key ks
  end.

(** The outcome of a part of a call that reads the queue [q] and tells the
    receiver nothing. *)
Definition reads_silently {A} (q : queue) (o : outcome queue A) : Prop :=
  match o with
  | Returned _ q' tr => q' = q /\ tr = []
  | Crashed _ tr => tr = []
  end.

(** The timestamp [0xFFFFFFFF], the largest a [uint32_t] holds. *)
Definition max_timestamp : repli_timestamp := mk_timestamp (2 ^ 32 - 1).

(** A queue that no calls have built: its Key Log breaks off in the middle
    of a key of 5 bytes. *)
Definition damaged_queue : queue :=
  mk_queue
    (mk_block expected_magic 0
              (large_buf_ref.mk 12 0 [0; 0; 0]) (large_buf_ref.mk 3 0 [0]))
    (t_and_o.memory (t_and_o.mk (mk_timestamp 100) 0))
    [Byte.x05; "a"%byte; "b"%byte].

(** The queue that the three calls of the first scenario build on the root
    block [initialized_block 1010], in a debug build. *)
Definition scenario_queue : queue :=
  match enqueue_all true scenario_calls (empty_queue (initialized_block 1010)) with
  | Returned _ q _ => q
  | Crashed _ _ => empty_queue (initialized_block 1010)
  end.

(** * Proofs *)

(** ** Machine integers *)

Lemma to_int64_small z : - 2 ^ 63 <= z < 2 ^ 63 -> to_int64 z = z.
Proof.
  intros H. unfold to_int64, wrap_signed.
  change (2 ^ (64 - 1)) with (2 ^ 63).
  rewrite Z.mod_small; lia.
Qed.

Lemma to_int_small z : - 2 ^ 31 <= z < 2 ^ 31 -> to_int z = z.
Proof.
  intros H. unfold to_int, wrap_signed.
  change (2 ^ (32 - 1)) with (2 ^ 31).
  rewrite Z.mod_small; lia.
Qed.

Lemma to_int_range z : - 2 ^ 31 <= to_int z < 2 ^ 31.
Proof.
  unfold to_int, wrap_signed. change (2 ^ (32 - 1)) with (2 ^ 31).
  pose proof (Z.mod_pos_bound (z + 2 ^ 31) (2 ^ 32)). lia.
Qed.

Lemma to_size_t_small z : 0 <= z < 2 ^ 64 -> to_size_t z = z.
Proof. intros H. unfold to_size_t, wrap_unsigned. apply Z.mod_small. lia. Qed.

Lemma int64_of_uint64 z : - 2 ^ 63 <= z < 2 ^ 63 -> to_int64 (z mod 2 ^ 64) = z.
Proof.
  intros H. unfold to_int64, wrap_signed. change (2 ^ (64 - 1)) with (2 ^ 63).
  rewrite Zplus_mod_idemp_l. rewrite Z.mod_small; lia.
Qed.

(** ** The packed index record *)

Lemma timestamp_eq (a b : repli_timestamp) : time a = time b -> a = b.
Proof. destruct a, b; simpl; congruence. Qed.

Lemma t_and_o_length x : length (t_and_o.memory x) = 12%nat.
Proof. unfold t_and_o.memory. rewrite length_app, !length_le_split. reflexivity. Qed.

Lemma t_and_o_roundtrip x : encodable x -> t_and_o.of_memory (t_and_o.memory x) = x.
Proof.
  destruct x as [[t] o]. unfold encodable, t_and_o.of_memory, t_and_o.memory.
  cbn [time t_and_o.timestamp t_and_o.offset]. intros [Ht Ho].
  rewrite take_app_length' by (now rewrite length_le_split).
  rewrite drop_app_length' by (now rewrite length_le_split).
  rewrite take_ge by (rewrite length_le_split; lia).
  rewrite !le_combine_split.
  change (Z.of_nat 4 * 8) with 32. change (Z.of_nat 8 * 8) with 64.
  rewrite (Z.mod_small t) by lia.
  rewrite int64_of_uint64 by lia. reflexivity.
Qed.

Lemma index_bytes_length E : length (index_bytes E) = (12 * length E)%nat.
Proof.
  unfold index_bytes. induction E as [|x E IH]; cbn [flat_map length]; [reflexivity|].
  rewrite length_app, t_and_o_length. lia.
Qed.

Lemma index_bytes_app E1 E2 : index_bytes (E1 ++ E2) = index_bytes E1 ++ index_bytes E2.
Proof. unfold index_bytes. apply flat_map_app. Qed.

(** Reading the record that follows [E1] in the index bytes. *)
Lemma index_bytes_read E1 x E2 :
  take 12 (drop (12 * length E1) (index_bytes (E1 ++ x :: E2))) = t_and_o.memory x.
Proof.
  rewrite index_bytes_app. rewrite drop_app_length' by (now rewrite index_bytes_length).
  unfold index_bytes. cbn [flat_map]. apply take_app_length'. now rewrite t_and_o_length.
Qed.

Lemma index_entries_bytes q E :
  t_o_data q = index_bytes E -> Forall encodable E -> index_entries q = E.
Proof.
  intros Hd HE. unfold index_entries. rewrite Hd, index_bytes_length.
  replace ((12 * length E) `div` 12)%nat with (length E)
    by (symmetry; rewrite Nat.mul_comm; apply Nat.div_mul; lia).
  clear Hd. apply list_eq. intros j.
  rewrite list_lookup_fmap.
  destruct (decide (j < length E)%nat) as [Hj|Hj].
  - rewrite lookup_seq_lt by lia. cbn [fmap option_fmap option_map Nat.add].
    destruct (lookup_lt_is_Some_2 E j Hj) as [x Hx]. rewrite Hx.
    destruct (list_elem_of_split_length _ _ _ Hx) as (E1 & E2 & -> & ->).
    rewrite index_bytes_read. f_equal. apply t_and_o_roundtrip.
    rewrite Forall_forall in HE. apply HE. rewrite elem_of_app. right. constructor.
  - rewrite lookup_seq_ge by lia. simpl. symmetry. apply lookup_ge_None. lia.
Qed.

(** ** The key log *)

Lemma key_memory_length k :
  store_key_t.well_formed k ->
  Z.of_nat (length (store_key_t.memory k)) = 1 + store_key_t.size k.
Proof. intros [_ H]. unfold store_key_t.memory. simpl. lia. Qed.

Lemma key_size_byte k :
  store_key_t.well_formed k -> byte.unsigned (byte.of_Z (store_key_t.size k)) = store_key_t.size k.
Proof.
  intros [H _]. rewrite byte.unsigned_of_Z. unfold byte.wrap. apply Z.mod_small. lia.
Qed.

Lemma key_log_app ks1 ks2 : key_log (ks1 ++ ks2) = key_log ks1 ++ key_log ks2.
Proof. unfold key_log. apply flat_map_app. Qed.

Lemma log_bytes_app ops1 ops2 : log_bytes (ops1 ++ ops2) = log_bytes ops1 + log_bytes ops2.
Proof. induction ops1 as [|[t k] ops1 IH]; simpl; lia. Qed.

Lemma log_bytes_nonneg ops : Forall valid_entry ops -> 0 <= log_bytes ops.
Proof.
  induction 1 as [|[t k] ops [_ [Hk _]] _ IH]; simpl in *; lia.
Qed.

Lemma log_bytes_pos ops : Forall valid_entry ops -> ops <> [] -> 0 < log_bytes ops.
Proof.
  intros H Hne. destruct ops as [|[t k] ops]; [congruence|].
  inversion H as [|? ? [_ [Hk _]] Hr]; subst. simpl in *.
  pose proof (log_bytes_nonneg _ Hr). lia.
Qed.

Lemma key_log_length ops :
  Forall valid_entry ops -> Z.of_nat (length (key_log (map snd ops))) = log_bytes ops.
Proof.
  unfold key_log.
  induction 1 as [|[t k] ops [_ Hk] _ IH]; cbn [map flat_map snd log_bytes]; [reflexivity|].
  rewrite length_app, Nat2Z.inj_add, IH, (key_memory_length k Hk). lia.
Qed.

(** ** Running the monad *)

Lemma prepend_nil {St A} (o : outcome St A) : prepend [] o = o.
Proof. destruct o; reflexivity. Qed.

Lemma bind_step {St A B} (m : M St A) (k : A -> M St B) s a s1 tr :
  m s = Returned a s1 tr -> bind m k s = prepend tr (k a s1).
Proof. intros H. unfold bind, prepend. rewrite H. reflexivity. Qed.

Lemma bind_pure {St A B} (m : M St A) (k : A -> M St B) s a s1 :
  m s = Returned a s1 [] -> bind m k s = k a s1.
Proof. intros H. rewrite (bind_step _ _ _ _ _ _ H). apply prepend_nil. Qed.

Lemma bind_crash {St A B} (m : M St A) (k : A -> M St B) s f tr :
  m s = Crashed f tr -> bind m k s = Crashed f tr.
Proof. intros H. unfold bind. rewrite H. reflexivity. Qed.

Lemma rassert_true {St} dbg a (s : St) : rassert dbg a true s = Returned tt s [].
Proof. unfold rassert. rewrite andb_false_r. reflexivity. Qed.

Lemma rassert_ndebug {St} a c (s : St) : rassert false a c s = Returned tt s [].
Proof. reflexivity. Qed.

Lemma rassert_false {St} a (s : St) :
  rassert true a false s = Crashed (rassert_failed a) [].
Proof. reflexivity. Qed.

(** ** Large buffer accesses within range *)

Lemma read_at_ok w pos n q :
  in_range pos n (large_buf_ref.size (ref_of w q)) = true ->
  read_at w pos n q
  = Returned (take (Z.to_nat n) (drop (Z.to_nat pos) (data_of w q))) q [].
Proof.
  intros H. unfold read_at, ref_size, bind, gets. rewrite H. reflexivity.
Qed.

Lemma fill_at_ok w pos src n q :
  in_range pos n (large_buf_ref.size (ref_of w q)) = true ->
  fill_at w pos src n q
  = Returned tt (set_data w (take (Z.to_nat pos) (data_of w q)
                             ++ take (Z.to_nat n) src
                             ++ drop (Z.to_nat (pos + n)) (data_of w q)) q) [].
Proof.
  intros H. unfold fill_at, ref_size, bind, gets, modify. rewrite H. reflexivity.
Qed.

Lemma in_range_intro pos n size :
  0 <= pos -> 0 <= n -> pos + n <= size -> in_range pos n size = true.
Proof. intros. unfold in_range. repeat (apply andb_true_intro; split); lia. Qed.

(** ** Walking a slice of whole keys *)

Lemma key_eta k : store_key_t.mk (store_key_t.size k) (store_key_t.contents k) = k.
Proof. destruct k; reflexivity. Qed.

Lemma key_log_cons k ks :
  key_log (k :: ks)
  = byte.of_Z (store_key_t.size k) :: store_key_t.contents k ++ key_log ks.
Proof. reflexivity. Qed.

Lemma walk_key_log dbg ks : forall fuel q,
  Forall store_key_t.well_formed ks ->
  (length (key_log ks) <= fuel)%nat ->
  walk dbg fuel (key_log ks) q = Returned tt q (map deletion_key ks).
Proof.
  induction ks as [|k ks IH]; intros fuel q Hwf Hfuel.
  - destruct fuel; reflexivity.
  - inversion Hwf as [|? ? Hk Hks]; subst.
    pose proof (key_size_byte k Hk) as Hb. destruct Hk as [Hsz Hlen].
    rewrite key_log_cons in *. cbn [length] in Hfuel.
    destruct fuel as [|fuel]; [lia|]. cbn [walk]. rewrite Hb.
    rewrite length_app in *.
    rewrite (bind_pure _ _ _ tt q).
    2:{ replace (_ <=? _) with true; [apply rassert_true|].
        symmetry. apply Z.leb_le. cbn [length]. rewrite length_app. lia. }
    replace (Z.to_nat (store_key_t.size k)) with (length (store_key_t.contents k)) by lia.
    rewrite take_app_length, drop_app_length, key_eta.
    rewrite (bind_step _ _ _ tt q [deletion_key k]) by reflexivity.
    rewrite IH by (auto; lia). reflexivity.
Qed.

Lemma parse_key_log ks : forall fuel,
  Forall store_key_t.well_formed ks ->
  (length (key_log ks) <= fuel)%nat ->
  parse_keys fuel (key_log ks) = ks.
Proof.
  induction ks as [|k ks IH]; intros fuel Hwf Hfuel.
  - destruct fuel; reflexivity.
  - inversion Hwf as [|? ? Hk Hks]; subst.
    pose proof (key_size_byte k Hk) as Hb. destruct Hk as [Hsz Hlen].
    rewrite key_log_cons in *. cbn [length] in Hfuel. rewrite length_app in Hfuel.
    destruct fuel as [|fuel]; [lia|]. cbn [parse_keys]. rewrite Hb.
    replace (Z.to_nat (store_key_t.size k)) with (length (store_key_t.contents k)) by lia.
    rewrite take_app_length, drop_app_length, key_eta.
    rewrite IH by (auto; lia). reflexivity.
Qed.

(** Every prefix of whole keys ends on a boundary of the log. *)
Lemma boundary_after_prefix ks1 : forall ks2 fuel pos,
  Forall store_key_t.well_formed ks1 ->
  (length (key_log ks1) <= fuel)%nat ->
  In (pos + Z.of_nat (length (key_log ks1)))
     (entry_boundaries fuel pos (key_log (ks1 ++ ks2))).
Proof.
  induction ks1 as [|k ks1 IH]; intros ks2 fuel pos Hwf Hfuel.
  - cbn [key_log flat_map length]. destruct fuel; left; cbn; lia.
  - inversion Hwf as [|? ? Hk Hks]; subst.
    pose proof (key_size_byte k Hk) as Hb. destruct Hk as [Hsz Hlen].
    rewrite <- app_comm_cons, !key_log_cons in *.
    cbn [length] in *. rewrite length_app in *.
    destruct fuel as [|fuel]; [lia|]. cbn [entry_boundaries]. rewrite Hb. right.
    replace (Z.to_nat (store_key_t.size k)) with (length (store_key_t.contents k)) by lia.
    rewrite drop_app_length.
    replace (pos + Z.of_nat (S (length (store_key_t.contents k) + length (key_log ks1))))
      with (pos + 1 + store_key_t.size k + Z.of_nat (length (key_log ks1))) by lia.
    apply IH; auto. lia.
Qed.

(** ** The primitive steps under [bind] *)

Lemma bind_ret {St A B} (a : A) (k : A -> M St B) s : bind (ret a) k s = k a s.
Proof. apply bind_pure. reflexivity. Qed.

Lemma bind_gets {St A B} (f : St -> A) (k : A -> M St B) s :
  bind (gets f) k s = k (f s) s.
Proof. apply bind_pure. reflexivity. Qed.

Lemma bind_modify {St B} (f : St -> St) (k : unit -> M St B) s :
  bind (modify f) k s = k tt (f s).
Proof. apply bind_pure. reflexivity. Qed.

Lemma bind_ref_size {B} w (k : Z -> M queue B) q :
  bind (ref_size w) k q = k (large_buf_ref.size (ref_of w q)) q.
Proof. apply bind_pure. reflexivity. Qed.

Lemma bind_emit {St B} ev (k : unit -> M St B) s :
  bind (emit ev) k s = prepend [ev] (k tt s).
Proof. apply bind_step. reflexivity. Qed.

Lemma bind_rassert_true {St B} dbg a (k : unit -> M St B) s :
  bind (rassert dbg a true) k s = k tt s.
Proof. apply bind_pure. apply rassert_true. Qed.

Lemma bind_outcome {St A B} (m : M St A) (k : A -> M St B) s o :
  m s = o ->
  bind m k s = match o with
               | Returned a s1 tr1 => prepend tr1 (k a s1)
               | Crashed f tr1 => Crashed f tr1
               end.
Proof. intros <-. unfold bind, prepend. destruct (m s); reflexivity. Qed.

(** To compute [bind m k s], compute [m s] and continue from its outcome. *)
Lemma bind_outcome_eq {St A B} (m : M St A) (k : A -> M St B) s o o' :
  m s = o ->
  match o with
  | Returned a s1 tr1 => prepend tr1 (k a s1)
  | Crashed f tr1 => Crashed f tr1
  end = o' ->
  bind m k s = o'.
Proof. intros H <-. apply bind_outcome, H. Qed.

(** ** The index scan *)

Section Scan.
Variables (dbg : bool) (primal b e : Z) (q : queue) (E : list t_and_o.t).
Hypothesis t_o_size :
  large_buf_ref.size (timestamps_and_offsets_largebuf (queue_root q))
  = 12 * Z.of_nat (length E).
Hypothesis t_o_bytes : t_o_data q = index_bytes E.
Hypothesis t_o_encodable : Forall encodable E.
Hypothesis t_o_fits : 12 * Z.of_nat (length E) < 2 ^ 63.

Lemma scan_read E1 x E2 :
  E = E1 ++ x :: E2 ->
  read_at t_o_largebuf (12 * Z.of_nat (length E1)) t_and_o.sizeof q
  = Returned (t_and_o.memory x) q [].
Proof.
  intros HE. rewrite read_at_ok.
  - cbn [data_of]. rewrite t_o_bytes, HE.
    replace (Z.to_nat (12 * Z.of_nat (length E1))) with (12 * length E1)%nat by lia.
    change (Z.to_nat t_and_o.sizeof) with 12%nat.
    now rewrite index_bytes_read.
  - cbn [ref_of]. rewrite t_o_size, HE, length_app. cbn [length].
    apply in_range_intro; unfold t_and_o.sizeof; lia.
Qed.

(** The loop over the bytes does what [scan_entries] does over the records. *)
Lemma scan_bytes E2 : forall E1 fuel v,
  E = E1 ++ E2 -> (length E2 <= fuel)%nat ->
  scan dbg fuel primal b e (12 * Z.of_nat (length E1)) (12 * Z.of_nat (length E)) v q
  = scan_outcome q (scan_entries dbg primal b e E2 v).
Proof.
  induction E2 as [|x E2 IH]; intros E1 fuel v HE Hfuel.
  - rewrite HE, app_nil_r.
    destruct fuel; cbn [scan]; rewrite Z.ltb_irrefl; reflexivity.
  - cbn [length] in Hfuel. destruct fuel as [|fuel]; [lia|].
    cbn [scan scan_entries].
    replace (_ <? _) with true
      by (symmetry; apply Z.ltb_lt; rewrite HE, length_app; cbn [length]; lia).
    rewrite (bind_pure _ _ _ _ _ (scan_read E1 x E2 HE)).
    rewrite t_and_o_roundtrip
      by (rewrite Forall_forall in t_o_encodable; apply t_o_encodable;
          rewrite HE, elem_of_app; right; constructor).
    set (v1 := if negb (begin_found v) && _ then _ else v).
    destruct (e <=? time (t_and_o.timestamp x)).
    + unfold rassert, bind, ret, crash, scan_outcome.
      destruct (dbg && negb (begin_found v1)); reflexivity.
    + replace (to_int64 (12 * Z.of_nat (length E1) + t_and_o.sizeof))
        with (12 * Z.of_nat (length (E1 ++ [x]))).
      * apply IH; [rewrite HE, <- app_assoc; reflexivity | lia].
      * pose proof t_o_fits as Hf. rewrite HE, length_app in Hf. cbn [length] in Hf.
        rewrite length_app. cbn [length]. unfold t_and_o.sizeof.
        rewrite to_int64_small; lia.
Qed.

Lemma scan_whole v :
  scan dbg (Z.to_nat (12 * Z.of_nat (length E))) primal b e 0
       (12 * Z.of_nat (length E)) v q
  = scan_outcome q (scan_entries dbg primal b e E v).
Proof. apply (scan_bytes E [] _ v); [reflexivity | lia]. Qed.
End Scan.

(** With the begin mark already set, the scan only looks for the end. *)
Lemma scan_entries_found dbg primal b e E : forall v,
  begin_found v = true ->
  scan_entries dbg primal b e E v
  = Some match first_at_least e E with
         | Some y => mk_locals (begin_offset v) (to_int64 (t_and_o.offset y - primal))
                               true true
         | None => v
         end.
Proof.
  induction E as [|x E IH]; intros v Hv; [reflexivity|].
  cbn [scan_entries first_at_least find]. rewrite Hv. cbn [negb andb].
  destruct (e <=? time (t_and_o.timestamp x)).
  - rewrite Hv, andb_false_r. reflexivity.
  - apply IH, Hv.
Qed.

(** A range given in order: both marks are the first records that reach
    the two timestamps, and the assertion holds. *)
Lemma scan_entries_ordered dbg primal b e E : forall v,
  b <= e -> begin_found v = false ->
  scan_entries dbg primal b e E v
  = Some match first_at_least b E with
         | None => v
         | Some x =>
             match first_at_least e E with
             | Some y => mk_locals (to_int64 (t_and_o.offset x - primal))
                                   (to_int64 (t_and_o.offset y - primal)) true true
             | None => mk_locals (to_int64 (t_and_o.offset x - primal))
                                 (end_offset v) true (end_found v)
             end
         end.
Proof.
  induction E as [|x E IH]; intros v Hbe Hv; [reflexivity|].
  cbn [scan_entries first_at_least find]. rewrite Hv. cbn [negb andb].
  destruct (Z.leb_spec b (time (t_and_o.timestamp x))) as [Hb|Hb].
  - destruct (Z.leb_spec e (time (t_and_o.timestamp x))) as [He|He].
    + cbn [begin_found begin_offset negb]. rewrite andb_false_r. reflexivity.
    + rewrite scan_entries_found by reflexivity. reflexivity.
  - destruct (Z.leb_spec e (time (t_and_o.timestamp x))) as [He|He]; [lia|].
    apply IH; assumption.
Qed.

(** A range given the wrong way round: the first record that reaches
    [end_time] ends the scan, with the begin mark on that same record or not
    set at all. *)
Lemma scan_entries_inverted dbg primal b e E : forall v,
  e < b -> begin_found v = false ->
  scan_entries dbg primal b e E v
  = match first_at_least e E with
    | None => Some v
    | Some y =>
        let o := to_int64 (t_and_o.offset y - primal) in
        if b <=? time (t_and_o.timestamp y) then Some (mk_locals o o true true)
        else if dbg then None
        else Some (mk_locals (begin_offset v) o false true)
    end.
Proof.
  induction E as [|x E IH]; intros v Hbe Hv; [reflexivity|].
  cbn [scan_entries first_at_least find]. rewrite Hv. cbn [negb andb].
  destruct (Z.leb_spec e (time (t_and_o.timestamp x))) as [He|He].
  - cbn zeta. destruct (b <=? time (t_and_o.timestamp x)).
    + cbn [begin_found begin_offset negb]. rewrite andb_false_r. reflexivity.
    + rewrite Hv. cbn [negb]. rewrite andb_true_r. destruct dbg; reflexivity.
  - destruct (Z.leb_spec b (time (t_and_o.timestamp x))) as [Hb|Hb]; [lia|].
    apply IH; assumption.
Qed.

(** ** The index that goes with a list of calls *)

Lemma last_time_snoc eff : forall prev t k,
  last_time prev (eff ++ [(t, k)]) = Some (time t).
Proof. induction eff as [|[t' k'] eff IH]; intros; cbn [last_time app]; auto. Qed.

Lemma last_time_cons_some eff : forall prev,
  eff <> [] -> exists t, last_time prev eff = Some t.
Proof.
  destruct eff as [|[t k] eff]; [congruence|]. intros prev _. cbn [last_time].
  revert t. induction eff as [|[t' k'] eff IH]; intros t; cbn [last_time]; eauto.
Qed.

Lemma index_from_snoc eff : forall prev off t k,
  index_from prev off (eff ++ [(t, k)])
  = index_from prev off eff
    ++ (if match last_time prev eff with Some p => p =? time t | None => false end
        then [] else [t_and_o.mk t (off + log_bytes eff)]).
Proof.
  induction eff as [|[t' k'] eff IH]; intros prev off t k; cbn [index_from app last_time log_bytes].
  - rewrite Z.add_0_r, app_nil_r. reflexivity.
  - rewrite IH, app_assoc.
    replace (off + (1 + store_key_t.size k') + log_bytes eff)
      with (off + (1 + store_key_t.size k' + log_bytes eff)) by lia.
    reflexivity.
Qed.

(** The last record of the index carries the timestamp of the last call. *)
Lemma index_from_last eff : forall off,
  eff <> [] ->
  exists E x, index_from None off eff = E ++ [x]
              /\ last_time None eff = Some (time (t_and_o.timestamp x)).
Proof.
  induction eff as [|[t k] eff IH] using rev_ind; intros off Hne; [congruence|].
  rewrite index_from_snoc, last_time_snoc.
  destruct eff as [|en eff].
  - exists [], (t_and_o.mk t (off + 0)). split; reflexivity.
  - destruct (IH off ltac:(congruence)) as (E & x & HE & Hl). rewrite HE, Hl.
    destruct (Z.eqb_spec (time (t_and_o.timestamp x)) (time t)) as [Heq|Hneq].
    + exists E, x. rewrite app_nil_r. split; [reflexivity | congruence].
    + exists (E ++ [x]), (t_and_o.mk t (off + log_bytes (en :: eff))).
      split; reflexivity.
Qed.

Lemma index_from_length eff : forall prev off,
  (length (index_from prev off eff) <= length eff)%nat.
Proof.
  induction eff as [|[t k] eff IH]; intros prev off; cbn [index_from length]; [lia|].
  rewrite length_app. specialize (IH (Some (time t)) (off + (1 + store_key_t.size k))).
  destruct (match prev with Some p => p =? time t | None => false end); cbn [length]; lia.
Qed.

Lemma index_from_nil_iff eff off : index_from None off eff = [] <-> eff = [].
Proof.
  split; [|intros ->; reflexivity].
  destruct eff as [|[t k] eff]; [reflexivity|]. cbn [index_from]. discriminate.
Qed.

Lemma index_from_encodable eff : forall prev off,
  Forall valid_entry eff -> - 2 ^ 63 <= off -> off + log_bytes eff < 2 ^ 63 ->
  Forall encodable (index_from prev off eff).
Proof.
  induction eff as [|[t k] eff IH]; intros prev off Hv Hlo Hhi; cbn [index_from].
  - constructor.
  - inversion Hv as [|? ? [Ht [Hk _]] Hv']; subst. cbn [fst snd] in *.
    cbn [log_bytes] in Hhi. pose proof (log_bytes_nonneg _ Hv').
    apply Forall_app. split.
    + destruct (match prev with Some p => p =? time t | None => false end);
        constructor; [|constructor].
      split; cbn [t_and_o.timestamp t_and_o.offset]; [exact Ht | lia].
    + apply IH; [assumption | lia | lia].
Qed.

(** Behind a call with timestamp [p], the index only holds later timestamps
    and offsets from [off] on. *)
Lemma index_from_above eff : forall p off,
  Forall valid_entry eff -> StronglySorted time_le eff ->
  Forall (fun en => p <= time (fst en)) eff ->
  Forall (fun x => p < time (t_and_o.timestamp x) /\ off <= t_and_o.offset x)
         (index_from (Some p) off eff).
Proof.
  induction eff as [|[t k] eff IH]; intros p off Hv Hs Hp; cbn [index_from]; [constructor|].
  inversion Hv as [|? ? [Ht [Hk _]] Hv']; subst.
  inversion Hs as [|? ? Hs' Hle]; subst.
  inversion Hp as [|? ? Hpt Hp']; subst. cbn [fst snd] in *.
  specialize (IH (time t) (off + (1 + store_key_t.size k)) Hv' Hs' Hle).
  apply Forall_app. split.
  - destruct (Z.eqb_spec p (time t)); constructor; [|constructor].
    cbn [t_and_o.timestamp t_and_o.offset]. lia.
  - eapply Forall_impl; [exact IH|]. cbn beta. intros x [? ?]. lia.
Qed.

Lemma index_from_sorted eff : forall prev off,
  Forall valid_entry eff -> StronglySorted time_le eff ->
  StronglySorted entry_lt (index_from prev off eff).
Proof.
  induction eff as [|[t k] eff IH]; intros prev off Hv Hs; cbn [index_from]; [constructor|].
  inversion Hv as [|? ? [Ht [Hk _]] Hv']; subst.
  inversion Hs as [|? ? Hs' Hle]; subst. cbn [fst snd] in *.
  specialize (IH (Some (time t)) (off + (1 + store_key_t.size k)) Hv' Hs').
  destruct (match prev with Some p => p =? time t | None => false end); cbn [app];
    [exact IH|].
  constructor; [exact IH|].
  eapply Forall_impl; [apply (index_from_above eff (time t)); eassumption|].
  cbn beta. intros x [? ?]. split; cbn [t_and_o.timestamp t_and_o.offset]; lia.
Qed.

(** ** Sorted calls and windows *)

Lemma filter_before_none l x :
  Forall (fun en : entry => x <= time (fst en)) l -> List.filter (before x) l = [].
Proof.
  induction 1 as [|en l Hen _ IH]; [reflexivity|]. cbn [List.filter]. unfold before at 1.
  replace (_ <? _) with false by (symmetry; apply Z.ltb_ge; lia). exact IH.
Qed.

Lemma filter_from_all l x :
  Forall (fun en : entry => x <= time (fst en)) l -> List.filter (from x) l = l.
Proof.
  induction 1 as [|en l Hen _ IH]; [reflexivity|]. cbn [List.filter]. unfold from at 1.
  replace (_ <=? _) with true by (symmetry; apply Z.leb_le; lia). now rewrite IH.
Qed.

Lemma sorted_tail_above (en : entry) l x :
  Forall (time_le en) l -> x <= time (fst en) ->
  Forall (fun en' : entry => x <= time (fst en')) l.
Proof.
  intros H Hx. eapply Forall_impl; [exact H|]. unfold time_le. cbn beta. intros; lia.
Qed.

(** Sorted calls split at any timestamp into those before and those from it on. *)
Lemma filter_before_from l x :
  StronglySorted time_le l -> l = List.filter (before x) l ++ List.filter (from x) l.
Proof.
  induction 1 as [|en l Hs IH Hle]; [reflexivity|].
  destruct (Z.ltb_spec (time (fst en)) x) as [Hlt|Hge].
  - cbn [List.filter]. unfold before at 1, from at 1.
    replace (_ <? _) with true by (symmetry; apply Z.ltb_lt; lia).
    replace (_ <=? _) with false by (symmetry; apply Z.leb_gt; lia).
    cbn [app]. f_equal. exact IH.
  - assert (Hall : Forall (fun en' : entry => x <= time (fst en')) (en :: l))
      by (constructor; [lia | eapply sorted_tail_above; eauto]).
    now rewrite (filter_before_none _ _ Hall), (filter_from_all _ _ Hall).
Qed.

Lemma filter_sorted (p : entry -> bool) l :
  StronglySorted time_le l -> StronglySorted time_le (List.filter p l).
Proof.
  induction 1 as [|en l Hs IH Hle]; [constructor|]. cbn [List.filter].
  destruct (p en); [|exact IH]. constructor; [exact IH|].
  rewrite Forall_forall in *. intros y Hy. apply Hle.
  apply list_elem_of_In in Hy. apply list_elem_of_In. apply List.filter_In in Hy. tauto.
Qed.

Lemma filter_valid (p : entry -> bool) l :
  Forall valid_entry l -> Forall valid_entry (List.filter p l).
Proof.
  induction 1 as [|en l Hen _ IH]; [constructor|]. cbn [List.filter].
  destruct (p en); [constructor|]; assumption.
Qed.

Lemma filter_before_before l b e :
  b <= e -> List.filter (before b) (List.filter (before e) l) = List.filter (before b) l.
Proof.
  intros Hbe. induction l as [|en l IH]; [reflexivity|]. cbn [List.filter].
  destruct (before e en) eqn:He; cbn [List.filter];
    destruct (before b en) eqn:Hb; rewrite ?IH; try reflexivity.
  unfold before in He, Hb. apply Z.ltb_ge in He. apply Z.ltb_lt in Hb. lia.
Qed.

Lemma filter_from_before l b e :
  List.filter (from (time b)) (List.filter (before (time e)) l)
  = List.filter (in_window b e) l.
Proof.
  induction l as [|en l IH]; [reflexivity|]. cbn [List.filter].
  replace (in_window b e en) with (from (time b) en && before (time e) en)
    by reflexivity.
  destruct (before (time e) en); cbn [List.filter];
    destruct (from (time b) en); cbn [andb]; rewrite ?IH; reflexivity.
Qed.

(** For a range in order, the sorted calls are those before it, those in it
    and those from its end on. *)
Lemma window_split l b e :
  StronglySorted time_le l -> time b <= time e ->
  List.filter (before (time e)) l
  = List.filter (before (time b)) l ++ List.filter (in_window b e) l.
Proof.
  intros Hs Hbe.
  rewrite (filter_before_from (List.filter (before (time e)) l) (time b))
    by (now apply filter_sorted).
  now rewrite filter_before_before, filter_from_before.
Qed.

Lemma window_empty_inverted l b e :
  time e < time b -> List.filter (in_window b e) l = [].
Proof.
  intros H. induction l as [|en l IH]; [reflexivity|]. cbn [List.filter].
  replace (in_window b e en) with false; [exact IH|].
  unfold in_window.
  destruct (Z.leb_spec (time b) (time (fst en))), (Z.ltb_spec (time (fst en)) (time e));
    cbn [andb]; try reflexivity; lia.
Qed.

Lemma window_in_from l b e :
  List.filter (from (time b)) l = [] -> List.filter (in_window b e) l = [].
Proof.
  induction l as [|en l IH]; [reflexivity|]. cbn [List.filter].
  replace (in_window b e en) with (from (time b) en && before (time e) en)
    by reflexivity.
  destruct (from (time b) en); [discriminate|]. exact IH.
Qed.

(** The first index record that reaches a timestamp belongs to the first
    call that does, and lies behind the keys of all earlier calls. *)
Lemma first_at_least_index x eff : forall prev off,
  StronglySorted time_le eff ->
  match prev with Some p => p < x | None => True end ->
  first_at_least x (index_from prev off eff)
  = match List.filter (from x) eff with
    | [] => None
    | (t, _) :: _ => Some (t_and_o.mk t (off + log_bytes (List.filter (before x) eff)))
    end.
Proof.
  induction eff as [|[t k] eff IH]; intros prev off Hs Hprev; [reflexivity|].
  inversion Hs as [|? ? Hs' Hle]; subst.
  cbn [index_from List.filter]. unfold from at 1, before at 1. cbn [fst].
  destruct (Z.leb_spec x (time t)) as [Hx|Hx].
  - replace (time t <? x) with false by (symmetry; apply Z.ltb_ge; lia).
    replace (match prev with Some p => p =? time t | None => false end) with false
      by (destruct prev; [symmetry; apply Z.eqb_neq; lia | reflexivity]).
    cbn [app first_at_least find t_and_o.timestamp].
    replace (x <=? time t) with true by (symmetry; apply Z.leb_le; lia).
    rewrite filter_before_none by (eapply sorted_tail_above; eauto).
    cbn [log_bytes]. now rewrite Z.add_0_r.
  - replace (time t <? x) with true by (symmetry; apply Z.ltb_lt; lia).
    assert (Hskip : forall E, first_at_least x
              ((if match prev with Some p => p =? time t | None => false end
                then [] else [t_and_o.mk t off]) ++ E) = first_at_least x E).
    { intros E. destruct (match prev with Some p => p =? time t | None => false end);
        [reflexivity|].
      cbn [app first_at_least find t_and_o.timestamp].
      now replace (x <=? time t) with false by (symmetry; apply Z.leb_gt; lia). }
    rewrite Hskip, IH by (cbn; auto).
    destruct (List.filter (from x) eff) as [|[t' k'] r]; [reflexivity|].
    cbn [log_bytes]. do 2 f_equal. lia.
Qed.

(** ** Queues that represent a list of calls *)

Lemma log_bytes_filter_le (p : entry -> bool) l :
  Forall valid_entry l -> 0 <= log_bytes (List.filter p l) <= log_bytes l.
Proof.
  induction 1 as [|[t k] l [_ [Hk _]] Hl IH]; cbn [List.filter log_bytes]; [lia|].
  cbn [snd] in Hk. destruct (p (t, k)); cbn [log_bytes]; lia.
Qed.

Lemma log_bytes_zero l : Forall valid_entry l -> log_bytes l = 0 -> l = [].
Proof.
  intros Hv H0. destruct l as [|en l]; [reflexivity|].
  pose proof (log_bytes_pos _ Hv ltac:(discriminate)). lia.
Qed.

Section Represents.
Variables (dbg : bool) (primal : Z) (q : queue) (eff : list entry).
Hypothesis rep : represents primal q eff.

Lemma rep_encodable : Forall encodable (index_from None primal eff).
Proof.
  destruct rep as [_ _ _ _ _ Hv _ (H0 & Hhi & _)].
  apply index_from_encodable; [assumption | lia | assumption].
Qed.

Lemma rep_index_fits : 12 * Z.of_nat (length (index_from None primal eff)) < 2 ^ 63.
Proof.
  destruct rep as [_ _ _ _ _ _ _ (_ & _ & Hn)].
  pose proof (index_from_length eff None primal). lia.
Qed.

Lemma rep_index_entries : index_entries q = (index_from None primal eff).
Proof. apply index_entries_bytes; [apply rep | apply rep_encodable]. Qed.

Lemma rep_log_entries : log_entries q = map snd eff.
Proof.
  unfold log_entries. rewrite (rep_keys_data _ _ _ rep).
  apply parse_key_log; [|lia].
  destruct rep as [_ _ _ _ _ Hv _ _]. clear -Hv.
  induction Hv as [|en l [_ Hk] _ IH]; cbn [map]; constructor; assumption.
Qed.


(** The scan on a queue that represents [eff]. *)
Lemma rep_scan b e v :
  scan dbg (Z.to_nat (large_buf_ref.size (timestamps_and_offsets_largebuf (queue_root q))))
       primal b e 0
       (large_buf_ref.size (timestamps_and_offsets_largebuf (queue_root q))) v q
  = scan_outcome q (scan_entries dbg primal b e (index_from None primal eff) v).
Proof.
  rewrite (rep_t_o_size _ _ _ rep).
  apply scan_whole;
    [apply rep | apply rep | apply rep_encodable | apply rep_index_fits].
Qed.

(** A range in order becomes the byte range behind the calls before it,
    as long as the calls in it. *)
Lemma range_lookup_ordered b e :
  time b <= time e ->
  range_lookup dbg primal b e q
  = Returned (match List.filter (from (time b)) eff with
              | [] => None
              | _ :: _ =>
                  Some (log_bytes (List.filter (before (time b)) eff),
                        log_bytes (List.filter (before (time b)) eff)
                        + log_bytes (List.filter (in_window b e) eff))
              end) q [].
Proof.
  intros Hbe. pose proof rep as [_ _ _ Hks _ Hv Hs (H0 & Hhi & _)].
  unfold range_lookup.
  rewrite bind_ref_size. cbn [ref_of].
  rewrite (bind_outcome _ _ _ _ (rep_scan _ _ _)).
  rewrite scan_entries_ordered by auto. cbn [scan_outcome]. rewrite prepend_nil.
  rewrite !first_at_least_index by (cbn; auto).
  pose proof (window_split eff b e Hs Hbe) as Hsplit.
  pose proof (log_bytes_filter_le (before (time b)) eff Hv) as HA.
  destruct (List.filter (from (time b)) eff) as [|[tb kb] Fb]; [reflexivity|].
  assert (Hbegin : to_int64 (primal + log_bytes (List.filter (before (time b)) eff)
                             - primal)
                   = log_bytes (List.filter (before (time b)) eff))
    by (rewrite to_int64_small; lia).
  pose proof (filter_before_from eff (time e) Hs) as Hall.
  destruct (List.filter (from (time e)) eff) as [|[te ke] Fe].
  - cbn [begin_found end_found negb begin_offset t_and_o.offset].
    rewrite bind_ref_size. cbn [ref_of]. unfold ret.
    rewrite Hbegin, Hks. do 3 f_equal.
    rewrite app_nil_r in Hall. rewrite Hall at 1.
    rewrite Hsplit. apply log_bytes_app.
  - cbn [begin_found end_found negb begin_offset end_offset t_and_o.offset].
    unfold ret. rewrite Hbegin. do 3 f_equal.
    pose proof (log_bytes_filter_le (before (time e)) eff Hv).
    rewrite to_int64_small by lia.
    rewrite Hsplit, log_bytes_app. lia.
Qed.
End Represents.

Section Dump.
Variables (dbg : bool) (primal : Z) (q : queue) (eff : list entry).
Hypothesis rep : represents primal q eff.

(** Reading the byte range of a window hands out the keys of its calls. *)
Lemma range_read_window b e :
  time b <= time e ->
  range_read dbg (log_bytes (List.filter (before (time b)) eff))
             (log_bytes (List.filter (before (time b)) eff)
              + log_bytes (List.filter (in_window b e) eff)) q
  = Returned tt q (map deletion_key (map snd (List.filter (in_window b e) eff))).
Proof.
  intros Hbe. pose proof rep as [_ _ _ Hks Hkd Hv Hs (H0 & Hhi & _)].
  set (A := List.filter (before (time b)) eff).
  set (W := List.filter (in_window b e) eff).
  set (C := List.filter (from (time e)) eff).
  assert (Heff : eff = (A ++ W) ++ C).
  { unfold A, W, C. rewrite <- window_split by assumption.
    apply filter_before_from, Hs. }
  assert (HvA : Forall valid_entry A) by (apply filter_valid, Hv).
  assert (HvW : Forall valid_entry W) by (apply filter_valid, Hv).
  assert (HvC : Forall valid_entry C) by (apply filter_valid, Hv).
  pose proof (log_bytes_nonneg _ HvA). pose proof (log_bytes_nonneg _ HvW).
  pose proof (log_bytes_nonneg _ HvC).
  assert (Hsum : log_bytes eff = log_bytes A + log_bytes W + log_bytes C)
    by (rewrite Heff at 1; rewrite !log_bytes_app; reflexivity).
  unfold range_read.
  replace (log_bytes A + log_bytes W - log_bytes A) with (log_bytes W) by lia.
  rewrite to_int64_small by lia.
  rewrite (bind_pure _ _ _ _ _ (read_at_ok keys_largebuf_ (log_bytes A) (log_bytes W) q
             ltac:(cbn [ref_of]; rewrite Hks; apply in_range_intro; lia))).
  cbn [data_of]. rewrite Hkd. rewrite Heff at 1 2.
  rewrite !map_app, !key_log_app, <- app_assoc.
  pose proof (key_log_length A HvA) as HlA. pose proof (key_log_length W HvW) as HlW.
  rewrite drop_app_length' by (rewrite <- HlA; apply Nat2Z.id).
  rewrite take_app_length' by (rewrite <- HlW; apply Nat2Z.id).
  apply walk_key_log; [|apply le_n].
  clear -HvW. induction HvW as [|en l [_ Hk] _ IH]; cbn [map]; constructor; assumption.
Qed.

Lemma rep_guard_empty : eff = [] ->
  large_buf_ref.size (timestamps_and_offsets_largebuf (queue_root q)) = 0
  /\ large_buf_ref.size (keys_largebuf (queue_root q)) = 0.
Proof.
  intros ->. destruct rep as [_ Hts _ Hks _ _ _ _]. split; assumption.
Qed.

Lemma rep_guard_nonempty : eff <> [] ->
  0 < large_buf_ref.size (timestamps_and_offsets_largebuf (queue_root q)) < 2 ^ 63
  /\ large_buf_ref.size (timestamps_and_offsets_largebuf (queue_root q)) mod 12 = 0
  /\ 0 < large_buf_ref.size (keys_largebuf (queue_root q)) < 2 ^ 63.
Proof.
  intros Hne. pose proof rep as [_ Hts _ Hks _ Hv _ (H0 & Hhi & Hn)].
  pose proof (index_from_length eff None primal).
  pose proof (proj1 (index_from_nil_iff eff primal)).
  pose proof (log_bytes_pos eff Hv Hne).
  rewrite Hts, Hks. repeat split; try lia.
  - destruct (index_from None primal eff); [tauto | cbn [length]; lia].
  - rewrite Z.mul_comm. apply Z_mod_mult.
Qed.

Lemma rep_multiple_check : eff <> [] ->
  (to_size_t (large_buf_ref.size (timestamps_and_offsets_largebuf (queue_root q)))
     mod t_and_o.sizeof =? 0) = true.
Proof.
  intros Hne. destruct (rep_guard_nonempty Hne) as (Hr & Hm & _).
  rewrite to_size_t_small by lia. apply Z.eqb_eq. exact Hm.
Qed.

(** A range in order: the keys of the calls in the window, then the end
    of the stream. *)
Lemma dump_ordered b e :
  time b <= time e ->
  dump_keys_from_delete_queue dbg b e q
  = Returned tt q (map deletion_key (map snd (List.filter (in_window b e) eff))
                   ++ [done_deletion_keys]).
Proof.
  intros Hbe. pose proof rep as [Hp _ _ _ _ Hv _ _].
  unfold dump_keys_from_delete_queue.
  rewrite bind_gets, !bind_ref_size. cbn [ref_of]. rewrite Hp.
  assert (Hcase : eff = [] \/ eff <> [])
    by (clear; destruct eff; [left | right]; congruence).
  destruct Hcase as [Hnil|Hne].
  - destruct (rep_guard_empty Hnil) as [-> ->]. rewrite Hnil. reflexivity.
  - destruct (rep_guard_nonempty Hne) as (Ht & _ & Hk).
    replace (negb (_ =? 0) && negb (_ =? 0)) with true
      by (symmetry; apply andb_true_intro; split; apply negb_true_iff, Z.eqb_neq; lia).
    rewrite (rep_multiple_check Hne).
    match goal with
    | |- bind ?m _ _ = _ =>
        assert (Hinner : m q = Returned tt q
                  (map deletion_key (map snd (List.filter (in_window b e) eff))))
    end.
    { rewrite bind_rassert_true.
      rewrite (bind_pure _ _ _ _ _ (range_lookup_ordered dbg primal q eff rep b e Hbe)).
      pose proof (log_bytes_filter_le (in_window b e) eff Hv) as HW.
      destruct (List.filter (from (time b)) eff) as [|x Fb] eqn:HFb.
      + rewrite (window_in_from _ _ _ HFb). reflexivity.
      + replace (_ <=? _) with true by (symmetry; apply Z.leb_le; lia).
        rewrite bind_rassert_true.
        destruct (Z.ltb_spec (log_bytes (List.filter (before (time b)) eff))
                    (log_bytes (List.filter (before (time b)) eff)
                     + log_bytes (List.filter (in_window b e) eff))) as [Hlt|Hge].
        * apply range_read_window, Hbe.
        * rewrite (log_bytes_zero (List.filter (in_window b e) eff))
            by (try apply filter_valid; auto; lia).
          reflexivity. }
    rewrite (bind_step _ _ _ _ _ _ Hinner). reflexivity.
Qed.

(** A range given the wrong way round hands out nothing: the call ends the
    stream, unless a debug build stops at [rassert(begin_found)]. *)
Lemma dump_inverted b e :
  time e < time b ->
  dump_keys_from_delete_queue dbg b e q
  = match first_at_least (time e) (index_from None primal eff) with
    | Some y =>
        if (time b <=? time (t_and_o.timestamp y)) || negb dbg
        then Returned tt q [done_deletion_keys]
        else Crashed (rassert_failed begin_found_at_end) []
    | None => Returned tt q [done_deletion_keys]
    end.
Proof.
  intros Hbe. pose proof rep as [Hp _ _ _ _ Hv _ _].
  unfold dump_keys_from_delete_queue.
  rewrite bind_gets, !bind_ref_size. cbn [ref_of]. rewrite Hp.
  assert (Hcase : eff = [] \/ eff <> [])
    by (clear; destruct eff; [left | right]; congruence).
  destruct Hcase as [Hnil|Hne].
  - destruct (rep_guard_empty Hnil) as [-> ->]. rewrite Hnil. reflexivity.
  - destruct (rep_guard_nonempty Hne) as (Ht & _ & Hk).
    replace (negb (_ =? 0) && negb (_ =? 0)) with true
      by (symmetry; apply andb_true_intro; split; apply negb_true_iff, Z.eqb_neq; lia).
    rewrite (rep_multiple_check Hne).
    assert (Hrl : range_lookup dbg primal b e q
              = match first_at_least (time e) (index_from None primal eff) with
                | Some y =>
                    let o := to_int64 (t_and_o.offset y - primal) in
                    if time b <=? time (t_and_o.timestamp y)
                    then Returned (Some (o, o)) q []
                    else if dbg then Crashed (rassert_failed begin_found_at_end) []
                         else Returned None q []
                | None => Returned None q []
                end).
    { unfold range_lookup. rewrite bind_ref_size. cbn [ref_of].
      rewrite (bind_outcome _ _ _ _ (rep_scan dbg primal q eff rep _ _ _)).
      rewrite scan_entries_inverted by auto.
      destruct (first_at_least (time e) (index_from None primal eff)) as [y|];
        [|reflexivity].
      cbn zeta. destruct (time b <=? time (t_and_o.timestamp y)); [reflexivity|].
      destruct dbg; reflexivity. }
    rewrite (bind_outcome _ (fun _ => emit done_deletion_keys) q _
               (bind_rassert_true dbg _ _ q)).
    rewrite (bind_outcome _ _ q _ Hrl).
    destruct (first_at_least (time e) (index_from None primal eff)) as [y|];
      [|reflexivity].
    cbn zeta. destruct (time b <=? time (t_and_o.timestamp y)).
    + cbn [prepend app orb]. rewrite Z.leb_refl, bind_rassert_true, Z.ltb_irrefl.
      reflexivity.
    + destruct dbg; reflexivity.
Qed.
End Dump.

(** ** Growing a large buffer and filling the new bytes *)

Lemma ref_of_set_data w w' d q : ref_of w (set_data w' d q) = ref_of w q.
Proof. destruct w, w'; reflexivity. Qed.

Lemma ref_of_set_ref w r q : ref_of w (set_ref w r q) = r.
Proof. destruct w; reflexivity. Qed.

Lemma data_of_set_data w d q : data_of w (set_data w d q) = d.
Proof. destruct w; reflexivity. Qed.

Lemma set_data_set_data w d d' q : set_data w d (set_data w d' q) = set_data w d q.
Proof. destruct w; reflexivity. Qed.

Lemma allocate_fill w src n q :
  Z.of_nat (length src) = n ->
  (allocate w n;; fill_at w 0 src n) q
  = Returned tt (set_data w src (set_ref w (set_size n (ref_of w q)) q)) [].
Proof.
  intros Hn. unfold allocate. rewrite bind_modify.
  rewrite fill_at_ok.
  2:{ rewrite ref_of_set_data, ref_of_set_ref. cbn [set_size large_buf_ref.size].
      apply in_range_intro; lia. }
  rewrite data_of_set_data, set_data_set_data. do 2 f_equal.
  change (Z.to_nat 0) with 0%nat. rewrite take_0, Z.add_0_l. cbn [app].
  rewrite drop_ge by (rewrite repeat_length; lia).
  rewrite take_ge by lia. apply app_nil_r.
Qed.

Lemma append_fill w src n q :
  large_buf_ref.size (ref_of w q) = Z.of_nat (length (data_of w q)) ->
  Z.of_nat (length src) = n ->
  large_buf_ref.size (ref_of w q) + n < 2 ^ 63 ->
  (append w n;; size' <- ref_size w;; fill_at w (to_int64 (size' - n)) src n) q
  = Returned tt (set_data w (data_of w q ++ src)
                   (set_ref w (set_size (large_buf_ref.size (ref_of w q) + n) (ref_of w q)) q))
             [].
Proof.
  intros Hsize Hn Hfit. unfold append. rewrite bind_modify, bind_ref_size.
  rewrite ref_of_set_data, ref_of_set_ref. cbn [set_size large_buf_ref.size].
  rewrite (to_int64_small (_ + n)) by lia.
  replace (large_buf_ref.size (ref_of w q) + n - n)
    with (large_buf_ref.size (ref_of w q)) by lia.
  rewrite to_int64_small by lia.
  rewrite fill_at_ok.
  2:{ rewrite ref_of_set_data, ref_of_set_ref. cbn [set_size large_buf_ref.size].
      apply in_range_intro; lia. }
  rewrite data_of_set_data, set_data_set_data. do 2 f_equal.
  rewrite Hsize, Nat2Z.id.
  rewrite take_app_length, drop_ge by (rewrite length_app, repeat_length; lia).
  rewrite take_ge by lia. now rewrite app_nil_r.
Qed.

(** ** One call of add_key_to_delete_queue *)

Lemma last_time_stamp eff : forall prev,
  last_time (option_map time prev) eff = option_map time (last_stamp prev eff).
Proof.
  induction eff as [|[t k] eff IH]; intros prev; cbn [last_time last_stamp]; [reflexivity|].
  apply (IH (Some t)).
Qed.

Lemma last_stamp_snoc eff : forall prev t k, last_stamp prev (eff ++ [(t, k)]) = Some t.
Proof. induction eff as [|[t' k'] eff IH]; intros; cbn [last_stamp app]; auto. Qed.

Lemma last_stamp_valid eff l :
  Forall valid_entry eff -> last_stamp None eff = Some l -> valid_timestamp l.
Proof.
  induction eff as [|[t k] eff IH] using rev_ind; [discriminate|].
  rewrite last_stamp_snoc, Forall_app. intros [_ Hv] [= <-].
  inversion Hv as [|? ? [Ht _] _]; subst. exact Ht.
Qed.

(** In sorted calls nothing is later than the last one. *)
Lemma sorted_below_last eff l :
  StronglySorted time_le eff -> last_time None eff = Some l ->
  Forall (fun en : entry => time (fst en) <= l) eff.
Proof.
  induction eff as [|[t k] eff IH] using rev_ind; [constructor|].
  rewrite last_time_snoc. intros Hs [= <-].
  apply Forall_app. split; [|constructor; [cbn; lia | constructor]].
  clear IH. induction eff as [|en eff IH]; [constructor|].
  cbn [app] in Hs. inversion Hs as [|? ? Hs' Hle]; subst.
  constructor; [|apply IH, Hs'].
  rewrite Forall_app in Hle. destruct Hle as [_ Hle].
  inversion Hle as [|? ? Ht _]; subst. exact Ht.
Qed.

Lemma sorted_snoc eff (en : entry) :
  StronglySorted time_le eff ->
  Forall (fun en' : entry => time (fst en') <= time (fst en)) eff ->
  StronglySorted time_le (eff ++ [en]).
Proof.
  induction 1 as [|en' eff Hs IH Hle]; intros Hall; cbn [app].
  - constructor; constructor.
  - inversion Hall as [|? ? H1 H2]; subst. constructor; [apply IH, H2|].
    apply Forall_app. split; [exact Hle | constructor; [exact H1 | constructor]].
Qed.

(** Block 2 of the call: the key goes behind the bytes of the log. *)
Lemma update_keys_ok key q :
  store_key_t.well_formed key ->
  large_buf_ref.size (ref_of keys_largebuf_ q)
  = Z.of_nat (length (data_of keys_largebuf_ q)) ->
  large_buf_ref.size (ref_of keys_largebuf_ q) + (1 + store_key_t.size key) < 2 ^ 63 ->
  (keys_size <- ref_size keys_largebuf_;;
   if keys_size =? 0 then
     allocate keys_largebuf_ (1 + store_key_t.size key);;
     fill_at keys_largebuf_ 0 (store_key_t.memory key) (1 + store_key_t.size key)
   else
     append keys_largebuf_ (1 + store_key_t.size key);;
     keys_size' <- ref_size keys_largebuf_;;
     fill_at keys_largebuf_ (to_int64 (keys_size' - (1 + store_key_t.size key)))
             (store_key_t.memory key) (1 + store_key_t.size key)) q
  = Returned tt
      (set_data keys_largebuf_ (data_of keys_largebuf_ q ++ store_key_t.memory key)
         (set_ref keys_largebuf_
            (set_size (large_buf_ref.size (ref_of keys_largebuf_ q)
                       + (1 + store_key_t.size key))
                      (ref_of keys_largebuf_ q)) q)) [].
Proof.
  intros Hk Hsize Hfit. pose proof (key_memory_length key Hk) as Hlen.
  rewrite bind_ref_size.
  destruct (Z.eqb_spec (large_buf_ref.size (ref_of keys_largebuf_ q)) 0) as [H0|H0].
  - rewrite allocate_fill by exact Hlen. rewrite H0, Z.add_0_l.
    rewrite H0 in Hsize. destruct (data_of keys_largebuf_ q); [reflexivity|].
    cbn [length] in Hsize. lia.
  - apply append_fill; assumption.
Qed.

(** Block 1 of the call: the index gets the record of the call, or stays. *)
Lemma update_index_ok primal q eff timestamp :
  represents primal q eff ->
  valid_timestamp timestamp ->
  12 * (Z.of_nat (length eff) + 1) < 2 ^ 63 ->
  exists q1,
    (if large_buf_ref.size (ref_of t_o_largebuf q) =? 0 then
       keys_size <- ref_size keys_largebuf_;;
       let tao := t_and_o.mk timestamp
                    (to_int64 (primal_offset (queue_root q) + keys_size)) in
       allocate t_o_largebuf t_and_o.sizeof;;
       fill_at t_o_largebuf 0 (t_and_o.memory tao) t_and_o.sizeof
     else
       bytes <- read_at t_o_largebuf
                  (to_int64 (large_buf_ref.size (ref_of t_o_largebuf q) - t_and_o.sizeof))
                  t_and_o.sizeof;;
       let last_tao := t_and_o.of_memory bytes in
       timestamp <-
         (if time (t_and_o.timestamp last_tao) >? time timestamp then
            emit (logWRN (time (t_and_o.timestamp last_tao)) (time timestamp));;
            ret (t_and_o.timestamp last_tao)
          else ret timestamp);;
       if negb (time (t_and_o.timestamp last_tao) =? time timestamp) then
         keys_size <- ref_size keys_largebuf_;;
         let tao := t_and_o.mk timestamp
                      (to_int64 (primal_offset (queue_root q) + keys_size)) in
         append t_o_largebuf t_and_o.sizeof;;
         t_o_size' <- ref_size t_o_largebuf;;
         fill_at t_o_largebuf (to_int64 (t_o_size' - t_and_o.sizeof))
                 (t_and_o.memory tao) t_and_o.sizeof
       else ret tt) q
    = Returned tt q1 (warning (last_stamp None eff) timestamp)
    /\ magic (queue_root q1) = magic (queue_root q)
    /\ primal_offset (queue_root q1) = primal
    /\ keys_largebuf (queue_root q1) = keys_largebuf (queue_root q)
    /\ keys_data q1 = keys_data q
    /\ large_buf_ref.size (timestamps_and_offsets_largebuf (queue_root q1))
       = 12 * Z.of_nat (length (index_from None primal eff
                                ++ new_record primal eff
                                     (clamp (last_stamp None eff) timestamp)))
    /\ t_o_data q1
       = index_bytes (index_from None primal eff
                      ++ new_record primal eff (clamp (last_stamp None eff) timestamp))
    /\ (new_record primal eff (clamp (last_stamp None eff) timestamp) = [] -> q1 = q).
Proof.
  intros rep Ht Hn. pose proof rep as [Hp Hts Htd Hks Hkd Hv Hs (H0 & Hhi & _)].
  match goal with |- exists q1, ?run = _ /\ _ => remember run as o eqn:Ho end.
  assert (Hcase : eff = [] \/ eff <> [])
    by (clear; destruct eff; [left | right]; congruence).
  destruct Hcase as [Hnil|Hne].
  - subst eff. cbn [index_from length log_bytes] in *. cbn [ref_of] in Ho.
    rewrite Hts, Hp in Ho.
    change (12 * Z.of_nat 0) with 0 in *. change (0 =? 0) with true in Ho. cbv iota in Ho.
    rewrite bind_ref_size in Ho. cbn [ref_of] in Ho. rewrite Hks in Ho. cbn zeta in Ho.
    rewrite to_int64_small in Ho by lia.
    rewrite allocate_fill in Ho by (now rewrite t_and_o_length).
    subst o. eexists. split; [reflexivity|].
    cbn [set_data set_ref queue_root magic primal_offset keys_largebuf keys_data
         timestamps_and_offsets_largebuf t_o_data set_size large_buf_ref.size].
    unfold new_record, index_bytes. cbn [last_time last_stamp clamp app flat_map length].
    rewrite app_nil_r. repeat split; auto. discriminate.
  - destruct (index_from_last eff primal Hne) as (E' & x & HE & Hlast).
    pose proof (log_bytes_nonneg _ Hv) as Hnonneg.
    destruct (rep_guard_nonempty primal q eff rep Hne) as (Hsz & _ & _).
    assert (Hx : encodable x).
    { pose proof (rep_encodable primal q eff rep) as Henc. rewrite HE in Henc.
      apply Forall_app in Henc. destruct Henc as [_ Henc].
      inversion Henc; assumption. }
    pose proof (last_time_stamp eff None) as Hstamp. cbn [option_map] in Hstamp.
    rewrite Hlast in Hstamp.
    destruct (last_stamp None eff) as [l|] eqn:Hl; [|discriminate].
    cbn [option_map] in Hstamp. injection Hstamp as Hxl.
    cbn [ref_of] in Ho.
    replace (_ =? 0) with false in Ho by (symmetry; apply Z.eqb_neq; lia).
    replace (to_int64 (large_buf_ref.size (timestamps_and_offsets_largebuf (queue_root q))
                       - t_and_o.sizeof))
      with (12 * Z.of_nat (length E')) in Ho.
    2:{ rewrite to_int64_small; rewrite Hts, HE, length_app in *; cbn [length] in *;
          unfold t_and_o.sizeof; lia. }
    rewrite (bind_pure _ _ _ _ _
               (scan_read q (index_from None primal eff) Hts Htd E' x [] HE)) in Ho.
    cbn zeta in Ho. rewrite (t_and_o_roundtrip x Hx) in Ho.
    unfold warning, clamp. rewrite <- Hxl.
    assert (Hgrow : large_buf_ref.size (ref_of t_o_largebuf q) + t_and_o.sizeof < 2 ^ 63).
    { cbn [ref_of]. rewrite Hts. pose proof (index_from_length eff None primal).
      unfold t_and_o.sizeof. lia. }
    rewrite Z.gtb_ltb in *.
    destruct (Z.ltb_spec (time timestamp) (time (t_and_o.timestamp x))) as [Hlt|Hge].
    + (* clamped *)
      rewrite (bind_step _ _ _ (t_and_o.timestamp x) q
                 [logWRN (time (t_and_o.timestamp x)) (time timestamp)]) in Ho
        by reflexivity.
      rewrite Z.eqb_refl in Ho. cbn [negb] in Ho. unfold ret in Ho.
      cbn [prepend app] in Ho.
      subst o. eexists. split; [reflexivity|].
      unfold new_record. rewrite Hlast, Hxl, Z.eqb_refl, app_nil_r. repeat split; auto.
    + rewrite bind_ret in Ho.
      unfold new_record. rewrite Hlast.
      destruct (Z.eqb_spec (time (t_and_o.timestamp x)) (time timestamp)) as [Heq|Hneq];
        cbn [negb] in Ho.
      * unfold ret in Ho. subst o. eexists. split; [reflexivity|].
        rewrite app_nil_r. repeat split; auto.
      * rewrite bind_ref_size in Ho. cbn [ref_of] in Ho. rewrite Hks, Hp in Ho.
        cbn zeta in Ho. rewrite to_int64_small in Ho by lia.
        rewrite append_fill in Ho;
          [| cbn [ref_of data_of]; rewrite Hts, Htd, index_bytes_length; lia
           | now rewrite t_and_o_length
           | exact Hgrow].
        subst o. eexists. split; [reflexivity|].
        cbn [set_data set_ref queue_root magic primal_offset keys_largebuf keys_data
             timestamps_and_offsets_largebuf t_o_data set_size large_buf_ref.size
             ref_of data_of].
        rewrite Htd, Hts, index_bytes_app, length_app. unfold index_bytes at 3.
        cbn [flat_map length]. rewrite app_nil_r.
        repeat split; auto; [unfold t_and_o.sizeof; lia | discriminate].
Qed.

Lemma clamp_valid eff t :
  Forall valid_entry eff -> valid_timestamp t ->
  valid_timestamp (clamp (last_stamp None eff) t).
Proof.
  intros Hv Ht. unfold clamp. destruct (last_stamp None eff) as [l|] eqn:Hl; [|exact Ht].
  destruct (time l >? time t); [|exact Ht]. eapply last_stamp_valid; eassumption.
Qed.

Lemma clamp_above_last eff t l :
  last_time None eff = Some l -> l <= time (clamp (last_stamp None eff) t).
Proof.
  intros Hl. pose proof (last_time_stamp eff None) as Hs. cbn [option_map] in Hs.
  rewrite Hl in Hs. unfold clamp.
  destruct (last_stamp None eff) as [s|]; [|discriminate].
  cbn [option_map] in Hs. injection Hs as ->.
  rewrite Z.gtb_ltb. destruct (Z.ltb_spec (time t) (time s)); lia.
Qed.

Lemma fits_snoc_stamp primal eff t t' k :
  fits primal (eff ++ [(t, k)]) -> fits primal (eff ++ [(t', k)]).
Proof.
  unfold fits. rewrite !log_bytes_app, !length_app. cbn [log_bytes length]. auto.
Qed.

(** One call keeps the queue in step with the calls so far, with the new
    call under its effective timestamp. *)
Lemma add_key_step dbg primal q eff t k :
  represents primal q eff -> valid_entry (t, k) -> fits primal (eff ++ [(t, k)]) ->
  exists q',
    add_key_to_delete_queue dbg t k q
    = Returned tt q' (warning (last_stamp None eff) t)
    /\ represents primal q' (eff ++ [(clamp (last_stamp None eff) t, k)])
    /\ magic (queue_root q') = magic (queue_root q)
    /\ t_o_data q'
       = t_o_data q
         ++ index_bytes (new_record primal eff (clamp (last_stamp None eff) t))
    /\ keys_data q' = keys_data q ++ store_key_t.memory k
    /\ (new_record primal eff (clamp (last_stamp None eff) t) = [] ->
        q' = set_data keys_largebuf_ (keys_data q ++ store_key_t.memory k)
               (set_ref keys_largebuf_
                  (set_size (large_buf_ref.size (keys_largebuf (queue_root q))
                             + (1 + store_key_t.size k))
                            (keys_largebuf (queue_root q))) q)).
Proof.
  intros rep [Ht Hk] Hfit. cbn [fst snd] in Ht, Hk.
  pose proof rep as [Hp Hts Htd Hks Hkd Hv Hs (H0 & Hhi & Hn)].
  pose proof Hfit as (_ & Hhi' & Hn').
  rewrite log_bytes_app, length_app in *. cbn [log_bytes length] in *.
  pose proof (index_from_length eff None primal) as Hlen.
  pose proof (log_bytes_nonneg _ Hv) as Hnonneg.
  pose proof (key_memory_length k Hk) as Hklen.
  assert (Hcheck : (to_size_t (large_buf_ref.size (ref_of t_o_largebuf q))
                    mod t_and_o.sizeof =? 0) = true).
  { cbn [ref_of]. rewrite Hts, to_size_t_small by lia.
    apply Z.eqb_eq. rewrite Z.mul_comm. apply Z_mod_mult. }
  destruct (update_index_ok primal q eff t rep Ht ltac:(lia))
    as (q1 & Hrun1 & Hm1 & Hp1 & Hkr1 & Hkd1 & Hts1 & Htd1 & Hsame).
  match goal with |- exists q', ?run = _ /\ _ => remember run as o eqn:Ho end.
  unfold add_key_to_delete_queue in Ho.
  rewrite bind_gets, bind_ref_size, Hcheck, bind_rassert_true in Ho.
  rewrite (bind_step _ _ _ _ _ _ Hrun1) in Ho.
  rewrite update_keys_ok in Ho;
    [| exact Hk
     | cbn [ref_of data_of]; rewrite Hkr1, Hkd1, Hks, Hkd; symmetry; apply key_log_length, Hv
     | cbn [ref_of]; rewrite Hkr1, Hks; lia].
  cbn [prepend] in Ho. rewrite app_nil_r in Ho. subst o.
  eexists. split; [reflexivity|].
  cbn [set_data set_ref queue_root magic primal_offset keys_largebuf keys_data
       timestamps_and_offsets_largebuf t_o_data set_size large_buf_ref.size
       ref_of data_of].
  split; [constructor | split; [exact Hm1 | split; [|split]]];
    cbn [queue_root magic primal_offset keys_largebuf keys_data
         timestamps_and_offsets_largebuf t_o_data large_buf_ref.size].
  - exact Hp1.
  - rewrite Hts1, index_from_snoc. reflexivity.
  - rewrite Htd1, index_from_snoc. reflexivity.
  - rewrite Hkr1, Hks, log_bytes_app. cbn [log_bytes set_size large_buf_ref.size]. lia.
  - rewrite Hkd1, Hkd, map_app, key_log_app. cbn [map snd key_log flat_map].
    now rewrite app_nil_r.
  - apply Forall_app. split; [exact Hv|]. constructor; [|constructor].
    split; cbn [fst snd]; [apply clamp_valid; assumption | exact Hk].
  - apply sorted_snoc; [exact Hs|]. cbn [fst].
    destruct (last_time None eff) as [l|] eqn:Hl.
    + pose proof (clamp_above_last eff t l Hl).
      eapply Forall_impl; [apply (sorted_below_last eff l Hs Hl)|].
      cbn beta. intros; lia.
    + assert (Hnil : eff = []).
      { destruct eff as [|en eff0]; [reflexivity|].
        destruct (last_time_cons_some (en :: eff0) None ltac:(discriminate)) as [x Hx].
        rewrite Hx in Hl. discriminate. }
      rewrite Hnil. constructor.
  - eapply fits_snoc_stamp, Hfit.
  - rewrite Htd1, Htd, index_bytes_app. reflexivity.
  - rewrite Hkd1. reflexivity.
  - intros Hnew. rewrite (Hsame Hnew). reflexivity.
Qed.

(** ** Sequences of calls *)

Lemma fits_prefix primal eff ops1 ops2 :
  Forall valid_entry ops2 -> fits primal (eff ++ ops1 ++ ops2) -> fits primal (eff ++ ops1).
Proof.
  unfold fits. intros Hv. rewrite !log_bytes_app, !length_app.
  pose proof (log_bytes_nonneg _ Hv). intros (? & ? & ?). repeat split; lia.
Qed.

Lemma fits_same_keys primal eff1 eff2 :
  log_bytes eff1 = log_bytes eff2 -> length eff1 = length eff2 ->
  fits primal eff1 -> fits primal eff2.
Proof. unfold fits. intros -> ->. auto. Qed.

Lemma enqueue_all_represents dbg primal ops : forall q eff,
  represents primal q eff -> Forall valid_entry ops -> fits primal (eff ++ ops) ->
  exists q',
    enqueue_all dbg ops q = Returned tt q' (warnings_from (last_stamp None eff) ops)
    /\ represents primal q' (eff ++ effective_from (last_stamp None eff) ops)
    /\ magic (queue_root q') = magic (queue_root q).
Proof.
  induction ops as [|[t k] ops IH]; intros q eff rep Hv Hfit.
  - exists q. cbn [enqueue_all warnings_from effective_from]. rewrite app_nil_r.
    split; [reflexivity | split; [exact rep | reflexivity]].
  - inversion Hv as [|? ? Hv1 Hv']; subst.
    destruct (add_key_step dbg primal q eff t k rep Hv1
                (fits_prefix primal eff [(t, k)] ops Hv' Hfit))
      as (q1 & Hrun1 & rep1 & Hm1 & _).
    set (t' := clamp (last_stamp None eff) t) in *.
    destruct (IH q1 (eff ++ [(t', k)]) rep1 Hv') as (q' & Hrun & rep' & Hm).
    { rewrite <- app_assoc. cbn [app].
      eapply fits_same_keys; [| |exact Hfit];
        rewrite ?log_bytes_app, ?length_app; reflexivity. }
    rewrite last_stamp_snoc in Hrun, rep'. rewrite <- app_assoc in rep'.
    exists q'. cbn [enqueue_all warnings_from effective_from].
    rewrite (bind_step _ _ _ _ _ _ Hrun1), Hrun. cbn [prepend].
    split; [reflexivity | split; [exact rep' | congruence]].
Qed.

(** ** Initialization *)

Lemma clear_block_ids_ok null fuel : forall i e r,
  0 <= i -> e < 2 ^ 31 -> (Z.to_nat (e - i) <= fuel)%nat ->
  exists ids,
    clear_block_ids null fuel i e r
    = Returned tt (large_buf_ref.mk (large_buf_ref.size r) (large_buf_ref.offset r) ids) []
    /\ length ids = length (large_buf_ref.block_ids r)
    /\ forall j : nat,
         ids !! j
         = if (i <=? Z.of_nat j) && (Z.of_nat j <? e)
           then (fun _ => null) <$> (large_buf_ref.block_ids r !! j)
           else large_buf_ref.block_ids r !! j.
Proof.
  induction fuel as [|fuel IH]; intros i e r Hi He Hfuel;
    cbn [clear_block_ids]; destruct (Z.ltb_spec i e) as [Hlt|Hge]; try lia.
  - exists (large_buf_ref.block_ids r). destruct r; repeat split; auto.
    intros j. destruct (Z.leb_spec i (Z.of_nat j)), (Z.ltb_spec (Z.of_nat j) e);
      cbn [andb]; try reflexivity; lia.
  - rewrite bind_modify, to_int_small by lia.
    destruct (IH (i + 1) e (set_block_id i null r) ltac:(lia) He ltac:(lia))
      as (ids & Hrun & Hlen & Hids).
    exists ids. rewrite Hrun. cbn [set_block_id large_buf_ref.size large_buf_ref.offset
                              large_buf_ref.block_ids] in *.
    rewrite length_insert in Hlen. repeat split; auto.
    intros j. rewrite Hids.
    destruct (decide (j = Z.to_nat i)) as [->|Hj].
    + rewrite Z2Nat.id by lia.
      replace (i + 1 <=? i) with false by (symmetry; apply Z.leb_gt; lia).
      replace (i <=? i) with true by (symmetry; apply Z.leb_le; lia).
      replace (i <? e) with true by (symmetry; apply Z.ltb_lt; lia).
      cbn [andb].
      destruct (decide (Z.to_nat i < length (large_buf_ref.block_ids r))%nat) as [Hin|Hout].
      * rewrite list_lookup_insert_eq by exact Hin.
        destruct (lookup_lt_is_Some_2 _ _ Hin) as [y ->]. reflexivity.
      * rewrite list_insert_ge by lia. rewrite (lookup_ge_None_2 _ (Z.to_nat i)) by lia.
        reflexivity.
    + rewrite list_lookup_insert_ne by auto.
      destruct (Z.leb_spec (i + 1) (Z.of_nat j)), (Z.leb_spec i (Z.of_nat j));
        cbn [andb]; try reflexivity; lia.
  - exists (large_buf_ref.block_ids r). destruct r; repeat split; auto.
    intros j. destruct (Z.leb_spec i (Z.of_nat j)), (Z.ltb_spec (Z.of_nat j) e);
      cbn [andb]; try reflexivity; lia.
Qed.

Lemma initialize_large_buf_ref_ok dbg offsetof sizeof_id null size_in_bytes r :
  let ids_bytes := to_int (size_in_bytes - offsetof) in
  let e := to_int (to_size_t ids_bytes / sizeof_id) in
  initialize_large_buf_ref dbg offsetof sizeof_id null size_in_bytes r
  = Crashed (rassert_failed ids_bytes_positive) []
    /\ dbg = true /\ ids_bytes <= 0
  \/ exists ids,
       initialize_large_buf_ref dbg offsetof sizeof_id null size_in_bytes r
       = Returned tt (large_buf_ref.mk 0 0 ids) []
       /\ length ids = length (large_buf_ref.block_ids r)
       /\ (dbg = false \/ 0 < ids_bytes)
       /\ forall j : nat,
            (Z.of_nat j < e)%Z -> (j < length ids)%nat -> ids !! j = Some null.
Proof.
  intros ids_bytes e.
  destruct (clear_block_ids_ok null (Z.to_nat e) 0 e
              (large_buf_ref.mk 0 0 (large_buf_ref.block_ids r))
              ltac:(lia) (proj2 (to_int_range _)) ltac:(lia))
    as (ids & Hrun & Hlen & Hids).
  cbn [large_buf_ref.size large_buf_ref.offset large_buf_ref.block_ids] in *.
  assert (Hcleared : forall j : nat,
            (Z.of_nat j < e)%Z -> (j < length ids)%nat -> ids !! j = Some null).
  { intros j Hj Hjl. rewrite Hids.
    replace (0 <=? Z.of_nat j) with true by (symmetry; apply Z.leb_le; lia).
    replace (Z.of_nat j <? e) with true by (symmetry; apply Z.ltb_lt; lia).
    cbn [andb]. rewrite Hlen in Hjl.
    destruct (lookup_lt_is_Some_2 _ _ Hjl) as [y ->]. reflexivity. }
  assert (Hbody : forall k : unit -> M large_buf_ref.t unit,
            k = (fun _ =>
                   modify (fun r => large_buf_ref.mk (large_buf_ref.size r) 0
                                      (large_buf_ref.block_ids r));;
                   modify (set_size 0);;
                   clear_block_ids null (Z.to_nat e) 0 e) ->
            k tt r = Returned tt (large_buf_ref.mk 0 0 ids) []).
  { intros k ->. rewrite !bind_modify.
    cbn [set_size large_buf_ref.size large_buf_ref.offset large_buf_ref.block_ids].
    exact Hrun. }
  unfold initialize_large_buf_ref. fold ids_bytes. fold e. unfold rassert.
  destruct dbg; cbn [andb].
  - destruct (Z.ltb_spec 0 ids_bytes) as [Hpos|Hneg]; cbn [negb].
    + right. exists ids. rewrite bind_ret, (Hbody _ eq_refl). auto.
    + left. auto.
  - right. exists ids. rewrite bind_ret, (Hbody _ eq_refl). auto.
Qed.

(** What [initialize_empty_delete_queue] leaves behind, whenever it returns. *)
Lemma initialize_outcome dbg sizeof_ref offsetof sizeof_id null block_size raw :
  let run := initialize_empty_delete_queue dbg sizeof_ref offsetof sizeof_id null
               block_size raw in
  let e1 := to_int (to_size_t (to_int (TIMESTAMPS_AND_OFFSETS_SIZE sizeof_ref sizeof_id
                                       - offsetof)) / sizeof_id) in
  let e2 := to_int (to_size_t (to_int (keys_largebuf_ref_size sizeof_ref sizeof_id block_size
                                       - offsetof)) / sizeof_id) in
  (exists f, run = Crashed f [] /\ dbg = true
             /\ (to_int (TIMESTAMPS_AND_OFFSETS_SIZE sizeof_ref sizeof_id - offsetof) <= 0
                 \/ to_int (keys_largebuf_ref_size sizeof_ref sizeof_id block_size
                            - offsetof) <= 0))
  \/ exists ids1 ids2,
       run = Returned tt (mk_block expected_magic 0 (large_buf_ref.mk 0 0 ids1)
                                   (large_buf_ref.mk 0 0 ids2)) []
       /\ length ids1 = length (large_buf_ref.block_ids (timestamps_and_offsets_largebuf raw))
       /\ length ids2 = length (large_buf_ref.block_ids (keys_largebuf raw))
       /\ (forall j : nat, Z.of_nat j < e1 -> (j < length ids1)%nat -> ids1 !! j = Some null)
       /\ (forall j : nat, Z.of_nat j < e2 -> (j < length ids2)%nat -> ids2 !! j = Some null).
Proof.
  intros run e1 e2. subst run. unfold initialize_empty_delete_queue.
  rewrite !bind_modify. unfold bind, zoom. cbv beta.
  cbn [magic primal_offset timestamps_and_offsets_largebuf keys_largebuf].
  destruct (initialize_large_buf_ref_ok dbg offsetof sizeof_id null
              (TIMESTAMPS_AND_OFFSETS_SIZE sizeof_ref sizeof_id)
              (timestamps_and_offsets_largebuf raw))
    as [(Hrun1 & Hd & Hneg) | (ids1 & Hrun1 & Hlen1 & _ & Hids1)]; rewrite Hrun1.
  { left. eexists. split; [reflexivity|]. auto. }
  cbn [magic primal_offset timestamps_and_offsets_largebuf keys_largebuf].
  destruct (initialize_large_buf_ref_ok dbg offsetof sizeof_id null
              (keys_largebuf_ref_size sizeof_ref sizeof_id block_size)
              (keys_largebuf raw))
    as [(Hrun2 & Hd & Hneg) | (ids2 & Hrun2 & Hlen2 & _ & Hids2)]; rewrite Hrun2.
  { left. eexists. split; [reflexivity|]. auto. }
  right. exists ids1, ids2. cbn [app]. auto 10.
Qed.

Lemma initialize_represents dbg sizeof_ref offsetof sizeof_id null block_size raw root tr :
  initialize_empty_delete_queue dbg sizeof_ref offsetof sizeof_id null block_size raw
  = Returned tt root tr ->
  represents 0 (empty_queue root) [] /\ magic root = expected_magic /\ tr = [].
Proof.
  intros Hrun.
  destruct (initialize_outcome dbg sizeof_ref offsetof sizeof_id null block_size raw)
    as [(f & Hc & _) | (ids1 & ids2 & Hr & _)]; rewrite Hrun in *; [discriminate|].
  injection Hr as -> ->. repeat split; try constructor; cbn; lia.
Qed.

(** ** Traces *)

Lemma delivered_keys ks tr :
  delivered (map deletion_key ks ++ tr) = ks ++ delivered tr.
Proof. induction ks as [|k ks IH]; cbn [map app delivered]; [reflexivity | now rewrite IH]. Qed.

Lemma completions_keys ks tr :
  completions (map deletion_key ks ++ tr) = completions tr.
Proof. induction ks as [|k ks IH]; cbn [map app completions]; [reflexivity | exact IH]. Qed.

Lemma effective_from_keys ops : forall last, map snd (effective_from last ops) = map snd ops.
Proof.
  induction ops as [|[t k] ops IH]; intros last; cbn [effective_from map snd];
    [reflexivity | now rewrite IH].
Qed.

(** ** Queues built by calls on an initialized root block *)

Section Built.
Variables (dbg : bool) (sizeof_ref offsetof sizeof_id null block_size : Z).
Variables (raw root : delete_queue_block_t).
Hypothesis initialized :
  initialize_empty_delete_queue dbg sizeof_ref offsetof sizeof_id null block_size raw
  = Returned tt root [].

Lemma built ops :
  Forall valid_entry ops -> fits 0 ops ->
  exists q,
    enqueue_all dbg ops (empty_queue root) = Returned tt q (warnings_from None ops)
    /\ represents 0 q (effective ops)
    /\ magic (queue_root q) = expected_magic.
Proof.
  intros Hv Hfit.
  destruct (initialize_represents _ _ _ _ _ _ _ _ _ initialized) as (rep0 & Hm & _).
  destruct (enqueue_all_represents dbg 0 ops (empty_queue root) [] rep0 Hv Hfit)
    as (q & Hrun & rep & Hmq).
  exists q. split; [exact Hrun | split; [exact rep | now rewrite Hmq]].
Qed.
End Built.

(** The delivered keys of a call on a queue that represents [eff], whatever
    the order of the two timestamps and the build. *)
Lemma dump_delivered dbg primal q eff b e :
  represents primal q eff ->
  delivered (trace (dump_keys_from_delete_queue dbg b e q))
  = map snd (List.filter (in_window b e) eff).
Proof.
  intros rep. destruct (Z.le_gt_cases (time b) (time e)) as [Hle|Hgt].
  - rewrite (dump_ordered dbg primal q eff rep b e Hle). cbn [trace].
    rewrite delivered_keys. cbn [delivered]. apply app_nil_r.
  - rewrite (dump_inverted dbg primal q eff rep b e Hgt), window_empty_inverted by lia.
    destruct (first_at_least (time e) (index_from None primal eff)) as [y|];
      [|reflexivity].
    destruct ((time b <=? time (t_and_o.timestamp y)) || negb dbg); reflexivity.
Qed.

(** A call that is not stopped by [rassert(begin_found)] returns, with the
    queue as it was. *)
Lemma dump_returns dbg primal q eff b e :
  represents primal q eff -> dbg = false \/ time b <= time e ->
  dump_keys_from_delete_queue dbg b e q
  = Returned tt q (map deletion_key (map snd (List.filter (in_window b e) eff))
                   ++ [done_deletion_keys]).
Proof.
  intros rep Hok. destruct (Z.le_gt_cases (time b) (time e)) as [Hle|Hgt].
  - apply (dump_ordered dbg primal q eff rep b e Hle).
  - destruct Hok as [->|Hle]; [|lia].
    rewrite (dump_inverted false primal q eff rep b e Hgt), window_empty_inverted by lia.
    destruct (first_at_least (time e) (index_from None primal eff)) as [y|];
      [|reflexivity].
    now rewrite orb_true_r.
Qed.

(** * The claims *)

Lemma scenario_calls_valid : Forall valid_entry scenario_calls.
Proof. repeat constructor; cbn; lia. Qed.

Lemma scenario_calls_fit : fits 0 scenario_calls.
Proof. unfold fits. cbn. lia. Qed.



(** C1. Range correctness: after any calls of [add_key_to_delete_queue] on an
    initialized queue, [dump_keys_from_delete_queue] hands to the receiver
    exactly the keys of the calls whose effective (clamped) timestamp [t] has
    [begin <= t < end], in the order of the calls; the effective timestamps
    never decrease along the calls, so this is timestamp order, with equal
    timestamps in enqueue order. In the scenario (100,a), (100,b), (105,c) the
    range [100,105) gives a, b; [105,9999) gives c; [0,100) gives nothing. *)
Theorem range_query_delivers_window
    dbg sizeof_ref offsetof sizeof_id null block_size raw root ops b e :
  initialize_empty_delete_queue dbg sizeof_ref offsetof sizeof_id null block_size raw
  = Returned tt root [] ->
  Forall valid_entry ops -> fits 0 ops ->
  (exists q,
     enqueue_all dbg ops (empty_queue root) = Returned tt q (warnings_from None ops)
     /\ delivered (trace (dump_keys_from_delete_queue dbg b e q))
        = map snd (List.filter (in_window b e) (effective ops))
     /\ map snd (effective ops) = map snd ops
     /\ StronglySorted time_le (effective ops)
     /\ (dbg = false \/ time b <= time e ->
         dump_keys_from_delete_queue dbg b e q
         = Returned tt q
             (map deletion_key (map snd (List.filter (in_window b e) (effective ops)))
              ++ [done_deletion_keys])))
  /\ (exists q,
        enqueue_all dbg scenario_calls (empty_queue root) = Returned tt q []
        /\ delivered (trace (dump_keys_from_delete_queue dbg
                               (mk_timestamp 100) (mk_timestamp 105) q))
           = [key_of ["a"%byte]; key_of ["b"%byte]]
        /\ delivered (trace (dump_keys_from_delete_queue dbg
                               (mk_timestamp 105) (mk_timestamp 9999) q))
           = [key_of ["c"%byte]]
        /\ delivered (trace (dump_keys_from_delete_queue dbg
                               (mk_timestamp 0) (mk_timestamp 100) q))
           = []).
Proof.
  intros Hinit Hv Hfit. split.
  - destruct (built _ _ _ _ _ _ _ _ Hinit ops Hv Hfit) as (q & Hrun & rep & _).
    exists q. split; [exact Hrun|].
    split; [apply (dump_delivered dbg 0 q _ b e rep)|].
    split; [apply effective_from_keys|].
    split; [apply rep|].
    intros Hok. apply (dump_returns dbg 0 q _ b e rep Hok).
  - destruct (built _ _ _ _ _ _ _ _ Hinit scenario_calls
                scenario_calls_valid scenario_calls_fit) as (q & Hrun & rep & _).
    exists q. split; [exact Hrun|].
    rewrite !(dump_delivered dbg 0 q _ _ _ rep). repeat split; reflexivity.
Qed.

(** C4. The Offset Index invariant: initialization leaves the index with
    size 0, and after any calls of [add_key_to_delete_queue] the index bytes
    are a sequence of packed 12-byte records, the size in the reference is
    their number of bytes, a multiple of 12, and the records are strictly
    increasing in timestamp and in offset; a range query that returns leaves
    the queue as it was. *)
Theorem offset_index_invariant
    dbg sizeof_ref offsetof sizeof_id null block_size raw root ops :
  initialize_empty_delete_queue dbg sizeof_ref offsetof sizeof_id null block_size raw
  = Returned tt root [] ->
  Forall valid_entry ops -> fits 0 ops ->
  large_buf_ref.size (timestamps_and_offsets_largebuf root) = 0
  /\ exists q,
       enqueue_all dbg ops (empty_queue root) = Returned tt q (warnings_from None ops)
       /\ t_o_data q = index_bytes (index_entries q)
       /\ large_buf_ref.size (timestamps_and_offsets_largebuf (queue_root q))
          = Z.of_nat (length (t_o_data q))
       /\ large_buf_ref.size (timestamps_and_offsets_largebuf (queue_root q))
          = t_and_o.sizeof * Z.of_nat (length (index_entries q))
       /\ large_buf_ref.size (timestamps_and_offsets_largebuf (queue_root q))
          mod t_and_o.sizeof = 0
       /\ StronglySorted entry_lt (index_entries q)
       /\ forall b e q' tr,
            dump_keys_from_delete_queue dbg b e q = Returned tt q' tr -> q' = q.
Proof.
  intros Hinit Hv Hfit.
  destruct (initialize_represents _ _ _ _ _ _ _ _ _ Hinit) as (rep0 & _ & _).
  split; [apply (rep_t_o_size _ _ _ rep0)|].
  destruct (built _ _ _ _ _ _ _ _ Hinit ops Hv Hfit) as (q & Hrun & rep & _).
  exists q. split; [exact Hrun|].
  pose proof rep as [_ Hts Htd _ _ Hv' Hs _].
  rewrite (rep_index_entries 0 q _ rep). unfold t_and_o.sizeof.
  split; [exact Htd|]. split; [rewrite Htd, index_bytes_length, Hts; lia|].
  split; [exact Hts|]. split; [rewrite Hts, Z.mul_comm; apply Z_mod_mult|].
  split; [apply index_from_sorted; assumption|].
  intros b e q' tr Hdump.
  destruct (Z.le_gt_cases (time b) (time e)) as [Hle|Hgt].
  - rewrite (dump_ordered dbg 0 q _ rep b e Hle) in Hdump. congruence.
  - rewrite (dump_inverted dbg 0 q _ rep b e Hgt) in Hdump.
    destruct (first_at_least (time e) (index_from None 0 (effective ops))) as [y|];
      [|congruence].
    destruct ((time b <=? time (t_and_o.timestamp y)) || negb dbg); congruence.
Qed.

Lemma dump_unallocated dbg b e q :
  large_buf_ref.size (timestamps_and_offsets_largebuf (queue_root q)) = 0
  \/ large_buf_ref.size (keys_largebuf (queue_root q)) = 0 ->
  dump_keys_from_delete_queue dbg b e q = Returned tt q [done_deletion_keys].
Proof.
  intros H. unfold dump_keys_from_delete_queue.
  rewrite bind_gets, !bind_ref_size. cbn [ref_of].
  replace (negb (_ =? 0) && negb (_ =? 0)) with false; [reflexivity|].
  destruct H as [-> | ->]; cbn [Z.eqb negb andb]; [reflexivity | now rewrite andb_false_r].
Qed.

Lemma window_none l b e :
  Forall (fun en : entry => time (fst en) < time b) l -> List.filter (in_window b e) l = [].
Proof.
  induction 1 as [|en l Hen _ IH]; [reflexivity|]. cbn [List.filter].
  replace (in_window b e en) with false; [exact IH|].
  unfold in_window. replace (_ <=? _) with false; [reflexivity|].
  symmetry. apply Z.leb_gt. exact Hen.
Qed.

(** C5. The completion signal is not given on every path. On the queue of
    the scenario (100,a), (100,b), (105,c), a debug build asked for the range
    from 200 to 100 comes to the record of 100 with no record having reached
    [begin_timestamp], fails [rassert(begin_found)] and stops: the receiver is
    told neither a key nor the end of the stream. With [rassert] compiled out
    the same call leaves the scan at that record, takes the [goto done] and
    ends the stream once. *)
Theorem inverted_range_stops_before_done :
  exists root q,
    initialize_empty_delete_queue true 16 16 4 4294967295 4096 (uninitialized_block 1010)
    = Returned tt root []
    /\ enqueue_all true scenario_calls (empty_queue root) = Returned tt q []
    /\ dump_keys_from_delete_queue true (mk_timestamp 200) (mk_timestamp 100) q
       = Crashed (rassert_failed begin_found_at_end) []
    /\ completions (trace (dump_keys_from_delete_queue true
                             (mk_timestamp 200) (mk_timestamp 100) q)) = 0%nat
    /\ dump_keys_from_delete_queue false (mk_timestamp 200) (mk_timestamp 100) q
       = Returned tt q [done_deletion_keys].
Proof.
  eexists. eexists.
  split; [vm_compute; reflexivity|].
  split; [vm_compute; reflexivity|].
  split; [vm_compute; reflexivity|].
  split; vm_compute; reflexivity.
Qed.

Lemma effective_nil_iff ops : effective ops = [] <-> ops = [].
Proof. destruct ops as [|[t k] ops]; cbn; split; congruence. Qed.

(** C9. The two large buffers are allocated in lockstep: after any calls on
    an initialized queue the index size is 0 exactly when the log size is 0
    (and exactly when there was no call), so the guard of the range query,
    which asks for both sizes to be nonzero, decides as one that asks for
    either. *)
Theorem buffers_allocated_in_lockstep
    dbg sizeof_ref offsetof sizeof_id null block_size raw root ops :
  initialize_empty_delete_queue dbg sizeof_ref offsetof sizeof_id null block_size raw
  = Returned tt root [] ->
  Forall valid_entry ops -> fits 0 ops ->
  exists q,
    enqueue_all dbg ops (empty_queue root) = Returned tt q (warnings_from None ops)
    /\ let t_o_size := large_buf_ref.size (timestamps_and_offsets_largebuf (queue_root q)) in
       let keys_size := large_buf_ref.size (keys_largebuf (queue_root q)) in
       (t_o_size = 0 <-> keys_size = 0)
       /\ (t_o_size = 0 <-> ops = [])
       /\ negb (t_o_size =? 0) && negb (keys_size =? 0)
          = negb (t_o_size =? 0) || negb (keys_size =? 0).
Proof.
  intros Hinit Hv Hfit.
  destruct (built _ _ _ _ _ _ _ _ Hinit ops Hv Hfit) as (q & Hrun & rep & _).
  exists q. split; [exact Hrun|]. cbv zeta.
  destruct ops as [|op ops'] eqn:Hops.
  - destruct (rep_guard_empty 0 q _ rep eq_refl) as [-> ->].
    repeat split; auto.
  - rewrite <- Hops in *.
    assert (Hne : effective ops <> [])
      by (rewrite effective_nil_iff, Hops; discriminate).
    destruct (rep_guard_nonempty 0 q _ rep Hne) as (Ht & _ & Hk).
    replace (_ =? 0) with false by (symmetry; apply Z.eqb_neq; lia).
    replace (_ =? 0) with false by (symmetry; apply Z.eqb_neq; lia).
    repeat split; intros; try lia; try congruence.
Qed.

(** ** Calls that share a timestamp *)

Lemma index_from_app l1 : forall l2 prev off,
  index_from prev off (l1 ++ l2)
  = index_from prev off l1 ++ index_from (last_time prev l1) (off + log_bytes l1) l2.
Proof.
  induction l1 as [|[t k] l1 IH]; intros l2 prev off; cbn [app index_from last_time log_bytes].
  - now rewrite Z.add_0_r.
  - rewrite IH, <- app_assoc.
    replace (off + (1 + store_key_t.size k) + log_bytes l1)
      with (off + (1 + store_key_t.size k + log_bytes l1)) by lia.
    reflexivity.
Qed.

Lemma clamp_idem last t : clamp (Some (clamp last t)) t = clamp last t.
Proof.
  unfold clamp at 1. rewrite Z.gtb_ltb.
  destruct (Z.ltb_spec (time t) (time (clamp last t))) as [Hlt|Hge]; [reflexivity|].
  apply timestamp_eq. unfold clamp in *. destruct last as [l|]; [|reflexivity].
  rewrite Z.gtb_ltb in *. destruct (Z.ltb_spec (time t) (time l)); [lia | reflexivity].
Qed.

Lemma effective_from_same t ks : forall last,
  effective_from last (map (pair t) ks) = map (pair (clamp last t)) ks.
Proof.
  induction ks as [|k ks IH]; intros last; cbn [map effective_from]; [reflexivity|].
  now rewrite IH, clamp_idem.
Qed.

Lemma index_from_same t ks : forall prev off,
  ks <> [] ->
  index_from prev off (map (pair t) ks)
  = if match prev with Some p => p =? time t | None => false end
    then [] else [t_and_o.mk t off].
Proof.
  destruct ks as [|k ks]; [congruence|]. intros prev off _. cbn [map index_from].
  replace (index_from (Some (time t)) (off + (1 + store_key_t.size k)) (map (pair t) ks))
    with (@nil t_and_o.t); [now rewrite app_nil_r|].
  generalize (off + (1 + store_key_t.size k)). induction ks as [|k' ks IH]; intros off';
    cbn [map index_from]; [reflexivity|].
  now rewrite Z.eqb_refl, <- IH.
Qed.

Lemma same_timestamp_valid t ks :
  Forall store_key_t.well_formed ks ->
  Forall valid_entry (map (pair t) ks) <-> valid_timestamp t \/ ks = [].
Proof.
  intros Hk. split.
  - destruct ks as [|k ks]; [auto|]. cbn [map]. intros H.
    inversion H as [|? ? [Ht _] _]; subst. left. exact Ht.
  - intros [Ht | ->]; [|constructor].
    induction Hk as [|k ks Hk _ IH]; cbn [map]; constructor; [split; assumption | exact IH].
Qed.

Lemma last_index_time eff primal x :
  last (index_from None primal eff) = Some x ->
  last_time None eff = Some (time (t_and_o.timestamp x)).
Proof.
  intros Hlast. destruct eff as [|en eff]; [discriminate|].
  destruct (index_from_last (en :: eff) primal ltac:(discriminate)) as (E & y & HE & Hl).
  rewrite HE, last_snoc in Hlast. injection Hlast as ->. exact Hl.
Qed.

Lemma last_index_none eff primal :
  last (index_from None primal eff) = None -> eff = [].
Proof.
  intros Hlast. destruct eff as [|en eff]; [reflexivity|].
  destruct (index_from_last (en :: eff) primal ltac:(discriminate)) as (E & y & HE & _).
  rewrite HE, last_snoc in Hlast. discriminate.
Qed.

(** The record that a call with timestamp [t] adds, read off the index. *)
Lemma new_record_by_last eff primal t :
  new_record primal eff (clamp (last_stamp None eff) t)
  = match last (index_from None primal eff) with
    | Some x =>
        if time t <=? time (t_and_o.timestamp x) then []
        else [t_and_o.mk t (primal + log_bytes eff)]
    | None => [t_and_o.mk t (primal + log_bytes eff)]
    end.
Proof.
  unfold new_record.
  destruct (last (index_from None primal eff)) as [x|] eqn:Hlast.
  - pose proof (last_index_time _ _ _ Hlast) as Hl. rewrite Hl.
    pose proof (last_time_stamp eff None) as Hs. cbn [option_map] in Hs. rewrite Hl in Hs.
    destruct (last_stamp None eff) as [l|]; [|discriminate].
    cbn [option_map] in Hs. injection Hs as Hxl. unfold clamp. rewrite Z.gtb_ltb, <- Hxl.
    destruct (Z.ltb_spec (time t) (time (t_and_o.timestamp x))) as [Hlt|Hge].
    + rewrite Hxl, Z.eqb_refl.
      now replace (_ <=? _) with true by (symmetry; apply Z.leb_le; lia).
    + destruct (Z.eqb_spec (time (t_and_o.timestamp x)) (time t)) as [Heq|Hneq].
      * now replace (_ <=? _) with true by (symmetry; apply Z.leb_le; lia).
      * now replace (_ <=? _) with false by (symmetry; apply Z.leb_gt; lia).
  - rewrite (last_index_none _ _ Hlast). reflexivity.
Qed.

Lemma warning_clamp last t : warning (Some (clamp last t)) t = warning last t.
Proof.
  unfold warning, clamp. destruct last as [l|].
  - rewrite !Z.gtb_ltb. destruct (Z.ltb_spec (time t) (time l)) as [Hlt|Hge].
    + now replace (time t <? time l) with true by (symmetry; apply Z.ltb_lt; lia).
    + now rewrite Z.ltb_irrefl.
  - now rewrite Z.gtb_ltb, Z.ltb_irrefl.
Qed.

Lemma warnings_from_same t ks : forall last,
  warnings_from last (map (pair t) ks) = flat_map (fun _ => warning last t) ks.
Proof.
  induction ks as [|k ks IH]; intros last; cbn [map warnings_from flat_map]; [reflexivity|].
  rewrite IH. f_equal. clear. induction ks as [|k ks IH]; cbn [flat_map]; [reflexivity|].
  now rewrite IH, warning_clamp.
Qed.

Lemma effective_from_bytes ops : forall last,
  log_bytes (effective_from last ops) = log_bytes ops
  /\ length (effective_from last ops) = length ops.
Proof.
  induction ops as [|[t k] ops IH]; intros last; cbn [effective_from log_bytes length];
    [auto|].
  destruct (IH (Some (clamp last t))) as [-> ->]. auto.
Qed.

Lemma fits_effective primal ops rest :
  fits primal (ops ++ rest) -> fits primal (effective ops ++ rest).
Proof.
  apply fits_same_keys; rewrite ?log_bytes_app, ?length_app;
    destruct (effective_from_bytes ops None) as [Hb Hl]; unfold effective;
    [now rewrite Hb | now rewrite Hl].
Qed.

Lemma map_snd_pair (t : repli_timestamp) (ks : list store_key_t.t) :
  map snd (map (pair t) ks : list entry) = ks.
Proof. induction ks as [|k ks IH]; cbn [map snd]; [reflexivity | now rewrite IH]. Qed.

(** C2. Coalescing: [N] consecutive calls with the same timestamp [t] put
    their [N] keys behind the Key Log and add at most one index record.
    On a queue whose index ends with a record for [T_last = t] no record is
    added and only the Key Log grows; on a fresh queue the [N] calls leave
    exactly one index record, [(t, 0)]. In general a record is added exactly
    when the index is empty or ends before [t]. *)
Theorem same_timestamp_coalesces
    dbg sizeof_ref offsetof sizeof_id null block_size raw root ops t ks :
  initialize_empty_delete_queue dbg sizeof_ref offsetof sizeof_id null block_size raw
  = Returned tt root [] ->
  Forall valid_entry ops -> valid_timestamp t -> Forall store_key_t.well_formed ks ->
  fits 0 (ops ++ map (pair t) ks) ->
  exists q q' tr,
    enqueue_all dbg ops (empty_queue root) = Returned tt q (warnings_from None ops)
    /\ enqueue_all dbg (map (pair t) ks) q = Returned tt q' tr
    /\ log_entries q' = log_entries q ++ ks
    /\ (ks <> [] ->
        index_entries q'
        = index_entries q
          ++ match last (index_entries q) with
             | Some x =>
                 if time t <=? time (t_and_o.timestamp x) then []
                 else [t_and_o.mk t (large_buf_ref.size (keys_largebuf (queue_root q)))]
             | None => [t_and_o.mk t 0]
             end)
    /\ (ops = [] -> ks <> [] -> index_entries q' = [t_and_o.mk t 0] /\ log_entries q' = ks)
    /\ (forall x, last (index_entries q) = Some x -> time (t_and_o.timestamp x) = time t ->
        tr = []
        /\ index_entries q' = index_entries q
        /\ t_o_data q' = t_o_data q
        /\ large_buf_ref.size (timestamps_and_offsets_largebuf (queue_root q'))
           = large_buf_ref.size (timestamps_and_offsets_largebuf (queue_root q))
        /\ keys_data q' = keys_data q ++ key_log ks).
Proof.
  intros Hinit Hv Ht Hks Hfit.
  assert (Hvs : Forall valid_entry (map (pair t) ks)) by (apply same_timestamp_valid; auto).
  destruct (built _ _ _ _ _ _ _ _ Hinit ops Hv
              (fits_prefix 0 [] ops (map (pair t) ks) Hvs Hfit)) as (q & Hrun & rep & _).
  destruct (enqueue_all_represents dbg 0 (map (pair t) ks) q (effective ops) rep Hvs
              (fits_effective 0 ops _ Hfit)) as (q' & Hrun' & rep' & _).
  rewrite effective_from_same in rep'.
  set (eff := effective ops) in *. set (t' := clamp (last_stamp None eff) t) in *.
  assert (Hindex : ks <> [] ->
            index_from None 0 (eff ++ map (pair t') ks)
            = index_from None 0 eff
              ++ match last (index_from None 0 eff) with
                 | Some x =>
                     if time t <=? time (t_and_o.timestamp x) then []
                     else [t_and_o.mk t (0 + log_bytes eff)]
                 | None => [t_and_o.mk t (0 + log_bytes eff)]
                 end).
  { intros Hne. rewrite index_from_app, index_from_same by exact Hne.
    rewrite <- new_record_by_last. reflexivity. }
  exists q, q', (warnings_from (last_stamp None eff) (map (pair t) ks)).
  rewrite (rep_index_entries 0 q _ rep), (rep_index_entries 0 q' _ rep').
  rewrite (rep_log_entries 0 q _ rep), (rep_log_entries 0 q' _ rep').
  rewrite map_app, map_snd_pair.
  split; [exact Hrun|]. split; [exact Hrun'|]. split; [reflexivity|].
  split; [|split].
  - intros Hne. rewrite (Hindex Hne), (rep_keys_size _ _ _ rep).
    destruct (last (index_from None 0 eff)) as [x|] eqn:Hlast; [reflexivity|].
    now rewrite (last_index_none _ _ Hlast).
  - intros -> Hne. rewrite (Hindex Hne). split; reflexivity.
  - intros x Hlast Hx.
    assert (Hnew : index_from None 0 (eff ++ map (pair t') ks) = index_from None 0 eff).
    { destruct ks as [|k ks']; [cbn [map]; now rewrite app_nil_r|].
      rewrite Hindex by discriminate. rewrite Hlast.
      replace (_ <=? _) with true by (symmetry; apply Z.leb_le; lia).
      apply app_nil_r. }
    split; [|rewrite Hnew; repeat split].
    + rewrite warnings_from_same.
      pose proof (last_index_time _ _ _ Hlast) as Hl.
      pose proof (last_time_stamp eff None) as Hs. cbn [option_map] in Hs.
      rewrite Hl in Hs. destruct (last_stamp None eff) as [l|]; [|discriminate].
      cbn [option_map] in Hs. injection Hs as Hxl. unfold warning.
      replace (time l >? time t) with false
        by (symmetry; rewrite Z.gtb_ltb; apply Z.ltb_ge; lia).
      clear. induction ks; [reflexivity | assumption].
    + rewrite (rep_t_o_data _ _ _ rep'), (rep_t_o_data _ _ _ rep), Hnew. reflexivity.
    + rewrite (rep_t_o_size _ _ _ rep'), (rep_t_o_size _ _ _ rep), Hnew. reflexivity.
    + rewrite (rep_keys_data _ _ _ rep'), (rep_keys_data _ _ _ rep).
      now rewrite map_app, map_snd_pair, key_log_app.
Qed.


(** ** Failures that cannot happen *)

Lemma never_fails_returned {St A} f (a : A) (s : St) tr : never_fails f (Returned a s tr).
Proof. intros tr'. discriminate. Qed.

Lemma never_fails_other {St A} f f' tr :
  f' <> f -> never_fails f (@Crashed St A f' tr).
Proof. intros Hne tr' [= ? ?]. contradiction. Qed.

Lemma never_fails_bind {St A B} f (m : M St A) (k : A -> M St B) s :
  never_fails f (m s) -> (forall a s1, never_fails f (k a s1)) ->
  never_fails f (bind m k s).
Proof.
  intros Hm Hk tr. unfold bind. destruct (m s) as [a s1 tr1|f1 tr1] eqn:Hms.
  - destruct (k a s1) as [b s2 tr2|f2 tr2] eqn:Hks; [discriminate|].
    intros [= -> _]. exact (Hk a s1 tr2 Hks).
  - intros [= -> ->]. exact (Hm tr eq_refl).
Qed.

Lemma never_fails_rassert {St} f dbg a c (s : St) :
  rassert_failed a <> f -> never_fails f (rassert dbg a c s).
Proof.
  intros Hne. unfold rassert. destruct (dbg && negb c).
  - now apply never_fails_other.
  - apply never_fails_returned.
Qed.

Lemma never_fails_read_at f w pos n q :
  large_buf_range <> f -> never_fails f (read_at w pos n q).
Proof.
  intros Hne. unfold read_at. apply never_fails_bind; [apply never_fails_returned|].
  intros size s1. destruct (in_range pos n size).
  - apply never_fails_returned.
  - now apply never_fails_other.
Qed.

Lemma never_fails_walk dbg f fuel : forall slice q,
  rassert_failed key_within_slice <> f -> fuel_exhausted <> f ->
  never_fails f (walk dbg fuel slice q).
Proof.
  induction fuel as [|fuel IH]; intros slice q H1 H2; destruct slice as [|b rest];
    cbn [walk]; try apply never_fails_returned.
  - now apply never_fails_other.
  - apply never_fails_bind; [now apply never_fails_rassert|]. intros _ s1.
    apply never_fails_bind; [apply never_fails_returned|].
    intros _ s2. now apply IH.
Qed.

(** With [begin <= end] a record that reaches [end_timestamp] also reaches
    [begin_timestamp]: [rassert(begin_found)] holds on any index bytes. *)
Lemma never_fails_scan dbg primal b e fuel : forall i ie v q,
  b <= e ->
  never_fails (rassert_failed begin_found_at_end) (scan dbg fuel primal b e i ie v q).
Proof.
  induction fuel as [|fuel IH]; intros i ie v q Hbe; cbn [scan];
    destruct (i <? ie); try apply never_fails_returned.
  - apply never_fails_other. discriminate.
  - apply never_fails_bind; [apply never_fails_read_at; discriminate|].
    intros bytes s1. cbv zeta.
    destruct (Z.leb_spec e (time (t_and_o.timestamp (t_and_o.of_memory bytes)))) as [He|He].
    + replace (b <=? _) with true by (symmetry; apply Z.leb_le; lia).
      rewrite andb_true_r.
      apply never_fails_bind; [|intros; apply never_fails_returned].
      destruct (begin_found v) eqn:Hv; cbn [negb begin_found].
      * rewrite Hv. rewrite rassert_true. apply never_fails_returned.
      * rewrite rassert_true. apply never_fails_returned.
    + now apply IH.
Qed.

Lemma never_fails_dump_ordered dbg b e q :
  time b <= time e ->
  never_fails (rassert_failed begin_found_at_end) (dump_keys_from_delete_queue dbg b e q).
Proof.
  intros Hbe. unfold dump_keys_from_delete_queue.
  rewrite bind_gets, !bind_ref_size.
  apply never_fails_bind; [|intros; apply never_fails_returned].
  destruct (negb _ && negb _); [|apply never_fails_returned].
  apply never_fails_bind; [apply never_fails_rassert; discriminate|]. intros _ s1.
  apply never_fails_bind.
  - unfold range_lookup. rewrite bind_ref_size.
    apply never_fails_bind; [now apply never_fails_scan|]. intros v s2.
    destruct (negb (begin_found v)); [apply never_fails_returned|].
    destruct (negb (end_found v)); [|apply never_fails_returned].
    rewrite bind_ref_size. apply never_fails_returned.
  - intros [[bo eo]|] s2; [|apply never_fails_returned].
    apply never_fails_bind; [apply never_fails_rassert; discriminate|]. intros _ s3.
    destruct (bo <? eo); [|apply never_fails_returned].
    unfold range_read.
    apply never_fails_bind; [apply never_fails_read_at; discriminate|]. intros buf s4.
    apply never_fails_walk; discriminate.
Qed.

(** C6. [rassert(begin_found)] does fire: nothing checks the two timestamps
    of the caller against each other, and on the queue of the scenario
    (100,a), (100,b), (105,c) a debug build asked for the range from 105 to
    100 meets the record of 100, which reaches [end_timestamp] while no record
    has reached [begin_timestamp], and stops at the assertion. *)
Theorem begin_found_fires_for_inverted_range :
  exists root q,
    initialize_empty_delete_queue true 16 16 4 4294967295 4096 (uninitialized_block 1010)
    = Returned tt root []
    /\ enqueue_all true scenario_calls (empty_queue root) = Returned tt q []
    /\ range_lookup true (primal_offset (queue_root q))
         (mk_timestamp 105) (mk_timestamp 100) q
       = Crashed (rassert_failed begin_found_at_end) []
    /\ dump_keys_from_delete_queue true (mk_timestamp 105) (mk_timestamp 100) q
       = Crashed (rassert_failed begin_found_at_end) []
    /\ ~ never_fails (rassert_failed begin_found_at_end)
           (dump_keys_from_delete_queue true (mk_timestamp 105) (mk_timestamp 100) q).
Proof.
  eexists. eexists.
  split; [vm_compute; reflexivity|].
  split; [vm_compute; reflexivity|].
  split; [vm_compute; reflexivity|].
  assert (Hcrash : forall o : outcome queue unit,
            o = Crashed (rassert_failed begin_found_at_end) [] ->
            o = Crashed (rassert_failed begin_found_at_end) []
            /\ ~ never_fails (rassert_failed begin_found_at_end) o).
  { intros o ->. split; [reflexivity|]. intros H. exact (H [] eq_refl). }
  apply Hcrash. vm_compute. reflexivity.
Qed.

(** ** A range that runs to the end of the log *)



(** C8. [initialize_empty_delete_queue] writes the magic 'DelQ', sets
    [primal_offset] to 0 and leaves both references unallocated: offset 0,
    size 0 and every block id the reference has room for set to
    [NULL_BLOCK_ID]. The block is one of [block_size] bytes in which both
    references have room for at least one block id, as [rassert(ids_bytes > 0)]
    asks. *)
Theorem initialize_empty_delete_queue_unallocated
    dbg sizeof_ref offsetof sizeof_id null block_size raw :
  0 < sizeof_id -> 0 <= offsetof ->
  offsetof < sizeof_ref + 3 * sizeof_id < 2 ^ 31 ->
  offsetof + (12 + (sizeof_ref + 3 * sizeof_id)) < block_size < 2 ^ 31 ->
  Z.of_nat (length (large_buf_ref.block_ids (timestamps_and_offsets_largebuf raw)))
  = (sizeof_ref + 3 * sizeof_id - offsetof) / sizeof_id ->
  Z.of_nat (length (large_buf_ref.block_ids (keys_largebuf raw)))
  = (block_size - (12 + (sizeof_ref + 3 * sizeof_id)) - offsetof) / sizeof_id ->
  exists root,
    initialize_empty_delete_queue dbg sizeof_ref offsetof sizeof_id null block_size raw
    = Returned tt root []
    /\ magic root = ["D"; "e"; "l"; "Q"]%byte
    /\ primal_offset root = 0
    /\ unallocated null (timestamps_and_offsets_largebuf root)
    /\ unallocated null (keys_largebuf root)
    /\ length (large_buf_ref.block_ids (timestamps_and_offsets_largebuf root))
       = length (large_buf_ref.block_ids (timestamps_and_offsets_largebuf raw))
    /\ length (large_buf_ref.block_ids (keys_largebuf root))
       = length (large_buf_ref.block_ids (keys_largebuf raw)).
Proof.
  intros Hid Hoff Href Hblock Hn1 Hn2.
  assert (Hsize1 : TIMESTAMPS_AND_OFFSETS_SIZE sizeof_ref sizeof_id
                   = sizeof_ref + 3 * sizeof_id).
  { unfold TIMESTAMPS_AND_OFFSETS_SIZE. apply to_int_small. lia. }
  assert (Hsize2 : keys_largebuf_ref_size sizeof_ref sizeof_id block_size
                   = block_size - (12 + (sizeof_ref + 3 * sizeof_id))).
  { unfold keys_largebuf_ref_size. rewrite Hsize1.
    change TIMESTAMPS_AND_OFFSETS_OFFSET with 12. apply to_int_small. lia. }
  assert (Hcount : forall n, 0 < n < 2 ^ 31 ->
            to_int (n - offsetof) <= 0 \/ 0 < n - offsetof ->
            0 < n - offsetof ->
            to_int (to_size_t (to_int (n - offsetof)) / sizeof_id)
            = (n - offsetof) / sizeof_id).
  { intros n Hn _ Hpos. rewrite (to_int_small (n - offsetof)) by lia.
    rewrite to_size_t_small by lia.
    pose proof (Z.div_pos (n - offsetof) sizeof_id ltac:(lia) Hid).
    pose proof (Z.div_le_upper_bound (n - offsetof) sizeof_id (n - offsetof) Hid
                  ltac:(nia)).
    apply to_int_small. lia. }
  destruct (initialize_outcome dbg sizeof_ref offsetof sizeof_id null block_size raw)
    as [(f & _ & _ & Hneg) | (ids1 & ids2 & Hrun & Hl1 & Hl2 & Hids1 & Hids2)].
  { rewrite Hsize1, Hsize2 in Hneg. rewrite !to_int_small in Hneg by lia. lia. }
  rewrite Hsize1 in Hids1. rewrite Hsize2 in Hids2.
  rewrite Hcount in Hids1 by lia. rewrite Hcount in Hids2 by lia.
  eexists. split; [exact Hrun|].
  cbn [magic primal_offset timestamps_and_offsets_largebuf keys_largebuf
       large_buf_ref.block_ids].
  unfold unallocated. cbn [large_buf_ref.size large_buf_ref.offset large_buf_ref.block_ids].
  repeat split; auto.
  - apply Forall_lookup. intros j id Hj.
    pose proof (lookup_lt_Some _ _ _ Hj) as Hlt.
    rewrite Hids1 in Hj by lia. congruence.
  - apply Forall_lookup. intros j id Hj.
    pose proof (lookup_lt_Some _ _ _ Hj) as Hlt.
    rewrite Hids2 in Hj by lia. congruence.
Qed.

(** ** Boundaries of the Key Log *)

Lemma key_log_cons_length k ks :
  store_key_t.well_formed k ->
  Z.of_nat (length (key_log (k :: ks)))
  = 1 + store_key_t.size k + Z.of_nat (length (key_log ks)).
Proof.
  intros [_ Hk]. rewrite key_log_cons. cbn [length]. rewrite length_app. lia.
Qed.

(** Every boundary lies behind a whole number of keys. *)
Lemma boundary_is_prefix ks : forall fuel pos x,
  Forall store_key_t.well_formed ks ->
  (length (key_log ks) <= fuel)%nat ->
  In x (entry_boundaries fuel pos (key_log ks)) ->
  exists j, (j <= length ks)%nat /\ x = pos + Z.of_nat (length (key_log (take j ks))).
Proof.
  induction ks as [|k ks IH]; intros fuel pos x Hwf Hfuel Hin.
  - exists 0%nat. split; [cbn; lia|].
    destruct fuel; cbn in Hin; destruct Hin as [<-|[]]; cbn; lia.
  - inversion Hwf as [|? ? Hk Hks]; subst.
    pose proof (key_size_byte k Hk) as Hb. pose proof (key_log_cons_length k ks Hk) as Hl.
    destruct Hk as [Hsz Hlen].
    rewrite key_log_cons in Hin, Hfuel. cbn [length] in Hfuel. rewrite length_app in Hfuel.
    destruct fuel as [|fuel]; [lia|]. cbn [entry_boundaries] in Hin. rewrite Hb in Hin.
    replace (Z.to_nat (store_key_t.size k)) with (length (store_key_t.contents k)) in Hin
      by lia.
    rewrite drop_app_length in Hin. destruct Hin as [<-|Hin].
    + exists 0%nat. split; [cbn; lia|]. cbn. lia.
    + destruct (IH fuel _ x Hks ltac:(lia) Hin) as (j & Hj & ->).
      exists (S j). split; [cbn [length]; lia|]. cbn [take].
      rewrite (key_log_cons_length k (take j ks)) by (split; assumption). lia.
Qed.

Lemma key_log_take_le ks j1 j2 :
  (j1 <= j2)%nat -> (length (key_log (take j1 ks)) <= length (key_log (take j2 ks)))%nat.
Proof.
  intros Hj. replace (take j1 ks) with (take j1 (take j2 ks))
    by (rewrite take_take; f_equal; lia).
  rewrite <- (take_drop j1 (take j2 ks)) at 2. rewrite key_log_app, length_app. lia.
Qed.

(** The offsets held in the index lie behind a whole number of calls. *)
Lemma index_offset_is_prefix eff : forall prev off x,
  In x (index_from prev off eff) ->
  exists j, (j <= length eff)%nat /\ t_and_o.offset x = off + log_bytes (take j eff).
Proof.
  induction eff as [|[t k] eff IH]; intros prev off x Hin; [destruct Hin|].
  cbn [index_from] in Hin. apply in_app_or in Hin. destruct Hin as [Hin|Hin].
  - destruct (match prev with Some p => p =? time t | None => false end);
      [destruct Hin|]. destruct Hin as [<-|[]].
    exists 0%nat. split; [cbn; lia|]. cbn. lia.
  - destruct (IH _ _ x Hin) as (j & Hj & ->). exists (S j).
    split; [cbn [length]; lia|]. cbn [take log_bytes]. lia.
Qed.

Lemma valid_keys l : Forall valid_entry l -> Forall store_key_t.well_formed (map snd l).
Proof. induction 1 as [|en l [_ Hk] _ IH]; cbn [map]; constructor; assumption. Qed.

Section Slices.
Variables (dbg : bool) (primal : Z) (q : queue) (eff : list entry).
Hypothesis rep : represents primal q eff.

(** A slice between two boundaries holds whole keys: the walk hands them
    out and ends on the upper boundary. *)
Lemma range_read_between j1 j2 :
  (j1 <= j2)%nat ->
  range_read dbg (Z.of_nat (length (key_log (take j1 (map snd eff)))))
             (Z.of_nat (length (key_log (take j2 (map snd eff))))) q
  = Returned tt q (map deletion_key (drop j1 (take j2 (map snd eff))))
  /\ key_log (drop j1 (take j2 (map snd eff)))
     = take (length (key_log (take j2 (map snd eff)))
             - length (key_log (take j1 (map snd eff))))
            (drop (length (key_log (take j1 (map snd eff)))) (keys_data q)).
Proof.
  intros Hj. pose proof rep as [_ _ _ Hks Hkd Hv _ (H0 & Hhi & _)].
  pose proof (valid_keys _ Hv) as Hwf. pose proof (key_log_length eff Hv) as Hlen.
  set (ks := map snd eff) in *.
  set (A := take j1 ks). set (W := drop j1 (take j2 ks)). set (C := drop j2 ks).
  assert (HAW : take j2 ks = A ++ W).
  { unfold A, W. replace (take j1 ks) with (take j1 (take j2 ks))
      by (rewrite take_take; f_equal; lia).
    symmetry. apply take_drop. }
  assert (Hall : ks = (A ++ W) ++ C)
    by (rewrite <- HAW; symmetry; apply take_drop).
  assert (HlenAll : length (key_log ks)
                    = (length (key_log A) + length (key_log W) + length (key_log C))%nat)
    by (rewrite Hall at 1; rewrite !key_log_app, !length_app; lia).
  assert (HwfW : Forall store_key_t.well_formed W).
  { unfold W. apply Forall_drop, Forall_take, Hwf. }
  rewrite HAW, key_log_app, length_app.
  assert (Hslice : take (length (key_log W))
                     (drop (length (key_log A)) (keys_data q)) = key_log W).
  { rewrite Hkd. fold ks. rewrite Hall at 1. rewrite !key_log_app, <- app_assoc.
    rewrite drop_app_length. apply take_app_length. }
  split.
  2:{ replace (length (key_log A) + length (key_log W) - length (key_log A))%nat
        with (length (key_log W)) by lia.
      now rewrite Hslice. }
  unfold range_read.
  replace (Z.of_nat (length (key_log A) + length (key_log W))
           - Z.of_nat (length (key_log A)))
    with (Z.of_nat (length (key_log W))) by lia.
  rewrite to_int64_small by lia.
  rewrite (bind_pure _ _ _ _ _
             (read_at_ok keys_largebuf_ (Z.of_nat (length (key_log A)))
                         (Z.of_nat (length (key_log W))) q
                         ltac:(cbn [ref_of]; rewrite Hks; apply in_range_intro; lia))).
  cbn [data_of]. rewrite !Nat2Z.id, Hslice.
  apply walk_key_log; [exact HwfW | apply le_n].
Qed.

Lemma rep_boundary x :
  In x (log_boundaries q) <->
  exists j, (j <= length eff)%nat
            /\ x = Z.of_nat (length (key_log (take j (map snd eff)))).
Proof.
  pose proof rep as [_ _ _ _ Hkd Hv _ _]. pose proof (valid_keys _ Hv) as Hwf.
  unfold log_boundaries. rewrite Hkd. split.
  - intros Hin. destruct (boundary_is_prefix _ _ _ _ Hwf (le_n _) Hin) as (j & Hj & ->).
    exists j. rewrite length_map in Hj. split; [exact Hj | lia].
  - intros (j & Hj & ->).
    pose proof (boundary_after_prefix (take j (map snd eff)) (drop j (map snd eff))
                  (length (key_log (map snd eff))) 0
                  (Forall_take _ _ _ Hwf)) as Hb.
    rewrite take_drop, Z.add_0_l in Hb. apply Hb.
    rewrite <- (take_drop j (map snd eff)) at 2. rewrite key_log_app, length_app. lia.
Qed.

Lemma rep_index_boundaries :
  Forall (fun x => In (t_and_o.offset x - primal) (log_boundaries q)) (index_entries q).
Proof.
  pose proof rep as [_ _ _ _ _ Hv _ _].
  rewrite (rep_index_entries primal q eff rep). apply Forall_forall. intros x Hx.
  apply list_elem_of_In in Hx.
  destruct (index_offset_is_prefix _ _ _ _ Hx) as (j & Hj & ->).
  apply rep_boundary. exists j. split; [exact Hj|].
  rewrite firstn_map. symmetry.
  etransitivity; [exact (key_log_length (take j eff) (Forall_take _ _ _ Hv)) | lia].
Qed.
End Slices.

(** C10. Safety of the decode walk: on a queue built by calls on an
    initialized root block, every offset held in the index, less
    [primal_offset], is a boundary of the Key Log, and so is the end of the
    log; the slice between any two boundaries holds whole keys, which the
    walk hands out one by one without failing the length check; and no
    range query fails [rassert(k->size + 1 <= e - p)] or hands out a key
    that runs past its slice: in either build every key it hands out has
    all the contents its length byte counts. *)
Theorem decode_walk_is_safe
    dbg sizeof_ref offsetof sizeof_id null block_size raw root ops :
  initialize_empty_delete_queue dbg sizeof_ref offsetof sizeof_id null block_size raw
  = Returned tt root [] ->
  Forall valid_entry ops -> fits 0 ops ->
  exists q,
    enqueue_all dbg ops (empty_queue root) = Returned tt q (warnings_from None ops)
    /\ Forall (fun x => In (t_and_o.offset x - primal_offset (queue_root q))
                           (log_boundaries q))
              (index_entries q)
    /\ In (large_buf_ref.size (keys_largebuf (queue_root q))) (log_boundaries q)
    /\ (forall lo hi,
          In lo (log_boundaries q) -> In hi (log_boundaries q) -> lo <= hi ->
          exists ks,
            range_read dbg lo hi q = Returned tt q (map deletion_key ks)
            /\ key_log ks
               = take (Z.to_nat (hi - lo)) (drop (Z.to_nat lo) (keys_data q)))
    /\ (forall b e,
          never_fails (rassert_failed key_within_slice)
            (dump_keys_from_delete_queue dbg b e q)
          /\ Forall store_key_t.well_formed
                    (delivered (trace (dump_keys_from_delete_queue dbg b e q)))).
Proof.
  intros Hinit Hv Hfit.
  destruct (built _ _ _ _ _ _ _ _ Hinit ops Hv Hfit) as (q & Hrun & rep & _).
  exists q. split; [exact Hrun|].
  split; [rewrite (rep_primal _ _ _ rep); apply (rep_index_boundaries 0 q _ rep)|].
  split; [|split].
  - apply (rep_boundary 0 q _ rep). exists (length (effective ops)).
    split; [apply le_n|]. rewrite take_ge by (rewrite length_map; apply le_n).
    rewrite (rep_keys_size _ _ _ rep). symmetry. apply key_log_length, rep.
  - intros lo hi Hlo Hhi Hle.
    apply (rep_boundary 0 q _ rep) in Hlo, Hhi.
    destruct Hlo as (j1 & Hj1 & ->), Hhi as (j2 & Hj2 & ->).
    destruct (le_lt_dec j1 j2) as [Hj|Hj].
    + destruct (range_read_between dbg 0 q _ rep j1 j2 Hj) as [Hread Hslice].
      eexists. split; [exact Hread|]. rewrite Hslice.
      rewrite <- Nat2Z.inj_sub by (apply key_log_take_le; lia).
      now rewrite !Nat2Z.id.
    + pose proof (key_log_take_le (map snd (effective ops)) j2 j1 ltac:(lia)).
      replace (length (key_log (take j2 (map snd (effective ops)))))
        with (length (key_log (take j1 (map snd (effective ops))))) by lia.
      destruct (range_read_between dbg 0 q _ rep j1 j1 (le_n _)) as [Hread Hslice].
      eexists. split; [exact Hread|]. rewrite Hslice.
      rewrite <- Nat2Z.inj_sub by apply le_n.
      now rewrite !Nat2Z.id.
  - intros b e. split.
    + destruct (Z.le_gt_cases (time b) (time e)) as [Hbe|Hbe].
      * rewrite (dump_ordered dbg 0 q _ rep b e Hbe). apply never_fails_returned.
      * rewrite (dump_inverted dbg 0 q _ rep b e Hbe).
        destruct (first_at_least _ _) as [y|]; [|apply never_fails_returned].
        destruct (_ || _);
          [apply never_fails_returned | apply never_fails_other; discriminate].
    + rewrite (dump_delivered dbg 0 q _ b e rep).
      apply valid_keys, filter_valid, rep.
Qed.

(** ** The theorems at concrete inputs

    A debug build, a [large_buf_ref] of 16 bytes before its block ids, block
    ids of 4 bytes with [0xFFFFFFFF] for the null id, and a block of 4096
    bytes, which leaves room for 1010 block ids in the Key Log reference. *)

Lemma range_query_delivers_window_witness :
  initialize_empty_delete_queue true 16 16 4 4294967295 4096 (uninitialized_block 1010)
  = Returned tt (initialized_block 1010) []
  /\ exists q,
       enqueue_all true scenario_calls (empty_queue (initialized_block 1010))
       = Returned tt q []
       /\ dump_keys_from_delete_queue true (mk_timestamp 100) (mk_timestamp 105) q
          = Returned tt q [deletion_key (key_of ["a"%byte]);
                           deletion_key (key_of ["b"%byte]); done_deletion_keys].
Proof.
  split; [vm_compute; reflexivity|].
  destruct (range_query_delivers_window true 16 16 4 4294967295 4096
              (uninitialized_block 1010) (initialized_block 1010) scenario_calls
              (mk_timestamp 100) (mk_timestamp 105)
              ltac:(vm_compute; reflexivity)
              ltac:(repeat constructor; cbn; lia)
              ltac:(unfold fits; cbn; lia))
    as [(q & Hrun & _ & _ & _ & Hdump) _].
  exists q. split; [exact Hrun|]. apply Hdump. right. cbn. lia.
Defined.

Lemma same_timestamp_coalesces_witness :
  exists q,
    enqueue_all true [(mk_timestamp 7, key_of ["x"%byte]); (mk_timestamp 7, key_of []);
                      (mk_timestamp 7, key_of ["y"%byte; "z"%byte])]
                (empty_queue (initialized_block 1010))
    = Returned tt q []
    /\ index_entries q = [t_and_o.mk (mk_timestamp 7) 0]
    /\ log_entries q = [key_of ["x"%byte]; key_of []; key_of ["y"%byte; "z"%byte]].
Proof.
  destruct (same_timestamp_coalesces true 16 16 4 4294967295 4096
              (uninitialized_block 1010) (initialized_block 1010) []
              (mk_timestamp 7) [key_of ["x"%byte]; key_of []; key_of ["y"%byte; "z"%byte]]
              ltac:(vm_compute; reflexivity)
              ltac:(constructor)
              ltac:(unfold valid_timestamp; cbn; lia)
              ltac:(repeat constructor; cbn; lia)
              ltac:(unfold fits; cbn; lia))
    as (q & q' & tr & Hrun & Hrun' & _ & _ & Hfresh & _).
  injection Hrun as <-.
  destruct (Hfresh eq_refl ltac:(discriminate)) as [Hindex Hlog].
  assert (Htr : trace (enqueue_all true
                         (map (pair (mk_timestamp 7))
                              [key_of ["x"%byte]; key_of []; key_of ["y"%byte; "z"%byte]])
                         (empty_queue (initialized_block 1010))) = [])
    by (vm_compute; reflexivity).
  rewrite Hrun' in Htr. cbn [trace] in Htr. subst tr.
  exists q'. split; [exact Hrun' | split; assumption].
Defined.


Lemma offset_index_invariant_witness :
  exists q,
    enqueue_all true scenario_calls (empty_queue (initialized_block 1010))
    = Returned tt q []
    /\ large_buf_ref.size (timestamps_and_offsets_largebuf (queue_root q)) mod 12 = 0
    /\ StronglySorted entry_lt (index_entries q).
Proof.
  destruct (offset_index_invariant true 16 16 4 4294967295 4096
              (uninitialized_block 1010) (initialized_block 1010) scenario_calls
              ltac:(vm_compute; reflexivity)
              ltac:(repeat constructor; cbn; lia)
              ltac:(unfold fits; cbn; lia))
    as (_ & q & Hrun & _ & _ & _ & Hmod & Hsorted & _).
  exists q. split; [exact Hrun | split; [exact Hmod | exact Hsorted]].
Defined.


Lemma initialize_empty_delete_queue_unallocated_witness :
  exists root,
    initialize_empty_delete_queue true 16 16 4 4294967295 4096 (uninitialized_block 1010)
    = Returned tt root []
    /\ magic root = ["D"; "e"; "l"; "Q"]%byte
    /\ primal_offset root = 0
    /\ unallocated 4294967295 (timestamps_and_offsets_largebuf root)
    /\ unallocated 4294967295 (keys_largebuf root).
Proof.
  destruct (initialize_empty_delete_queue_unallocated true 16 16 4 4294967295 4096
              (uninitialized_block 1010)
              ltac:(lia) ltac:(lia) ltac:(lia) ltac:(lia)
              ltac:(vm_compute; reflexivity) ltac:(vm_compute; reflexivity))
    as (root & Hrun & Hm & Hp & Ht & Hk & _).
  exists root.
  split; [exact Hrun | split; [exact Hm | split; [exact Hp | split; [exact Ht | exact Hk]]]].
Defined.

Lemma buffers_allocated_in_lockstep_witness :
  exists q,
    enqueue_all true scenario_calls (empty_queue (initialized_block 1010))
    = Returned tt q []
    /\ (large_buf_ref.size (timestamps_and_offsets_largebuf (queue_root q)) = 0
        <-> large_buf_ref.size (keys_largebuf (queue_root q)) = 0).
Proof.
  destruct (buffers_allocated_in_lockstep true 16 16 4 4294967295 4096
              (uninitialized_block 1010) (initialized_block 1010) scenario_calls
              ltac:(vm_compute; reflexivity)
              ltac:(repeat constructor; cbn; lia)
              ltac:(unfold fits; cbn; lia))
    as (q & Hrun & Hiff & _).
  exists q. split; [exact Hrun | exact Hiff].
Defined.

Lemma decode_walk_is_safe_witness :
  exists q,
    enqueue_all true scenario_calls (empty_queue (initialized_block 1010))
    = Returned tt q []
    /\ Forall (fun x => In (t_and_o.offset x - primal_offset (queue_root q))
                           (log_boundaries q))
              (index_entries q)
    /\ never_fails (rassert_failed key_within_slice)
         (dump_keys_from_delete_queue true (mk_timestamp 100) (mk_timestamp 105) q).
Proof.
  destruct (decode_walk_is_safe true 16 16 4 4294967295 4096
              (uninitialized_block 1010) (initialized_block 1010) scenario_calls
              ltac:(vm_compute; reflexivity)
              ltac:(repeat constructor; cbn; lia)
              ltac:(unfold fits; cbn; lia))
    as (q & Hrun & Hb & _ & _ & Hsafe).
  exists q. split; [exact Hrun | split; [exact Hb | apply Hsafe]].
Defined.

(** * Further properties of the code *)

(** ** A range query on a queue in any state *)

Lemma reads_silently_delivers {A} q (o : outcome queue A) :
  reads_silently q o -> reads_and_delivers q o.
Proof.
  destruct o as [a q' tr|f tr]; cbn.
  - intros [-> ->]. split; [reflexivity | now exists []].
  - intros ->. now exists [].
Qed.

Lemma reads_silently_bind {A B} (m : M queue A) (k : A -> M queue B) q :
  reads_silently q (m q) -> (forall a, reads_silently q (k a q)) ->
  reads_silently q (bind m k q).
Proof.
  intros Hm Hk. unfold bind. destruct (m q) as [a q1 tr1|f tr1]; cbn in Hm.
  - destruct Hm as [-> ->]. specialize (Hk a).
    destruct (k a q) as [b q2 tr2|f tr2]; exact Hk.
  - exact Hm.
Qed.

Lemma reads_and_delivers_bind {A B} (m : M queue A) (k : A -> M queue B) q :
  reads_and_delivers q (m q) -> (forall a, reads_and_delivers q (k a q)) ->
  reads_and_delivers q (bind m k q).
Proof.
  intros Hm Hk. unfold bind. destruct (m q) as [a q1 tr1|f tr1]; cbn in Hm.
  - destruct Hm as [-> [ks1 ->]]. specialize (Hk a).
    destruct (k a q) as [b q2 tr2|f tr2]; cbn in Hk |- *.
    + destruct Hk as [-> [ks2 ->]]. split; [reflexivity|].
      exists (ks1 ++ ks2). now rewrite map_app.
    + destruct Hk as [ks2 ->]. exists (ks1 ++ ks2). now rewrite map_app.
  - exact Hm.
Qed.

Lemma reads_silently_rassert dbg a c q : reads_silently q (rassert dbg a c q).
Proof. unfold rassert. destruct (dbg && negb c); cbn; auto. Qed.

Lemma reads_silently_ref_size w q : reads_silently q (ref_size w q).
Proof. cbn. auto. Qed.

Lemma reads_silently_read_at w pos n q : reads_silently q (read_at w pos n q).
Proof.
  unfold read_at. apply reads_silently_bind; [apply reads_silently_ref_size|].
  intros size. destruct (in_range pos n size); cbn; auto.
Qed.

Lemma reads_silently_scan dbg primal b e fuel : forall i ie v q,
  reads_silently q (scan dbg fuel primal b e i ie v q).
Proof.
  induction fuel as [|fuel IH]; intros i ie v q; cbn [scan];
    destruct (i <? ie); try (cbn; auto; fail).
  apply reads_silently_bind; [apply reads_silently_read_at|].
  intros bytes. cbv zeta.
  destruct (e <=? time (t_and_o.timestamp (t_and_o.of_memory bytes))); [|apply IH].
  apply reads_silently_bind; [apply reads_silently_rassert|].
  intros _. cbn. auto.
Qed.

Lemma reads_silently_range_lookup dbg primal b e q :
  reads_silently q (range_lookup dbg primal b e q).
Proof.
  unfold range_lookup.
  apply reads_silently_bind; [apply reads_silently_ref_size|]. intros t_o_size.
  apply reads_silently_bind; [apply reads_silently_scan|]. intros v.
  destruct (negb (begin_found v)); [cbn; auto|].
  destruct (negb (end_found v)); [|cbn; auto].
  apply reads_silently_bind; [apply reads_silently_ref_size|].
  intros keys_size. cbn. auto.
Qed.

Lemma reads_and_delivers_walk dbg fuel : forall slice q,
  reads_and_delivers q (walk dbg fuel slice q).
Proof.
  induction fuel as [|fuel IH]; intros slice q; destruct slice as [|b rest];
    cbn [walk]; try (cbn; split; [reflexivity|]; now exists []).
  - cbn. now exists [].
  - apply reads_and_delivers_bind;
      [apply reads_silently_delivers, reads_silently_rassert|].
    intros _. apply reads_and_delivers_bind; [|intros _; apply IH].
    cbn. split; [reflexivity|]. now eexists [_].
Qed.

Lemma reads_and_delivers_range_read dbg begin_offset end_offset q :
  reads_and_delivers q (range_read dbg begin_offset end_offset q).
Proof.
  unfold range_read. apply reads_and_delivers_bind;
    [apply reads_silently_delivers, reads_silently_read_at|].
  intros buf. apply reads_and_delivers_walk.
Qed.

(** X1. The range query only reads, whatever the queue holds, be it built
    by [add_key_to_delete_queue] or not: a call that returns leaves the queue
    as it was and has told the receiver some keys and then, once and last,
    that the stream has ended; a call that is stopped has told the receiver
    keys only, never the end of the stream. *)
Theorem range_query_reads_any_queue dbg b e q :
  match dump_keys_from_delete_queue dbg b e q with
  | Returned _ q' tr =>
      q' = q /\ exists ks, tr = map deletion_key ks ++ [done_deletion_keys]
  | Crashed _ tr =>
      exists ks, tr = map deletion_key ks
  end.
Proof.
  unfold dump_keys_from_delete_queue. rewrite bind_gets, !bind_ref_size.
  set (guard := negb _ && negb _).
  match goal with
  | |- match bind ?m _ _ with _ => _ end =>
      assert (Hbody : reads_and_delivers q (m q))
  end.
  { destruct guard; [|cbn; split; [reflexivity|]; now exists []].
    apply reads_and_delivers_bind;
      [apply reads_silently_delivers, reads_silently_rassert|]. intros _.
    apply reads_and_delivers_bind;
      [apply reads_silently_delivers, reads_silently_range_lookup|].
    intros [[begin_offset end_offset]|]; [|cbn; split; [reflexivity|]; now exists []].
    apply reads_and_delivers_bind;
      [apply reads_silently_delivers, reads_silently_rassert|]. intros _.
    destruct (begin_offset <? end_offset);
      [apply reads_and_delivers_range_read | cbn; split; [reflexivity|]; now exists []]. }
  unfold bind at 1.
  match goal with
  | H : reads_and_delivers q ?o |- _ => destruct o as [a q1 tr1|f tr1]; cbn in H
  end.
  - destruct Hbody as [-> [ks ->]]. cbn. split; [reflexivity|]. now exists ks.
  - exact Hbody.
Qed.

(** The index scan of a range that ends where it begins, or before: the
    first record that reaches [begin] reaches [end] as well, so where the
    scan finds the begin of the range it leaves the same offset for its end. *)
Lemma scan_no_range dbg primal b e fuel : forall i ie v q,
  e <= b -> begin_found v = false ->
  match scan dbg fuel primal b e i ie v q with
  | Returned v' _ _ =>
      begin_found v' = false \/ end_found v' = true /\ begin_offset v' = end_offset v'
  | Crashed _ _ => True
  end.
Proof.
  induction fuel as [|fuel IH]; intros i ie v q Hbe Hv; cbn [scan];
    destruct (i <? ie); try (cbn; auto; fail).
  unfold bind at 1. destruct (read_at t_o_largebuf i t_and_o.sizeof q) as [bytes q1 tr1|];
    [|exact I].
  cbv zeta. rewrite Hv. cbn [negb andb].
  set (t := time (t_and_o.timestamp (t_and_o.of_memory bytes))).
  destruct (Z.leb_spec b t) as [Hb|Hb].
  - replace (e <=? t) with true by (symmetry; apply Z.leb_le; lia).
    cbn [begin_found begin_offset]. rewrite bind_rassert_true. cbn. auto.
  - destruct (e <=? t).
    + rewrite Hv. unfold rassert. destruct dbg; cbn; auto.
    + specialize (IH (to_int64 (i + t_and_o.sizeof)) ie v q1 Hbe Hv).
      destruct (scan _ _ _ _ _ _ _ _ _); exact IH.
Qed.

(** X2. A range that is empty or given the wrong way round ([end <= begin])
    reads no key, whatever the queue holds: the index scan finds no begin of
    the range, or the same offset for its begin and its end, so the Key Log is
    not read and the receiver is given no key; a call that returns has only
    ended the stream, and a call that is stopped has told the receiver
    nothing. *)
Theorem empty_or_inverted_range_reads_no_key dbg b e q :
  time e <= time b ->
  match dump_keys_from_delete_queue dbg b e q with
  | Returned _ q' tr => q' = q /\ tr = [done_deletion_keys]
  | Crashed _ tr => tr = []
  end.
Proof.
  intros Hbe. unfold dump_keys_from_delete_queue. rewrite bind_gets, !bind_ref_size.
  set (guard := negb _ && negb _).
  match goal with
  | |- match bind ?m _ _ with _ => _ end =>
      assert (Hbody : reads_silently q (m q))
  end.
  { destruct guard; [|cbn; auto].
    apply reads_silently_bind; [apply reads_silently_rassert|]. intros _.
    unfold bind at 1.
    pose proof (reads_silently_range_lookup dbg (primal_offset (queue_root q)) b e q)
      as Hsilent.
    assert (Hsame : match range_lookup dbg (primal_offset (queue_root q)) b e q with
                    | Returned (Some (bo, eo)) _ _ => bo = eo
                    | _ => True
                    end).
    { unfold range_lookup. rewrite bind_ref_size. unfold bind at 1.
      pose proof (scan_no_range dbg (primal_offset (queue_root q)) (time b) (time e)
                    (Z.to_nat (large_buf_ref.size (ref_of t_o_largebuf q))) 0
                    (large_buf_ref.size (ref_of t_o_largebuf q))
                    (mk_locals 0 0 false false) q Hbe eq_refl) as Hscan.
      destruct (scan _ _ _ _ _ _ _ _ _) as [v q1 tr1|]; [|exact I].
      destruct (begin_found v); cbn [negb].
      - destruct Hscan as [Hf|[-> Heq]]; [discriminate|]. cbn. exact Heq.
      - cbn. exact I. }
    destruct (range_lookup _ _ _ _ _) as [[[bo eo]|] q1 tr1|f tr1]; cbn in Hsilent.
    - destruct Hsilent as [-> ->]. subst eo.
      rewrite Z.leb_refl, bind_rassert_true, Z.ltb_irrefl. cbn. auto.
    - destruct Hsilent as [-> ->]. cbn. auto.
    - exact Hsilent. }
  unfold bind at 1.
  match goal with
  | H : reads_silently q ?o |- _ => destruct o as [a q1 tr1|f tr1]; cbn in H
  end.
  - destruct Hbody as [-> ->]. cbn. auto.
  - exact Hbody.
Qed.

(** ** Ranges side by side *)

Lemma window_adjacent l a b c :
  StronglySorted time_le l -> time a <= time b -> time b <= time c ->
  List.filter (in_window a c) l
  = List.filter (in_window a b) l ++ List.filter (in_window b c) l.
Proof.
  intros Hs Hab Hbc.
  pose proof (window_split l a c Hs ltac:(lia)) as Hac.
  rewrite (window_split l b c Hs Hbc), (window_split l a b Hs Hab), <- app_assoc in Hac.
  exact (eq_sym (app_inv_head _ _ _ Hac)).
Qed.

(** X3. Ranges that meet compose: for [a <= b <= c] the keys of the query
    [[a, c)] are the keys of [[a, b)] followed by the keys of [[b, c)], so a
    receiver that asks range after range gets every key once and in order. *)
Theorem adjacent_ranges_concatenate
    dbg sizeof_ref offsetof sizeof_id null block_size raw root ops a b c :
  initialize_empty_delete_queue dbg sizeof_ref offsetof sizeof_id null block_size raw
  = Returned tt root [] ->
  Forall valid_entry ops -> fits 0 ops ->
  time a <= time b -> time b <= time c ->
  exists q,
    enqueue_all dbg ops (empty_queue root) = Returned tt q (warnings_from None ops)
    /\ delivered (trace (dump_keys_from_delete_queue dbg a c q))
       = delivered (trace (dump_keys_from_delete_queue dbg a b q))
         ++ delivered (trace (dump_keys_from_delete_queue dbg b c q)).
Proof.
  intros Hinit Hv Hfit Hab Hbc.
  destruct (built _ _ _ _ _ _ _ _ Hinit ops Hv Hfit) as (q & Hrun & rep & _).
  exists q. split; [exact Hrun|].
  rewrite !(dump_delivered dbg 0 q _ _ _ rep), <- map_app. f_equal.
  apply window_adjacent; [apply rep | exact Hab | exact Hbc].
Qed.

(** ** Calls after calls *)

Lemma effective_from_app ops1 : forall ops2 last,
  effective_from last (ops1 ++ ops2)
  = effective_from last ops1
    ++ effective_from (last_stamp last (effective_from last ops1)) ops2.
Proof.
  induction ops1 as [|[t k] ops1 IH]; intros ops2 last;
    cbn [app effective_from last_stamp]; [reflexivity|].
  now rewrite IH.
Qed.

Lemma clamp_above last t : time t <= time (clamp last t).
Proof.
  unfold clamp. destruct last as [l|]; [|lia].
  rewrite Z.gtb_ltb. destruct (Z.ltb_spec (time t) (time l)); lia.
Qed.

Lemma clamp_above_stamp l t : time l <= time (clamp (Some l) t).
Proof.
  unfold clamp. rewrite Z.gtb_ltb. destruct (Z.ltb_spec (time t) (time l)); lia.
Qed.

(** Behind a stored timestamp nothing gets an earlier one. *)
Lemma effective_from_above ops : forall l x,
  x <= time l ->
  Forall (fun en : entry => x <= time (fst en)) (effective_from (Some l) ops).
Proof.
  induction ops as [|[t k] ops IH]; intros l x Hx; cbn [effective_from]; constructor.
  - cbn [fst]. pose proof (clamp_above_stamp l t). lia.
  - apply IH. pose proof (clamp_above_stamp l t). lia.
Qed.

(** From a call with a timestamp on, no call gets an earlier one. *)
Lemma effective_from_cons_above last t k ops x :
  x <= time t ->
  Forall (fun en : entry => x <= time (fst en)) (effective_from last ((t, k) :: ops)).
Proof.
  intros Hx. pose proof (clamp_above last t). cbn [effective_from]. constructor.
  - cbn [fst]. lia.
  - apply effective_from_above. lia.
Qed.

Lemma window_above l b e :
  Forall (fun en : entry => time e <= time (fst en)) l ->
  List.filter (in_window b e) l = [].
Proof.
  induction 1 as [|en l Hen _ IH]; [reflexivity|]. cbn [List.filter].
  replace (in_window b e en) with false; [exact IH|].
  unfold in_window. replace (_ <? _) with false; [now rewrite andb_false_r|].
  symmetry. apply Z.ltb_ge. exact Hen.
Qed.

(** A range leaves out the first call whose timestamp reaches its end, and
    every call after that one. *)
Lemma window_cut ops1 t k ops2 b e :
  time e <= time t ->
  List.filter (in_window b e) (effective (ops1 ++ (t, k) :: ops2))
  = List.filter (in_window b e) (effective ops1).
Proof.
  intros Hle. unfold effective. rewrite effective_from_app, List.filter_app.
  rewrite (window_above (effective_from _ ((t, k) :: ops2)))
    by (apply effective_from_cons_above; exact Hle).
  apply app_nil_r.
Qed.

Lemma fits_app_l primal ops more :
  Forall valid_entry more -> fits primal (ops ++ more) -> fits primal ops.
Proof.
  intros Hv Hfit. exact (fits_prefix primal [] ops more Hv Hfit).
Qed.

(** Calls on a queue built by earlier calls. *)
Lemma built_further dbg sizeof_ref offsetof sizeof_id null block_size raw root ops more :
  initialize_empty_delete_queue dbg sizeof_ref offsetof sizeof_id null block_size raw
  = Returned tt root [] ->
  Forall valid_entry ops -> Forall valid_entry more -> fits 0 (ops ++ more) ->
  exists q q',
    enqueue_all dbg ops (empty_queue root) = Returned tt q (warnings_from None ops)
    /\ enqueue_all dbg more q
       = Returned tt q' (warnings_from (last_stamp None (effective ops)) more)
    /\ represents 0 q (effective ops)
    /\ represents 0 q' (effective (ops ++ more))
    /\ magic (queue_root q') = magic (queue_root q).
Proof.
  intros Hinit Hv Hm Hfit.
  destruct (built _ _ _ _ _ _ _ _ Hinit ops Hv (fits_app_l 0 ops more Hm Hfit))
    as (q & Hrun & rep & _).
  destruct (enqueue_all_represents dbg 0 more q (effective ops) rep Hm
              (fits_effective 0 ops more Hfit)) as (q' & Hrun' & rep' & Hmagic).
  exists q, q'. split; [exact Hrun|]. split; [exact Hrun'|]. split; [exact rep|].
  split; [|exact Hmagic]. unfold effective at 1. rewrite effective_from_app. exact rep'.
Qed.

(** X4. Calls never take back what a range query gave: after more calls of
    [add_key_to_delete_queue] every range delivers the keys it delivered
    before, in the same order, and behind them the keys of the new calls whose
    effective timestamp (the one given, or the last stored one when that is
    later) lies in the range. *)
Theorem enqueue_extends_range_results
    dbg sizeof_ref offsetof sizeof_id null block_size raw root ops more b e :
  initialize_empty_delete_queue dbg sizeof_ref offsetof sizeof_id null block_size raw
  = Returned tt root [] ->
  Forall valid_entry ops -> Forall valid_entry more -> fits 0 (ops ++ more) ->
  exists q q',
    enqueue_all dbg ops (empty_queue root) = Returned tt q (warnings_from None ops)
    /\ enqueue_all dbg more q
       = Returned tt q' (warnings_from (last_stamp None (effective ops)) more)
    /\ delivered (trace (dump_keys_from_delete_queue dbg b e q'))
       = delivered (trace (dump_keys_from_delete_queue dbg b e q))
         ++ map snd (List.filter (in_window b e)
                       (effective_from (last_stamp None (effective ops)) more)).
Proof.
  intros Hinit Hv Hm Hfit.
  destruct (built_further _ _ _ _ _ _ _ _ ops more Hinit Hv Hm Hfit)
    as (q & q' & Hrun & Hrun' & rep & rep' & _).
  exists q, q'. split; [exact Hrun|]. split; [exact Hrun'|].
  rewrite (dump_delivered dbg 0 q' _ b e rep'), (dump_delivered dbg 0 q _ b e rep).
  unfold effective at 1. now rewrite effective_from_app, List.filter_app, map_app.
Qed.

(** X5. A range that ends at or before a timestamp already enqueued is
    final: once some call has come with a timestamp of [end] or later, no
    further call changes what the range [[begin, end)] delivers, whatever the
    timestamps of the further calls, even those that lie in the range. *)
Theorem range_below_enqueued_timestamp_is_final
    dbg sizeof_ref offsetof sizeof_id null block_size raw root ops more b e :
  initialize_empty_delete_queue dbg sizeof_ref offsetof sizeof_id null block_size raw
  = Returned tt root [] ->
  Forall valid_entry ops -> Forall valid_entry more -> fits 0 (ops ++ more) ->
  Exists (fun op : entry => time e <= time (fst op)) ops ->
  exists q q',
    enqueue_all dbg ops (empty_queue root) = Returned tt q (warnings_from None ops)
    /\ enqueue_all dbg more q
       = Returned tt q' (warnings_from (last_stamp None (effective ops)) more)
    /\ delivered (trace (dump_keys_from_delete_queue dbg b e q'))
       = delivered (trace (dump_keys_from_delete_queue dbg b e q)).
Proof.
  intros Hinit Hv Hm Hfit Hex.
  destruct (built_further _ _ _ _ _ _ _ _ ops more Hinit Hv Hm Hfit)
    as (q & q' & Hrun & Hrun' & rep & rep' & _).
  exists q, q'. split; [exact Hrun|]. split; [exact Hrun'|].
  rewrite (dump_delivered dbg 0 q' _ b e rep'), (dump_delivered dbg 0 q _ b e rep).
  apply Exists_exists in Hex. destruct Hex as ([t k] & Hin & Hle). cbn [fst] in Hle.
  destruct (list_elem_of_split _ _ Hin) as (ops1 & ops2 & ->).
  rewrite <- app_assoc, <- app_comm_cons.
  now rewrite !(window_cut ops1 t k _ b e Hle).
Qed.

(** X6. The largest timestamp is out of reach: the end of a range is
    exclusive and no [uint32_t] lies above [0xFFFFFFFF], so the key of a call
    with that timestamp, and the key of every call after it (their timestamps
    are raised to it), is delivered by no range query at all. *)
Theorem max_timestamp_never_delivered
    dbg sizeof_ref offsetof sizeof_id null block_size raw root ops1 k ops2 b e :
  initialize_empty_delete_queue dbg sizeof_ref offsetof sizeof_id null block_size raw
  = Returned tt root [] ->
  Forall valid_entry (ops1 ++ (max_timestamp, k) :: ops2) ->
  fits 0 (ops1 ++ (max_timestamp, k) :: ops2) ->
  valid_timestamp e ->
  exists q,
    enqueue_all dbg (ops1 ++ (max_timestamp, k) :: ops2) (empty_queue root)
    = Returned tt q (warnings_from None (ops1 ++ (max_timestamp, k) :: ops2))
    /\ delivered (trace (dump_keys_from_delete_queue dbg b e q))
       = map snd (List.filter (in_window b e) (effective ops1))
    /\ (length (delivered (trace (dump_keys_from_delete_queue dbg b e q)))
        <= length ops1)%nat.
Proof.
  intros Hinit Hv Hfit He.
  destruct (built _ _ _ _ _ _ _ _ Hinit _ Hv Hfit) as (q & Hrun & rep & _).
  exists q. split; [exact Hrun|].
  rewrite (dump_delivered dbg 0 q _ b e rep).
  rewrite (window_cut ops1 max_timestamp k ops2 b e)
    by (destruct He; cbn [max_timestamp time]; lia).
  split; [reflexivity|].
  rewrite length_map. etransitivity; [apply List.filter_length_le|].
  unfold effective. now rewrite (proj2 (effective_from_bytes ops1 None)).
Qed.

Lemma effective_from_below ops : forall last x,
  match last with Some l => time l < x | None => True end ->
  Forall (fun op : entry => time (fst op) < x) ops ->
  Forall (fun en : entry => time (fst en) < x) (effective_from last ops).
Proof.
  induction ops as [|[t k] ops IH]; intros last x Hl Hall; cbn [effective_from];
    [constructor|].
  inversion Hall as [|? ? Ht Hall']; subst. cbn [fst] in Ht.
  assert (Hc : time (clamp last t) < x).
  { unfold clamp. destruct last as [l|]; [|exact Ht].
    destruct (time l >? time t); assumption. }
  constructor; [exact Hc | apply IH; [exact Hc | exact Hall']].
Qed.

Lemma window_all l b e :
  Forall (fun en : entry => time b <= time (fst en) < time e) l ->
  List.filter (in_window b e) l = l.
Proof.
  induction 1 as [|en l Hen _ IH]; [reflexivity|]. cbn [List.filter].
  replace (in_window b e en) with true; [now rewrite IH|].
  unfold in_window. symmetry. apply andb_true_intro.
  split; [apply Z.leb_le | apply Z.ltb_lt]; lia.
Qed.

(** X7. What goes in comes out: a range from timestamp 0 to an end above
    every timestamp given returns, hands to the receiver the key of every
    call, each once and unchanged, in the order of the calls (also where the
    calls came with timestamps out of order), ends the stream and leaves the
    queue as it was. *)
Theorem full_range_delivers_every_key
    dbg sizeof_ref offsetof sizeof_id null block_size raw root ops b e :
  initialize_empty_delete_queue dbg sizeof_ref offsetof sizeof_id null block_size raw
  = Returned tt root [] ->
  Forall valid_entry ops -> fits 0 ops ->
  time b <= 0 -> Forall (fun op : entry => time (fst op) < time e) ops ->
  exists q,
    enqueue_all dbg ops (empty_queue root) = Returned tt q (warnings_from None ops)
    /\ dump_keys_from_delete_queue dbg b e q
       = Returned tt q (map deletion_key (map snd ops) ++ [done_deletion_keys]).
Proof.
  intros Hinit Hv Hfit Hb He.
  destruct (built _ _ _ _ _ _ _ _ Hinit ops Hv Hfit) as (q & Hrun & rep & _).
  exists q. split; [exact Hrun|].
  assert (Hall : Forall (fun en : entry => time b <= time (fst en) < time e)
                        (effective ops)).
  { pose proof (effective_from_below ops None (time e) I He) as Hlt.
    pose proof (rep_valid _ _ _ rep) as Hve.
    rewrite Forall_forall in *. intros en Hin.
    destruct (Hve en Hin) as [[H0 _] _]. specialize (Hlt en Hin). cbn beta in Hlt. lia. }
  destruct ops as [|op ops'].
  - apply dump_unallocated. left. rewrite (rep_t_o_size _ _ _ rep). reflexivity.
  - assert (Hbe : time b <= time e).
    { inversion He as [|? ? Hlt _]; inversion Hv as [|? ? [[Hge _] _] _]; subst. lia. }
    rewrite (dump_returns dbg 0 q _ b e rep (or_intror Hbe)), (window_all _ b e Hall).
    unfold effective. now rewrite effective_from_keys.
Qed.

(** ** The log line for calls out of order *)

Lemma warning_nil_iff last t :
  warning last t = []
  <-> match last with Some l => time l <= time t | None => True end.
Proof.
  unfold warning. destruct last as [l|]; [|tauto].
  rewrite Z.gtb_ltb. destruct (Z.ltb_spec (time t) (time l)); split;
    try discriminate; try reflexivity; lia.
Qed.

Lemma clamp_in_order last t :
  match last with Some l => time l <= time t | None => True end -> clamp last t = t.
Proof.
  unfold clamp. destruct last as [l|]; [|reflexivity].
  rewrite Z.gtb_ltb. destruct (Z.ltb_spec (time t) (time l)); [lia | reflexivity].
Qed.

Lemma warnings_from_nil_iff ops : forall last,
  warnings_from last ops = []
  <-> StronglySorted time_le ops
      /\ Forall (fun op : entry =>
                   match last with Some l => time l <= time (fst op) | None => True end)
                ops.
Proof.
  induction ops as [|[t k] ops IH]; intros last; cbn [warnings_from].
  - split; [split; constructor | reflexivity].
  - split.
    + intros H. apply app_eq_nil in H. destruct H as [Hw Hrest].
      apply warning_nil_iff in Hw. rewrite (clamp_in_order last t Hw) in Hrest.
      apply IH in Hrest. destruct Hrest as [Hs Hall]. split.
      * constructor; [exact Hs | exact Hall].
      * constructor; [exact Hw|].
        destruct last as [l|]; [|now apply Forall_forall].
        eapply List.Forall_impl; [|exact Hall]. cbn beta. intros op Hop. lia.
    + intros [Hs Hall]. inversion Hs as [|? ? Hs' Hle]; subst.
      inversion Hall as [|? ? Hw _]; subst. cbn [fst] in Hw.
      rewrite (proj2 (warning_nil_iff last t) Hw), (clamp_in_order last t Hw).
      cbn [app]. apply IH. split; [exact Hs' | exact Hle].
Qed.

Lemma effective_from_in_order ops : forall last,
  StronglySorted time_le ops ->
  Forall (fun op : entry =>
            match last with Some l => time l <= time (fst op) | None => True end) ops ->
  effective_from last ops = ops.
Proof.
  induction ops as [|[t k] ops IH]; intros last Hs Hall; cbn [effective_from];
    [reflexivity|].
  inversion Hs as [|? ? Hs' Hle]; subst. inversion Hall as [|? ? Hw _]; subst.
  cbn [fst] in Hw. rewrite (clamp_in_order last t Hw). f_equal.
  apply IH; [exact Hs' | exact Hle].
Qed.

(** The log line of a call, read off the timestamp it came with and the one
    it was stored under. *)
Lemma warnings_from_raised ops : forall last,
  warnings_from last ops
  = flat_map (fun c : entry * entry =>
                if time (fst (fst c)) <? time (fst (snd c))
                then [logWRN (time (fst (snd c))) (time (fst (fst c)))] else [])
             (combine ops (effective_from last ops)).
Proof.
  induction ops as [|[t k] ops IH]; intros last;
    cbn [warnings_from effective_from combine flat_map fst snd]; [reflexivity|].
  rewrite IH. f_equal. unfold warning, clamp. destruct last as [l|].
  - rewrite Z.gtb_ltb. destruct (time t <? time l) eqn:Hlt.
    + now rewrite Hlt.
    + now rewrite Z.ltb_irrefl.
  - now rewrite Z.ltb_irrefl.
Qed.

(** X8. [logWRN] tells exactly the calls that came out of order: the calls
    return with one log line for each call whose timestamp lay before the
    last stored one, naming the stored timestamp and the one given, and with
    nothing else; there is no line at all exactly when the timestamps of the
    calls never decrease, and then every key is stored under the timestamp it
    came with. *)
Theorem out_of_order_calls_are_logged
    dbg sizeof_ref offsetof sizeof_id null block_size raw root ops :
  initialize_empty_delete_queue dbg sizeof_ref offsetof sizeof_id null block_size raw
  = Returned tt root [] ->
  Forall valid_entry ops -> fits 0 ops ->
  exists q tr,
    enqueue_all dbg ops (empty_queue root) = Returned tt q tr
    /\ tr = flat_map (fun c : entry * entry =>
                        if time (fst (fst c)) <? time (fst (snd c))
                        then [logWRN (time (fst (snd c))) (time (fst (fst c)))] else [])
                     (combine ops (effective ops))
    /\ (tr = [] <-> StronglySorted time_le ops)
    /\ (StronglySorted time_le ops ->
        forall b e,
          delivered (trace (dump_keys_from_delete_queue dbg b e q))
          = map snd (List.filter (in_window b e) ops)).
Proof.
  intros Hinit Hv Hfit.
  destruct (built _ _ _ _ _ _ _ _ Hinit ops Hv Hfit) as (q & Hrun & rep & _).
  exists q, (warnings_from None ops). split; [exact Hrun|].
  split; [apply warnings_from_raised|]. split.
  - rewrite warnings_from_nil_iff. split; [tauto|].
    intros Hs. split; [exact Hs | now apply Forall_forall].
  - intros Hs b e. rewrite (dump_delivered dbg 0 q _ b e rep). unfold effective.
    rewrite effective_from_in_order; [reflexivity | exact Hs | now apply Forall_forall].
Qed.

(** ** What one call writes *)

(** X9. The two large buffers only grow, and only at their end: a call of
    [add_key_to_delete_queue] leaves every byte of the Key Log and of the
    Offset Index where it was, puts the key (length byte and contents) behind
    the log, whose size goes up by [1 + key->size], and leaves the magic and
    the primal offset of the root block alone. Behind the index it puts no
    record when the last record has the timestamp of the call or a later one,
    and else (also when the index is empty) the one record of the timestamp of
    the call and the offset [primal_offset + keys_ref->size] at which the key
    begins; the size of the index goes up by the 12 bytes of the record. *)
Theorem enqueue_only_appends
    dbg sizeof_ref offsetof sizeof_id null block_size raw root ops t k :
  initialize_empty_delete_queue dbg sizeof_ref offsetof sizeof_id null block_size raw
  = Returned tt root [] ->
  Forall valid_entry ops -> valid_entry (t, k) -> fits 0 (ops ++ [(t, k)]) ->
  exists q q' tr recs,
    enqueue_all dbg ops (empty_queue root) = Returned tt q (warnings_from None ops)
    /\ add_key_to_delete_queue dbg t k q = Returned tt q' tr
    /\ keys_data q' = keys_data q ++ store_key_t.memory k
    /\ log_entries q' = log_entries q ++ [k]
    /\ large_buf_ref.size (keys_largebuf (queue_root q'))
       = large_buf_ref.size (keys_largebuf (queue_root q)) + (1 + store_key_t.size k)
    /\ t_o_data q' = t_o_data q ++ index_bytes recs
    /\ index_entries q' = index_entries q ++ recs
    /\ recs = (let tao := t_and_o.mk t (primal_offset (queue_root q)
                                         + large_buf_ref.size (keys_largebuf (queue_root q))) in
               match last (index_entries q) with
               | Some last_tao =>
                   if time t <=? time (t_and_o.timestamp last_tao) then [] else [tao]
               | None => [tao]
               end)
    /\ large_buf_ref.size (timestamps_and_offsets_largebuf (queue_root q'))
       = large_buf_ref.size (timestamps_and_offsets_largebuf (queue_root q))
         + t_and_o.sizeof * Z.of_nat (length recs)
    /\ magic (queue_root q') = magic (queue_root q)
    /\ primal_offset (queue_root q') = primal_offset (queue_root q).
Proof.
  intros Hinit Hv Hvk Hfit.
  destruct (built _ _ _ _ _ _ _ _ Hinit ops Hv
              (fits_prefix 0 [] ops [(t, k)] ltac:(constructor; auto) Hfit))
    as (q & Hrun & rep & _).
  destruct (add_key_step dbg 0 q (effective ops) t k rep Hvk (fits_effective 0 ops _ Hfit))
    as (q' & Hrun' & rep' & Hmagic & Hindex & Hkeys & _).
  set (c := clamp (last_stamp None (effective ops)) t) in *.
  exists q, q', (warning (last_stamp None (effective ops)) t),
         (new_record 0 (effective ops) c).
  assert (Hsnoc : index_from None 0 (effective ops ++ [(c, k)])
                  = index_from None 0 (effective ops) ++ new_record 0 (effective ops) c).
  { rewrite index_from_snoc. reflexivity. }
  split; [exact Hrun|]. split; [exact Hrun'|]. split; [exact Hkeys|].
  split; [rewrite (rep_log_entries 0 q' _ rep'), (rep_log_entries 0 q _ rep), map_app;
          reflexivity|].
  split; [rewrite (rep_keys_size _ _ _ rep'), (rep_keys_size _ _ _ rep), log_bytes_app;
          cbn [log_bytes]; lia|].
  split; [exact Hindex|].
  split; [rewrite (rep_index_entries 0 q' _ rep'), (rep_index_entries 0 q _ rep); exact Hsnoc|].
  split; [cbv zeta; rewrite (rep_index_entries 0 q _ rep), (rep_primal _ _ _ rep),
            (rep_keys_size _ _ _ rep); apply new_record_by_last|].
  split; [rewrite (rep_t_o_size _ _ _ rep'), (rep_t_o_size _ _ _ rep), Hsnoc, length_app;
          unfold t_and_o.sizeof; lia|].
  split; [exact Hmagic|].
  now rewrite (rep_primal _ _ _ rep'), (rep_primal _ _ _ rep).
Qed.

(** ** The index scan as a lookup *)

Lemma filter_nil_existsb {A} (p : A -> bool) l :
  existsb p l = false -> List.filter p l = [].
Proof.
  induction l as [|x l IH]; [reflexivity|]. cbn [existsb List.filter].
  destruct (p x); [discriminate | exact IH].
Qed.

Lemma filter_cons_existsb {A} (p : A -> bool) l :
  existsb p l = true -> exists x l', List.filter p l = x :: l'.
Proof.
  induction l as [|x l IH]; [discriminate|]. cbn [existsb List.filter].
  destruct (p x); [eauto | exact IH].
Qed.

(** X10. The Offset Index turns timestamps into positions of the Key Log:
    for a range in order the scan of [dump_keys_from_delete_queue] finds
    nothing when no call has an effective timestamp of [begin] or later, and
    else leaves in [begin_offset] the number of log bytes written by the calls
    before [begin] and in [end_offset] the number written by the calls before
    [end]. It returns in both builds and changes nothing. *)
Theorem index_scan_gives_log_positions
    dbg sizeof_ref offsetof sizeof_id null block_size raw root ops b e :
  initialize_empty_delete_queue dbg sizeof_ref offsetof sizeof_id null block_size raw
  = Returned tt root [] ->
  Forall valid_entry ops -> fits 0 ops ->
  time b <= time e ->
  exists q,
    enqueue_all dbg ops (empty_queue root) = Returned tt q (warnings_from None ops)
    /\ range_lookup dbg (primal_offset (queue_root q)) b e q
       = Returned (if existsb (from (time b)) (effective ops)
                   then Some (log_bytes (List.filter (before (time b)) (effective ops)),
                              log_bytes (List.filter (before (time e)) (effective ops)))
                   else None) q [].
Proof.
  intros Hinit Hv Hfit Hbe.
  destruct (built _ _ _ _ _ _ _ _ Hinit ops Hv Hfit) as (q & Hrun & rep & _).
  exists q. split; [exact Hrun|].
  rewrite (rep_primal _ _ _ rep), (range_lookup_ordered dbg 0 q _ rep b e Hbe).
  destruct (existsb (from (time b)) (effective ops)) eqn:Hex.
  - destruct (filter_cons_existsb _ _ Hex) as (x & l' & ->).
    rewrite (window_split (effective ops) b e (rep_sorted _ _ _ rep) Hbe), log_bytes_app.
    reflexivity.
  - now rewrite (filter_nil_existsb _ _ Hex).
Qed.

(** ** The walk over a slice of the Key Log *)

(** X11. The walk over a copied slice, whatever its bytes: it hands out
    the whole keys at the front of the slice, in order. A slice made of whole
    keys it walks to the end, and the keys it handed out are well formed and,
    written out again with their length bytes, are the slice byte for byte.
    Where a length byte asks for more bytes than are left, a debug build stops
    there at [rassert(k->size + 1 <= e - p)]; with the check compiled out the
    walk hands out that key as well, with the length byte for its size and the
    bytes that are left for its contents, and is over, [p] having passed [e].
    One turn of the loop for each byte of the slice is always enough. *)
Theorem walk_on_any_slice dbg fuel : forall slice q,
  (length slice <= fuel)%nat ->
  match walk dbg fuel slice q with
  | Returned _ q' tr =>
      q' = q
      /\ ((exists ks,
             Forall store_key_t.well_formed ks /\ slice = key_log ks
             /\ tr = map deletion_key ks)
          \/ (dbg = false
              /\ exists ks b rest,
                   Forall store_key_t.well_formed ks /\ slice = key_log ks ++ b :: rest
                   /\ Z.of_nat (length rest) < byte.unsigned b
                   /\ tr = map deletion_key
                             (ks ++ [store_key_t.mk (byte.unsigned b) rest])))
  | Crashed f tr =>
      dbg = true /\ f = rassert_failed key_within_slice
      /\ exists ks b rest,
           Forall store_key_t.well_formed ks /\ slice = key_log ks ++ b :: rest
           /\ tr = map deletion_key ks
           /\ Z.of_nat (length rest) < byte.unsigned b
  end.
Proof.
  induction fuel as [|fuel IH]; intros slice q Hfuel; destruct slice as [|b rest];
    cbn [walk length] in *; try lia.
  - cbn. split; [reflexivity|]. left. exists []. repeat split. constructor.
  - cbn. split; [reflexivity|]. left. exists []. repeat split. constructor.
  - pose proof (byte.unsigned_range b) as Hb.
    destruct (Z.leb_spec (byte.unsigned b) (Z.of_nat (length rest))) as [Hin|Hout].
    + replace (byte.unsigned b + 1 <=? Z.of_nat (S (length rest))) with true
        by (symmetry; apply Z.leb_le; lia).
      rewrite bind_rassert_true, bind_emit.
      set (k := store_key_t.mk (byte.unsigned b) (take (Z.to_nat (byte.unsigned b)) rest)).
      assert (Hk : store_key_t.well_formed k).
      { split; cbn [k store_key_t.size store_key_t.contents]; [lia|].
        rewrite length_take. lia. }
      assert (Hmem : store_key_t.memory k ++ drop (Z.to_nat (byte.unsigned b)) rest
                     = b :: rest).
      { unfold store_key_t.memory. cbn [k store_key_t.size store_key_t.contents app].
        rewrite byte.of_Z_unsigned, take_drop. reflexivity. }
      specialize (IH (drop (Z.to_nat (byte.unsigned b)) rest) q
                     ltac:(rewrite length_drop; lia)).
      destruct (walk dbg fuel _ q) as [[] q' tr|f tr]; cbn [prepend].
      * destruct IH as [-> [(ks & Hks & Hslice & ->)
                           | (Hdbg & ks & b' & rest' & Hks & Hslice & Hlt & ->)]];
          (split; [reflexivity|]).
        -- left. exists (k :: ks). split; [constructor; assumption|].
           split; [|reflexivity].
           unfold key_log in *. cbn [flat_map]. rewrite <- Hslice. now rewrite Hmem.
        -- right. split; [exact Hdbg|].
           exists (k :: ks), b', rest'. split; [constructor; assumption|].
           split; [|split; [exact Hlt | reflexivity]].
           unfold key_log in *. cbn [flat_map]. rewrite <- app_assoc, <- Hslice.
           now rewrite Hmem.
      * destruct IH as (Hdbg & -> & ks & b' & rest' & Hks & Hslice & -> & Hlt).
        split; [exact Hdbg|]. split; [reflexivity|].
        exists (k :: ks), b', rest'. split; [constructor; assumption|].
        split; [|split; [reflexivity | exact Hlt]].
        unfold key_log in *. cbn [flat_map]. rewrite <- app_assoc, <- Hslice.
        now rewrite Hmem.
    + unfold rassert. destruct dbg; cbn [andb].
      * replace (byte.unsigned b + 1 <=? Z.of_nat (S (length rest))) with false
          by (symmetry; apply Z.leb_gt; lia).
        cbn. split; [reflexivity|]. split; [reflexivity|].
        exists [], b, rest. repeat split; [constructor | exact Hout].
      * rewrite bind_ret, bind_emit.
        rewrite take_ge, drop_ge by lia.
        assert (Hend : walk false fuel [] q = Returned tt q []) by (destruct fuel; reflexivity).
        rewrite Hend. cbn [prepend app]. split; [reflexivity|]. right.
        split; [reflexivity|].
        exists [], b, rest. repeat split; [constructor | exact Hout].
Qed.

(** ** Initializing a reference, slot by slot *)

(** X12. [initialize_large_buf_ref] stays within the bytes it is given: for
    a reference of [size_in_bytes] bytes that has room behind its header it
    returns with size 0 and offset 0, has set to [NULL_BLOCK_ID] exactly the
    block id slots that lie wholly within the first [size_in_bytes] bytes of
    the reference (slot [j] takes the bytes from
    [offsetof(large_buf_ref, block_ids) + j * sizeof(block_id_t)] on), and has
    left every slot behind them as it was. *)
Theorem initialize_large_buf_ref_clears_whole_slots
    dbg offsetof sizeof_id null size_in_bytes r :
  0 < sizeof_id -> 0 < size_in_bytes - offsetof < 2 ^ 31 ->
  exists ids,
    initialize_large_buf_ref dbg offsetof sizeof_id null size_in_bytes r
    = Returned tt (large_buf_ref.mk 0 0 ids) []
    /\ length ids = length (large_buf_ref.block_ids r)
    /\ forall j : nat,
         (j < length ids)%nat ->
         ids !! j
         = if offsetof + (Z.of_nat j + 1) * sizeof_id <=? size_in_bytes
           then Some null else large_buf_ref.block_ids r !! j.
Proof.
  intros Hid Hbytes.
  set (ids_bytes := size_in_bytes - offsetof) in *.
  assert (Hdiv : 0 <= ids_bytes / sizeof_id < 2 ^ 31).
  { split; [apply Z.div_pos; lia|].
    apply Z.div_lt_upper_bound; [lia|]. nia. }
  destruct (clear_block_ids_ok null (Z.to_nat (ids_bytes / sizeof_id)) 0
              (ids_bytes / sizeof_id)
              (large_buf_ref.mk 0 0 (large_buf_ref.block_ids r))
              ltac:(lia) ltac:(lia) ltac:(lia))
    as (ids & Hrun & Hlen & Hids).
  cbn [large_buf_ref.size large_buf_ref.offset large_buf_ref.block_ids] in *.
  exists ids. split; [|split; [exact Hlen|]].
  - unfold initialize_large_buf_ref. fold ids_bytes.
    rewrite (to_int_small ids_bytes) by lia.
    replace (0 <? ids_bytes) with true by (symmetry; apply Z.ltb_lt; lia).
    rewrite bind_rassert_true, !bind_modify.
    rewrite (to_size_t_small ids_bytes) by lia.
    rewrite (to_int_small (ids_bytes / sizeof_id)) by lia.
    cbn [set_size large_buf_ref.size large_buf_ref.offset large_buf_ref.block_ids].
    exact Hrun.
  - intros j Hj. rewrite Hids.
    replace (0 <=? Z.of_nat j) with true by (symmetry; apply Z.leb_le; lia).
    cbn [andb].
    assert (Hslot : Z.of_nat j < ids_bytes / sizeof_id
                    <-> offsetof + (Z.of_nat j + 1) * sizeof_id <= size_in_bytes).
    { split; intros H.
      - assert ((Z.of_nat j + 1) * sizeof_id <= ids_bytes); [|lia].
        pose proof (Z.mul_div_le ids_bytes sizeof_id Hid). nia.
      - pose proof (Z.div_le_lower_bound ids_bytes sizeof_id (Z.of_nat j + 1) Hid
                      ltac:(nia)).
        lia. }
    destruct (Z.ltb_spec (Z.of_nat j) (ids_bytes / sizeof_id)) as [Hlt|Hge],
             (Z.leb_spec (offsetof + (Z.of_nat j + 1) * sizeof_id) size_in_bytes)
      as [Hin|Hout]; try lia.
    + rewrite Hlen in Hj. destruct (lookup_lt_is_Some_2 _ _ Hj) as [y ->]. reflexivity.
    + reflexivity.
Qed.

(** ** Where the range query returns *)

(** X14. When a range query ends the stream: on a queue built by calls on
    an initialized root block the call returns whenever [rassert] is compiled
    out or [begin <= end], and a call that returns has a trace of key
    deliveries followed by one [done_deletion_keys]; that holds on the path on
    which a buffer is unallocated (for any queue whatsoever) and on the path
    on which no index record reaches [begin_timestamp]. The one way the call
    does not return is a debug build stopped at [rassert(begin_found)] by a
    range given the wrong way round, before any event. *)
Theorem returning_range_query_completes_once
    dbg sizeof_ref offsetof sizeof_id null block_size raw root ops b e :
  initialize_empty_delete_queue dbg sizeof_ref offsetof sizeof_id null block_size raw
  = Returned tt root [] ->
  Forall valid_entry ops -> fits 0 ops ->
  (exists q,
     enqueue_all dbg ops (empty_queue root) = Returned tt q (warnings_from None ops)
     /\ (dbg = false \/ time b <= time e ->
         exists ks,
           dump_keys_from_delete_queue dbg b e q
           = Returned tt q (map deletion_key ks ++ [done_deletion_keys]))
     /\ (forall q' tr,
           dump_keys_from_delete_queue dbg b e q = Returned tt q' tr ->
           (exists ks, tr = map deletion_key ks ++ [done_deletion_keys])
           /\ completions tr = 1%nat)
     /\ (forall f tr,
           dump_keys_from_delete_queue dbg b e q = Crashed f tr ->
           dbg = true /\ time e < time b
           /\ f = rassert_failed begin_found_at_end /\ tr = [])
     /\ (Forall (fun en : entry => time (fst en) < time b) (effective ops) ->
         dbg = false \/ time b <= time e ->
         dump_keys_from_delete_queue dbg b e q = Returned tt q [done_deletion_keys]))
  /\ (forall q0,
        large_buf_ref.size (timestamps_and_offsets_largebuf (queue_root q0)) = 0
        \/ large_buf_ref.size (keys_largebuf (queue_root q0)) = 0 ->
        dump_keys_from_delete_queue dbg b e q0 = Returned tt q0 [done_deletion_keys]).
Proof.
  intros Hinit Hv Hfit. split; [|apply dump_unallocated].
  destruct (built _ _ _ _ _ _ _ _ Hinit ops Hv Hfit) as (q & Hrun & rep & _).
  exists q. split; [exact Hrun|].
  pose proof (dump_returns dbg 0 q _ b e rep) as Hdump.
  split; [|split; [|split]].
  - intros Hok. eexists. exact (Hdump Hok).
  - intros q' tr Hret.
    destruct (Z.le_gt_cases (time b) (time e)) as [Hle|Hgt].
    + rewrite (Hdump (or_intror Hle)) in Hret. injection Hret as _ <-.
      split; [eexists; reflexivity | now rewrite completions_keys].
    + rewrite (dump_inverted dbg 0 q _ rep b e Hgt) in Hret.
      assert (Hdone : tr = [done_deletion_keys]).
      { destruct (first_at_least _ _) as [y|]; [|congruence].
        destruct (_ || _); congruence. }
      rewrite Hdone. split; [exists []; reflexivity | reflexivity].
  - intros f tr Hcrash.
    destruct (Z.le_gt_cases (time b) (time e)) as [Hle|Hgt].
    + rewrite (Hdump (or_intror Hle)) in Hcrash. discriminate.
    + rewrite (dump_inverted dbg 0 q _ rep b e Hgt) in Hcrash.
      destruct (first_at_least _ _) as [y|]; [|discriminate].
      destruct (time b <=? _); cbn [orb] in Hcrash; [discriminate|].
      destruct dbg; cbn [negb] in Hcrash; [|discriminate].
      injection Hcrash as <- <-. repeat split; auto; lia.
  - intros Hnone Hok. rewrite (Hdump Hok), (window_none _ b e Hnone). reflexivity.
Qed.

(** X15. During the index scan of a range query with
    [begin_timestamp <= end_timestamp], no record that reaches
    [end_timestamp] is met before one that reaches [begin_timestamp]:
    [rassert(begin_found)] never fires, for every queue state (even one whose
    index bytes are not the work of this code) and in either build. *)
Theorem begin_found_holds_for_ordered_range dbg q b e :
  time b <= time e ->
  never_fails (rassert_failed begin_found_at_end)
    (range_lookup dbg (primal_offset (queue_root q)) b e q)
  /\ never_fails (rassert_failed begin_found_at_end)
       (dump_keys_from_delete_queue dbg b e q).
Proof.
  intros Hbe. split; [|now apply never_fails_dump_ordered].
  unfold range_lookup. rewrite bind_ref_size.
  apply never_fails_bind; [now apply never_fails_scan|]. intros v s2.
  destruct (negb (begin_found v)); [apply never_fails_returned|].
  destruct (negb (end_found v)); [|apply never_fails_returned].
  rewrite bind_ref_size. apply never_fails_returned.
Qed.

(** ** The further properties at concrete inputs *)

Lemma range_query_reads_any_queue_witness :
  dump_keys_from_delete_queue false (mk_timestamp 100) (mk_timestamp 200) damaged_queue
  = Returned tt damaged_queue
      [deletion_key (store_key_t.mk 5 ["a"%byte; "b"%byte]); done_deletion_keys].
Proof.
  pose proof (range_query_reads_any_queue false (mk_timestamp 100) (mk_timestamp 200)
                damaged_queue) as H.
  destruct (dump_keys_from_delete_queue false (mk_timestamp 100) (mk_timestamp 200)
              damaged_queue) as [[] q' tr|f tr] eqn:Hrun.
  - destruct H as [-> _]. vm_compute in Hrun. injection Hrun as <-. reflexivity.
  - vm_compute in Hrun. discriminate Hrun.
Defined.

Lemma empty_or_inverted_range_reads_no_key_witness :
  dump_keys_from_delete_queue true (mk_timestamp 100) (mk_timestamp 100) damaged_queue
  = Returned tt damaged_queue [done_deletion_keys].
Proof.
  pose proof (empty_or_inverted_range_reads_no_key true (mk_timestamp 100) (mk_timestamp 100)
                damaged_queue ltac:(cbn; lia)) as H.
  destruct (dump_keys_from_delete_queue true (mk_timestamp 100) (mk_timestamp 100)
              damaged_queue) as [[] q' tr|f tr] eqn:Hrun.
  - destruct H as [-> ->]. reflexivity.
  - vm_compute in Hrun. discriminate Hrun.
Defined.

Lemma adjacent_ranges_concatenate_witness :
  exists q,
    enqueue_all true scenario_calls (empty_queue (initialized_block 1010))
    = Returned tt q []
    /\ delivered (trace (dump_keys_from_delete_queue true
                           (mk_timestamp 100) (mk_timestamp 9999) q))
       = delivered (trace (dump_keys_from_delete_queue true
                             (mk_timestamp 100) (mk_timestamp 105) q))
         ++ delivered (trace (dump_keys_from_delete_queue true
                                (mk_timestamp 105) (mk_timestamp 9999) q)).
Proof.
  exact (adjacent_ranges_concatenate true 16 16 4 4294967295 4096
           (uninitialized_block 1010) (initialized_block 1010) scenario_calls
           (mk_timestamp 100) (mk_timestamp 105) (mk_timestamp 9999)
           ltac:(vm_compute; reflexivity)
           ltac:(repeat constructor; cbn; lia)
           ltac:(unfold fits; cbn; lia)
           ltac:(cbn; lia) ltac:(cbn; lia)).
Defined.

Lemma enqueue_extends_range_results_witness :
  exists q q',
    enqueue_all true scenario_calls (empty_queue (initialized_block 1010))
    = Returned tt q []
    /\ enqueue_all true [(mk_timestamp 102, key_of ["d"%byte])] q
       = Returned tt q' [logWRN 105 102]
    /\ delivered (trace (dump_keys_from_delete_queue true
                           (mk_timestamp 105) (mk_timestamp 9999) q'))
       = delivered (trace (dump_keys_from_delete_queue true
                             (mk_timestamp 105) (mk_timestamp 9999) q))
         ++ [key_of ["d"%byte]].
Proof.
  exact (enqueue_extends_range_results true 16 16 4 4294967295 4096
           (uninitialized_block 1010) (initialized_block 1010) scenario_calls
           [(mk_timestamp 102, key_of ["d"%byte])]
           (mk_timestamp 105) (mk_timestamp 9999)
           ltac:(vm_compute; reflexivity)
           ltac:(repeat constructor; cbn; lia)
           ltac:(repeat constructor; cbn; lia)
           ltac:(unfold fits; cbn; lia)).
Defined.

Lemma range_below_enqueued_timestamp_is_final_witness :
  exists q q',
    enqueue_all true scenario_calls (empty_queue (initialized_block 1010))
    = Returned tt q []
    /\ enqueue_all true [(mk_timestamp 100, key_of ["d"%byte])] q
       = Returned tt q' [logWRN 105 100]
    /\ delivered (trace (dump_keys_from_delete_queue true
                           (mk_timestamp 100) (mk_timestamp 105) q'))
       = delivered (trace (dump_keys_from_delete_queue true
                             (mk_timestamp 100) (mk_timestamp 105) q)).
Proof.
  exact (range_below_enqueued_timestamp_is_final true 16 16 4 4294967295 4096
           (uninitialized_block 1010) (initialized_block 1010) scenario_calls
           [(mk_timestamp 100, key_of ["d"%byte])]
           (mk_timestamp 100) (mk_timestamp 105)
           ltac:(vm_compute; reflexivity)
           ltac:(repeat constructor; cbn; lia)
           ltac:(repeat constructor; cbn; lia)
           ltac:(unfold fits; cbn; lia)
           ltac:(unfold scenario_calls; do 2 apply Exists_cons_tl;
                 apply Exists_cons_hd; cbn; lia)).
Defined.

Lemma max_timestamp_never_delivered_witness :
  exists q,
    enqueue_all true [(mk_timestamp 100, key_of ["a"%byte]);
                      (max_timestamp, key_of ["b"%byte]);
                      (mk_timestamp 7, key_of ["c"%byte])]
                (empty_queue (initialized_block 1010))
    = Returned tt q [logWRN 4294967295 7]
    /\ delivered (trace (dump_keys_from_delete_queue true
                           (mk_timestamp 0) max_timestamp q))
       = [key_of ["a"%byte]].
Proof.
  destruct (max_timestamp_never_delivered true 16 16 4 4294967295 4096
              (uninitialized_block 1010) (initialized_block 1010)
              [(mk_timestamp 100, key_of ["a"%byte])] (key_of ["b"%byte])
              [(mk_timestamp 7, key_of ["c"%byte])]
              (mk_timestamp 0) max_timestamp
              ltac:(vm_compute; reflexivity)
              ltac:(repeat constructor; cbn; lia)
              ltac:(unfold fits; cbn; lia)
              ltac:(unfold valid_timestamp; cbn; lia))
    as (q & Hrun & Hdel & _).
  exists q. split; [exact Hrun | exact Hdel].
Defined.

Lemma full_range_delivers_every_key_witness :
  exists q,
    enqueue_all true out_of_order_calls (empty_queue (initialized_block 1010))
    = Returned tt q [logWRN 100 50]
    /\ dump_keys_from_delete_queue true (mk_timestamp 0) (mk_timestamp 101) q
       = Returned tt q [deletion_key (key_of ["a"%byte]);
                        deletion_key (key_of ["b"%byte]); done_deletion_keys].
Proof.
  exact (full_range_delivers_every_key true 16 16 4 4294967295 4096
           (uninitialized_block 1010) (initialized_block 1010) out_of_order_calls
           (mk_timestamp 0) (mk_timestamp 101)
           ltac:(vm_compute; reflexivity)
           ltac:(repeat constructor; cbn; lia)
           ltac:(unfold fits; cbn; lia)
           ltac:(cbn; lia)
           ltac:(repeat constructor; cbn; lia)).
Defined.

Lemma out_of_order_calls_are_logged_witness :
  exists q,
    enqueue_all true out_of_order_calls (empty_queue (initialized_block 1010))
    = Returned tt q [logWRN 100 50]
    /\ ~ StronglySorted time_le out_of_order_calls.
Proof.
  destruct (out_of_order_calls_are_logged true 16 16 4 4294967295 4096
              (uninitialized_block 1010) (initialized_block 1010) out_of_order_calls
              ltac:(vm_compute; reflexivity)
              ltac:(repeat constructor; cbn; lia)
              ltac:(unfold fits; cbn; lia))
    as (q & tr & Hrun & Htr & Hiff & _).
  exists q. split.
  - rewrite Hrun, Htr. reflexivity.
  - intros Hs. apply Hiff in Hs. rewrite Hs in Htr. discriminate Htr.
Defined.

Lemma enqueue_only_appends_witness :
  exists q q',
    enqueue_all true scenario_calls (empty_queue (initialized_block 1010))
    = Returned tt q []
    /\ add_key_to_delete_queue true (mk_timestamp 200) (key_of ["d"%byte]) q
       = Returned tt q' []
    /\ keys_data q' = keys_data q ++ [Byte.x01; "d"%byte]
    /\ index_entries q' = index_entries q ++ [t_and_o.mk (mk_timestamp 200) 6].
Proof.
  destruct (enqueue_only_appends true 16 16 4 4294967295 4096
              (uninitialized_block 1010) (initialized_block 1010) scenario_calls
              (mk_timestamp 200) (key_of ["d"%byte])
              ltac:(vm_compute; reflexivity)
              ltac:(repeat constructor; cbn; lia)
              ltac:(repeat constructor; cbn; lia)
              ltac:(unfold fits; cbn; lia))
    as (q & q' & tr & recs & Hrun & Hrun' & Hkeys & _ & _ & _ & Hindex & Hrecs & _).
  exists q, q'. split; [exact Hrun|].
  assert (Hq : q = match enqueue_all true scenario_calls
                         (empty_queue (initialized_block 1010)) with
                   | Returned _ s _ => s
                   | Crashed _ _ => q
                   end) by (rewrite Hrun; reflexivity).
  vm_compute in Hq.
  assert (Hq' : (q', tr) = match add_key_to_delete_queue true (mk_timestamp 200)
                                   (key_of ["d"%byte]) q with
                           | Returned _ s tr' => (s, tr')
                           | Crashed _ _ => (q', tr)
                           end) by (rewrite Hrun'; reflexivity).
  rewrite Hq in Hq'. vm_compute in Hq'. injection Hq' as Hq' ->.
  split; [exact Hrun'|]. split; [exact Hkeys|].
  rewrite Hq', Hq. vm_compute. reflexivity.
Defined.

Lemma index_scan_gives_log_positions_witness :
  exists q,
    enqueue_all true scenario_calls (empty_queue (initialized_block 1010))
    = Returned tt q []
    /\ range_lookup true (primal_offset (queue_root q))
                    (mk_timestamp 105) (mk_timestamp 9999) q
       = Returned (Some (4, 6)) q []
    /\ range_lookup true (primal_offset (queue_root q))
                    (mk_timestamp 106) (mk_timestamp 9999) q
       = Returned None q [].
Proof.
  destruct (index_scan_gives_log_positions true 16 16 4 4294967295 4096
              (uninitialized_block 1010) (initialized_block 1010) scenario_calls
              (mk_timestamp 105) (mk_timestamp 9999)
              ltac:(vm_compute; reflexivity)
              ltac:(repeat constructor; cbn; lia)
              ltac:(unfold fits; cbn; lia)
              ltac:(cbn; lia))
    as (q & Hrun & Hlookup).
  destruct (index_scan_gives_log_positions true 16 16 4 4294967295 4096
              (uninitialized_block 1010) (initialized_block 1010) scenario_calls
              (mk_timestamp 106) (mk_timestamp 9999)
              ltac:(vm_compute; reflexivity)
              ltac:(repeat constructor; cbn; lia)
              ltac:(unfold fits; cbn; lia)
              ltac:(cbn; lia))
    as (q2 & Hrun2 & Hlookup2).
  rewrite Hrun in Hrun2. injection Hrun2 as <-.
  exists q. split; [exact Hrun|]. split; [exact Hlookup | exact Hlookup2].
Defined.

Lemma initialize_large_buf_ref_clears_whole_slots_witness :
  exists ids,
    initialize_large_buf_ref true 16 4 4294967295 26 (large_buf_ref.mk 5 6 [1; 2; 3])
    = Returned tt (large_buf_ref.mk 0 0 ids) []
    /\ ids !! 0%nat = Some 4294967295
    /\ ids !! 1%nat = Some 4294967295
    /\ ids !! 2%nat = Some 3.
Proof.
  destruct (initialize_large_buf_ref_clears_whole_slots true 16 4 4294967295 26
              (large_buf_ref.mk 5 6 [1; 2; 3]) ltac:(lia) ltac:(lia))
    as (ids & Hrun & Hlen & Hids).
  cbn [large_buf_ref.block_ids length] in Hlen.
  exists ids. split; [exact Hrun|].
  split; [|split]; rewrite Hids by (rewrite Hlen; lia); reflexivity.
Defined.

Lemma walk_on_any_slice_witness :
  exists ks b rest,
    [Byte.x01; "a"%byte; Byte.x05; "b"%byte] = key_log ks ++ b :: rest
    /\ Z.of_nat (length rest) < byte.unsigned b
    /\ walk true 4 [Byte.x01; "a"%byte; Byte.x05; "b"%byte] damaged_queue
       = Crashed (rassert_failed key_within_slice) (map deletion_key ks)
    /\ walk false 4 [Byte.x01; "a"%byte; Byte.x05; "b"%byte] damaged_queue
       = Returned tt damaged_queue
           [deletion_key (key_of ["a"%byte]); deletion_key (store_key_t.mk 5 ["b"%byte])].
Proof.
  pose proof (walk_on_any_slice true 4 [Byte.x01; "a"%byte; Byte.x05; "b"%byte]
                damaged_queue ltac:(cbn; lia)) as H.
  destruct (walk true 4 [Byte.x01; "a"%byte; Byte.x05; "b"%byte] damaged_queue)
    as [[] q' tr|f tr] eqn:Hrun.
  - vm_compute in Hrun. discriminate Hrun.
  - destruct H as (_ & -> & ks & b & rest & _ & Hslice & -> & Hlt).
    exists ks, b, rest. split; [exact Hslice|]. split; [exact Hlt|].
    split; [reflexivity | vm_compute; reflexivity].
Defined.

Lemma returning_range_query_completes_once_witness :
  exists q ks,
    enqueue_all true scenario_calls (empty_queue (initialized_block 1010))
    = Returned tt q []
    /\ dump_keys_from_delete_queue true (mk_timestamp 101) (mk_timestamp 9999) q
       = Returned tt q (map deletion_key ks ++ [done_deletion_keys]).
Proof.
  destruct (returning_range_query_completes_once true 16 16 4 4294967295 4096
              (uninitialized_block 1010) (initialized_block 1010) scenario_calls
              (mk_timestamp 101) (mk_timestamp 9999)
              ltac:(vm_compute; reflexivity)
              ltac:(repeat constructor; cbn; lia)
              ltac:(unfold fits; cbn; lia))
    as [(q & Hrun & Hreturns & _) _].
  destruct (Hreturns ltac:(right; cbn; lia)) as [ks Hdump].
  exists q, ks. split; [exact Hrun | exact Hdump].
Defined.

Lemma begin_found_holds_for_ordered_range_witness :
  enqueue_all true scenario_calls (empty_queue (initialized_block 1010))
  = Returned tt scenario_queue []
  /\ first_at_least 105 (index_entries scenario_queue)
     = Some (t_and_o.mk (mk_timestamp 105) 4)
  /\ range_lookup true (primal_offset (queue_root scenario_queue))
                  (mk_timestamp 100) (mk_timestamp 105) scenario_queue
     = Returned (Some (0, 4)) scenario_queue []
  /\ never_fails (rassert_failed begin_found_at_end)
       (dump_keys_from_delete_queue true (mk_timestamp 100) (mk_timestamp 105)
          scenario_queue).
Proof.
  split; [vm_compute; reflexivity|].
  split; [vm_compute; reflexivity|].
  split; [vm_compute; reflexivity|].
  apply (begin_found_holds_for_ordered_range true scenario_queue
           (mk_timestamp 100) (mk_timestamp 105)).
  cbn. lia.
Defined.
